(** * LoRA module surgery (lora_diffusion/lora.py): a shallow embedding

    The development follows the Python source function by function.

    - Tensors are a shape and a row-major list of entries.  Entries are
      exact integers: every numeric equation proved below only uses the
      laws of a commutative ring, so it is the exact-arithmetic content of
      the corresponding floating-point statement.
    - A [parameter] is a tensor together with the identity of the
      [nn.Parameter] object that holds it, so that "the same object" and
      "an equal copy" are different things.
    - Python exceptions are values of [exn]; code that can raise runs in
      the monad [M], which also threads the allocator of object
      identities and the random source used by the initialisers. *)

From Stdlib Require Import ZArith QArith List Ascii String DecimalString Sorted Lia.
From Stdlib Require OrdersEx DecimalPos DecimalZ.
From stdpp Require Import base list strings gmap.

Set Warnings "-register-all".
Local Open Scope string_scope.
Local Open Scope list_scope.
Local Open Scope nat_scope.

(** ** Exceptions, results, the construction monad *)

Inductive value_error :=
| RankTooLarge      (* "LoRA rank r must be less or equal than ..." *)
| NoLoraInjected    (* "No lora injected." *)
| NoMetadata        (* "Tensor ... has no metadata - is this a Lora safetensor?" *)
| BadUnpack         (* tuple unpacking of the wrong number of values *)
| BadInt            (* int() of a malformed literal *)
| BadJson           (* json.loads of malformed text *)
| BadConvGroups     (* nn.Conv2d: channels not divisible by groups *)
| BadDropout.       (* nn.Dropout: probability outside [0, 1] *)

Inductive exn :=
| ValueError (why : value_error)
| IndexError
| KeyError
| AttributeError
| RuntimeError
| ZeroDivisionError
| RecursionError    (* the traversal fuel of the model ran out; the entry
                       points always supply enough (see [walk_fuel_enough]) *)
| OutsideModel.     (* not a Python exception: the run reaches a state that
                       is not a module tree (see [as_ancestor]) *)

Inductive result (A : Type) :=
| Ok (a : A)
| Raise (e : exn).
Arguments Ok {A} a.
Arguments Raise {A} e.

Definition is_ok {A} (r : result A) : bool :=
  match r with Ok _ => true | Raise _ => false end.

Definition rbind {A B} (r : result A) (k : A -> result B) : result B :=
  match r with Ok a => k a | Raise e => Raise e end.

(** The world: the next unused object identity and the random source.
    [rng w d i] is entry [i] of the [d]-th random fill. *)
Record world := World { next_id : nat; rng : nat -> nat -> Z }.

Definition M (A : Type) : Type := world -> result (A * world).

Definition ret {A} (a : A) : M A := fun w => Ok (a, w).
Definition bind {A B} (c : M A) (k : A -> M B) : M B :=
  fun w => match c w with Ok (a, w') => k a w' | Raise e => Raise e end.
Definition raise {A} (e : exn) : M A := fun _ => Raise e.
Definition fresh : M nat :=
  fun w => Ok (next_id w, World (S (next_id w)) (rng w)).
Definition draws : M (nat -> nat -> Z) := fun w => Ok (rng w, w).

Declare Scope py_scope.
Delimit Scope py_scope with py.
Notation "x <- c1 ;; c2" := (bind c1 (fun x => c2))
  (at level 100, c1 at next level, right associativity) : py_scope.
Local Open Scope py_scope.

(** ** Tensors and parameters *)

Record tensor := Tensor { shape : list nat; data : list Z }.

Definition numel (s : list nat) : nat := foldr Nat.mul 1 s.

Definition full (s : list nat) (v : Z) : tensor :=
  Tensor s (replicate (numel s) v).

Definition random_fill (r : nat -> nat -> Z) (d : nat) (s : list nat) : tensor :=
  Tensor s (map (r d) (seq 0 (numel s))).

(** [tensor_wf t]: the storage has as many entries as the shape says. *)
Definition tensor_wf (t : tensor) : Prop := length (data t) = numel (shape t).

Record parameter := mkParameter { pid : nat; pdata : tensor; requires_grad : bool }.

(** [nn.Parameter(t)]: a new parameter object around [t]. *)
Definition nn_Parameter (t : tensor) : M parameter :=
  i <- fresh ;; ret (mkParameter i t true).

(** A parameter created by a layer constructor: a new object with the
    layer's default (random) initialisation. *)
Definition init_parameter (s : list nat) : M parameter :=
  i <- fresh ;; d <- fresh ;; r <- draws ;;
  ret (mkParameter i (random_fill r d s) true).

(** [nn.init.normal_(p, std)] and [nn.init.zeros_(p)] fill the storage of
    the existing object. *)
Definition normal_ (p : parameter) (std : Q) : M parameter :=
  d <- fresh ;; r <- draws ;;
  ret (mkParameter (pid p) (random_fill r d (shape (pdata p))) (requires_grad p)).

Definition zeros_ (p : parameter) : parameter :=
  mkParameter (pid p) (full (shape (pdata p)) 0%Z) (requires_grad p).

(** Python's [1 / r] on integers. *)
Definition py_truediv_1 (r : nat) : M Q :=
  match r with
  | O => raise ZeroDivisionError
  | S _ => ret (1 # Pos.of_nat r)%Q
  end.

(** ** The plain layers of the substrate *)

Module Linear.
Record t := Make {
  in_features : nat;
  out_features : nat;
  weight : parameter;
  bias : option parameter }.
End Linear.

Module Conv2d.
Record t := Make {
  in_channels : nat;
  out_channels : nat;
  kernel_size : nat * nat;
  stride : nat * nat;
  padding : nat * nat;
  dilation : nat * nat;
  groups : nat;
  weight : parameter;
  bias : option parameter }.
End Conv2d.

Module Dropout.
Record t := Make { p : Q }.
End Dropout.

(** [nn.Linear(in_features, out_features, bias)]. *)
Definition nn_Linear (in_features out_features : nat) (bias : bool) : M Linear.t :=
  w <- init_parameter [out_features; in_features] ;;
  b <- (if bias then (b <- init_parameter [out_features] ;; ret (Some b))
        else ret None) ;;
  ret (Linear.Make in_features out_features w b).

(** [nn.Conv2d(...)] with the constructor's argument checks: a positive
    number of groups that divides both channel counts. *)
Definition nn_Conv2d (in_channels out_channels : nat)
    (kernel_size stride padding dilation : nat * nat) (groups : nat)
    (bias : bool) : M Conv2d.t :=
  if groups =? 0 then raise (ValueError BadConvGroups)
  else if negb (in_channels mod groups =? 0) then raise (ValueError BadConvGroups)
  else if negb (out_channels mod groups =? 0) then raise (ValueError BadConvGroups)
  else
    w <- init_parameter
           [out_channels; in_channels / groups; fst kernel_size; snd kernel_size] ;;
    b <- (if bias then (b <- init_parameter [out_channels] ;; ret (Some b))
          else ret None) ;;
    ret (Conv2d.Make in_channels out_channels kernel_size stride padding
           dilation groups w b).

(** [nn.Dropout(p)]. *)
Definition nn_Dropout (p : Q) : M Dropout.t :=
  if (Qle_bool 0 p && Qle_bool p 1)%bool then ret (Dropout.Make p)
  else raise (ValueError BadDropout).

(** ** The two augmented layers *)

Module LoraInjectedLinear.
Record t := Make {
  linear : Linear.t;
  lora_down : Linear.t;
  dropout : Dropout.t;
  lora_up : Linear.t;
  scale : Z }.

Definition set_weight (l : Linear.t) (w : parameter) : Linear.t :=
  Linear.Make (Linear.in_features l) (Linear.out_features l) w (Linear.bias l).
Definition set_bias (l : Linear.t) (b : option parameter) : Linear.t :=
  Linear.Make (Linear.in_features l) (Linear.out_features l) (Linear.weight l) b.

(** [__init__(self, in_features, out_features, bias=False, r=4, dropout_p=0.1)] *)
Definition init (in_features out_features : nat) (bias : bool) (r : nat)
    (dropout_p : Q) : M t :=
  if Nat.min in_features out_features <? r then raise (ValueError RankTooLarge)
  else
    linear <- nn_Linear in_features out_features bias ;;
    lora_down <- nn_Linear in_features r false ;;
    dropout <- nn_Dropout dropout_p ;;
    lora_up <- nn_Linear r out_features false ;;
    std <- py_truediv_1 r ;;
    wd <- normal_ (Linear.weight lora_down) std ;;
    ret (Make linear (set_weight lora_down wd) dropout
           (set_weight lora_up (zeros_ (Linear.weight lora_up))) 1%Z).
End LoraInjectedLinear.

Module LoraInjectedConv2d.
Record t := Make {
  conv : Conv2d.t;
  lora_down : Conv2d.t;
  dropout : Dropout.t;
  lora_up : Conv2d.t;
  scale : Z }.

Definition set_weight (c : Conv2d.t) (w : parameter) : Conv2d.t :=
  Conv2d.Make (Conv2d.in_channels c) (Conv2d.out_channels c)
    (Conv2d.kernel_size c) (Conv2d.stride c) (Conv2d.padding c)
    (Conv2d.dilation c) (Conv2d.groups c) w (Conv2d.bias c).
Definition set_bias (c : Conv2d.t) (b : option parameter) : Conv2d.t :=
  Conv2d.Make (Conv2d.in_channels c) (Conv2d.out_channels c)
    (Conv2d.kernel_size c) (Conv2d.stride c) (Conv2d.padding c)
    (Conv2d.dilation c) (Conv2d.groups c) (Conv2d.weight c) b.

(** [__init__(self, in_channels, out_channels, kernel_size, stride=1,
    padding=0, dilation=1, groups=1, bias=True, r=4, dropout_p=0.1)] *)
Definition init (in_channels out_channels : nat)
    (kernel_size stride padding dilation : nat * nat) (groups : nat)
    (bias : bool) (r : nat) (dropout_p : Q) : M t :=
  if Nat.min in_channels out_channels <? r then raise (ValueError RankTooLarge)
  else
    conv <- nn_Conv2d in_channels out_channels kernel_size stride padding
              dilation groups bias ;;
    lora_down <- nn_Conv2d in_channels r kernel_size stride padding
                   dilation groups false ;;
    dropout <- nn_Dropout dropout_p ;;
    lora_up <- nn_Conv2d r out_channels (1, 1) (1, 1) (0, 0) (1, 1) 1 false ;;
    std <- py_truediv_1 r ;;
    wd <- normal_ (Conv2d.weight lora_down) std ;;
    ret (Make conv (set_weight lora_down wd) dropout
           (set_weight lora_up (zeros_ (Conv2d.weight lora_up))) 1%Z).
End LoraInjectedConv2d.

(** The default of the constructors' [dropout_p]. *)
Definition default_dropout_p : Q := (1 # 10)%Q.

(** ** Tensor arithmetic of the substrate

    Only what the layers' forward passes and [collapse_lora] use.  An
    operation applied to operands of the wrong shape raises
    [RuntimeError], as it does in torch. *)

Notation "x <~ c1 ;; c2" := (rbind c1 (fun x => c2))
  (at level 100, c1 at next level, right associativity) : py_scope.

Definition sumZ (l : list Z) : Z := foldr Z.add 0%Z l.

Definition entry (d : list Z) (i : nat) : Z := nth i d 0%Z.

(** [a + b] on tensors of one shape.  (torch would also broadcast
    dimensions of size one; the layers below never rely on it.) *)
Definition tensor_add (a b : tensor) : result tensor :=
  if bool_decide (shape a = shape b)
  then Ok (Tensor (shape a) (zip_with Z.add (data a) (data b)))
  else Raise RuntimeError.

(** [t * c] for a scalar [c]. *)
Definition tensor_scale (t : tensor) (c : Z) : tensor :=
  Tensor (shape t) (map (fun v => v * c)%Z (data t)).

(** [c * t] for a scalar [c]. *)
Definition scale_tensor (c : Z) (t : tensor) : tensor :=
  Tensor (shape t) (map (fun v => c * v)%Z (data t)).

(** [a @ b] on matrices. *)
Definition matmul (a b : tensor) : result tensor :=
  match shape a, shape b with
  | [n; k], [k'; m] =>
      if k =? k' then
        Ok (Tensor [n; m]
              (flat_map (fun i =>
                 map (fun j =>
                   sumZ (map (fun l => entry (data a) (i * k + l)
                                       * entry (data b) (l * m + j))%Z
                             (seq 0 k)))
                   (seq 0 m))
                 (seq 0 n)))
      else Raise RuntimeError
  | _, _ => Raise RuntimeError
  end.

(** [t.flatten(start_dim=1)] and [t.reshape(s)]: the storage is kept. *)
Definition flatten1 (t : tensor) : result tensor :=
  match shape t with
  | [] => Raise IndexError
  | d :: rest => Ok (Tensor [d; numel rest] (data t))
  end.

Definition reshape (t : tensor) (s : list nat) : result tensor :=
  if numel (shape t) =? numel s then Ok (Tensor s (data t))
  else Raise RuntimeError.

(** One draw of a dropout layer: entry [i] is multiplied by [mask i]
    (zero for a dropped entry, the rescaling factor otherwise; constantly
    one in evaluation mode). *)
Definition F_dropout (mask : nat -> Z) (x : tensor) : tensor :=
  Tensor (shape x) (imap (fun i v => mask i * v)%Z (data x)).

Fixpoint split_last (s : list nat) : option (list nat * nat) :=
  match s with
  | [] => None
  | d :: s' =>
      match split_last s' with
      | Some (lead, k) => Some (d :: lead, k)
      | None => Some ([], d)
      end
  end.

Definition bias_entry (b : option tensor) (j : nat) : Z :=
  match b with
  | Some t => entry (data t) j
  | None => 0%Z
  end.

Definition bias_fits (b : option tensor) (o : nat) : bool :=
  match b with
  | Some t => bool_decide (shape t = [o])
  | None => true
  end.

(** [F.linear(x, W, b)]: [x] of shape [(..., i)], [W] of shape [(o, i)]. *)
Definition F_linear (x W : tensor) (b : option tensor) : result tensor :=
  match shape W, split_last (shape x) with
  | [o; i], Some (lead, k) =>
      if (k =? i) && bias_fits b o then
        Ok (Tensor (lead ++ [o])
              (flat_map (fun n =>
                 map (fun j =>
                   (sumZ (map (fun l => entry (data x) (n * i + l)
                                        * entry (data W) (j * i + l))%Z
                              (seq 0 i))
                    + bias_entry b j)%Z)
                   (seq 0 o))
                 (seq 0 (numel lead))))
      else Raise RuntimeError
  | _, _ => Raise RuntimeError
  end.

(** Output extent of a convolution along one axis, when it exists. *)
Definition conv_out_dim (h k s p d : nat) : option nat :=
  if (s =? 0) || (d =? 0) || (k =? 0) then None
  else if h + 2 * p <? d * (k - 1) + 1 then None
  else Some ((h + 2 * p - (d * (k - 1) + 1)) / s + 1).

(** The input seen through its zero padding: row [r] and column [q] are
    counted in the padded image. *)
Definition padded (xd : list Z) (C H Wd : nat) (padding : nat * nat)
    (n c r q : nat) : Z :=
  if (fst padding <=? r) && (r - fst padding <? H)
     && (snd padding <=? q) && (q - snd padding <? Wd)
  then entry xd (((n * C + c) * H + (r - fst padding)) * Wd + (q - snd padding))
  else 0%Z.

(** [N, C, H, W] of a batched or single image. *)
Definition image_dims (s : list nat) : option (bool * nat * nat * nat * nat) :=
  match s with
  | [N; C; H; Wd] => Some (true, N, C, H, Wd)
  | [C; H; Wd] => Some (false, 1, C, H, Wd)
  | _ => None
  end.

(** One output entry of a grouped convolution: output channel [o] reads
    the [Cg] input channels of its own group. *)
Definition conv_entry (xd wd : list Z) (b : option tensor)
    (C H Wd Co Cg kh kw : nat) (stride padding dilation : nat * nat)
    (groups : nat) (n o i j : nat) : Z :=
  (sumZ (map (fun c =>
     sumZ (map (fun ki =>
       sumZ (map (fun kj =>
         entry wd (((o * Cg + c) * kh + ki) * kw + kj)
         * padded xd C H Wd padding n (o / (Co / groups) * Cg + c)
             (i * fst stride + ki * fst dilation)
             (j * snd stride + kj * snd dilation))%Z
         (seq 0 kw)))
       (seq 0 kh)))
     (seq 0 Cg))
   + bias_entry b o)%Z.

(** [F.conv2d(x, W, b, stride, padding, dilation, groups)] with zero
    padding: [x] of shape [(N, C, H, W)] or [(C, H, W)], [W] of shape
    [(Co, C / groups, kh, kw)]. *)
Definition F_conv2d (x W : tensor) (b : option tensor)
    (stride padding dilation : nat * nat) (groups : nat) : result tensor :=
  match shape W, image_dims (shape x) with
  | [Co; Cg; kh; kw], Some (batched, N, C, H, Wd) =>
      if (groups =? 0) || negb (C =? Cg * groups) || negb (Co mod groups =? 0)
         || negb (bias_fits b Co)
      then Raise RuntimeError
      else
        match conv_out_dim H kh (fst stride) (fst padding) (fst dilation),
              conv_out_dim Wd kw (snd stride) (snd padding) (snd dilation) with
        | Some Ho, Some Wo =>
            Ok (Tensor (if batched then [N; Co; Ho; Wo] else [Co; Ho; Wo])
                  (flat_map (fun n =>
                     flat_map (fun o =>
                       flat_map (fun i =>
                         map (fun j =>
                           conv_entry (data x) (data W) b C H Wd Co Cg kh kw
                             stride padding dilation groups n o i j)
                           (seq 0 Wo))
                         (seq 0 Ho))
                       (seq 0 Co))
                     (seq 0 N)))
        | _, _ => Raise RuntimeError
        end
  | _, _ => Raise RuntimeError
  end.

(** ** Forward passes of the layers *)

Definition Linear_forward (self : Linear.t) (input : tensor) : result tensor :=
  F_linear input (pdata (Linear.weight self)) (pdata <$> Linear.bias self).

Definition Conv2d_forward (self : Conv2d.t) (input : tensor) : result tensor :=
  F_conv2d input (pdata (Conv2d.weight self)) (pdata <$> Conv2d.bias self)
    (Conv2d.stride self) (Conv2d.padding self) (Conv2d.dilation self)
    (Conv2d.groups self).

(** The draw of every dropout layer, by its probability. *)
Definition Dropout_forward (mask : Q -> nat -> Z) (self : Dropout.t)
    (input : tensor) : tensor :=
  F_dropout (mask (Dropout.p self)) input.

(** [LoraInjectedLinear.forward]:
    [self.linear(input)
     + self.lora_up(self.dropout(self.lora_down(input))) * self.scale] *)
Definition LoraInjectedLinear_forward (mask : Q -> nat -> Z)
    (self : LoraInjectedLinear.t) (input : tensor) : result tensor :=
  base <~ Linear_forward (LoraInjectedLinear.linear self) input ;;
  down <~ Linear_forward (LoraInjectedLinear.lora_down self) input ;;
  up <~ Linear_forward (LoraInjectedLinear.lora_up self)
          (Dropout_forward mask (LoraInjectedLinear.dropout self) down) ;;
  tensor_add base (tensor_scale up (LoraInjectedLinear.scale self)).

(** [LoraInjectedConv2d.forward]:
    [self.conv(input)
     + self.lora_up(self.dropout(self.lora_down(input))) * self.scale] *)
Definition LoraInjectedConv2d_forward (mask : Q -> nat -> Z)
    (self : LoraInjectedConv2d.t) (input : tensor) : result tensor :=
  base <~ Conv2d_forward (LoraInjectedConv2d.conv self) input ;;
  down <~ Conv2d_forward (LoraInjectedConv2d.lora_down self) input ;;
  up <~ Conv2d_forward (LoraInjectedConv2d.lora_up self)
          (Dropout_forward mask (LoraInjectedConv2d.dropout self) down) ;;
  tensor_add base (tensor_scale up (LoraInjectedConv2d.scale self)).

(** ** The module tree

    A model is a tree of named sub-modules.  The plain layers have no
    sub-modules; an augmented layer has exactly the four it registers in
    [__init__]; every other class is a container known by its class name
    and its [_modules] in registration order.  (Registered names contain
    no dot and are not empty: [add_module] refuses others.) *)

Inductive module :=
| mLinear (l : Linear.t)
| mConv2d (c : Conv2d.t)
| mDropout (d : Dropout.t)
| mLoraLinear (l : LoraInjectedLinear.t)
| mLoraConv2d (l : LoraInjectedConv2d.t)
| mOther (cls : string) (children : list (string * module)).

(** The classes the source names in [search_class] and
    [exclude_children_of]. *)
Inductive layer_class :=
| cLinear | cConv2d | cLoraInjectedLinear | cLoraInjectedConv2d.

Definition isinstance (m : module) (c : layer_class) : bool :=
  match m, c with
  | mLinear _, cLinear => true
  | mConv2d _, cConv2d => true
  | mLoraLinear _, cLoraInjectedLinear => true
  | mLoraConv2d _, cLoraInjectedConv2d => true
  | _, _ => false
  end.

(** [any([isinstance(module, _class) for _class in classes])] *)
Definition isinstance_any (m : module) (classes : list layer_class) : bool :=
  existsb (isinstance m) classes.

(** [module.__class__.__name__] *)
Definition class_name (m : module) : string :=
  match m with
  | mLinear _ => "Linear"
  | mConv2d _ => "Conv2d"
  | mDropout _ => "Dropout"
  | mLoraLinear _ => "LoraInjectedLinear"
  | mLoraConv2d _ => "LoraInjectedConv2d"
  | mOther cls _ => cls
  end.

(** [module.named_children()] *)
Definition named_children (m : module) : list (string * module) :=
  match m with
  | mLoraLinear l =>
      [("linear", mLinear (LoraInjectedLinear.linear l));
       ("lora_down", mLinear (LoraInjectedLinear.lora_down l));
       ("dropout", mDropout (LoraInjectedLinear.dropout l));
       ("lora_up", mLinear (LoraInjectedLinear.lora_up l))]
  | mLoraConv2d l =>
      [("conv", mConv2d (LoraInjectedConv2d.conv l));
       ("lora_down", mConv2d (LoraInjectedConv2d.lora_down l));
       ("dropout", mDropout (LoraInjectedConv2d.dropout l));
       ("lora_up", mConv2d (LoraInjectedConv2d.lora_up l))]
  | mOther _ children => children
  | _ => []
  end.

(** Dictionary lookup in [_modules]. *)
Fixpoint lookup_child (l : list (string * module)) (name : string) : option module :=
  match l with
  | [] => None
  | (n, c) :: l' => if String.eqb n name then Some c else lookup_child l' name
  end.

(** [m.get_submodule(p1).get_submodule(p2)...] *)
Fixpoint get_submodule (m : module) (path : list string) : option module :=
  match path with
  | [] => Some m
  | n :: path' =>
      match lookup_child (named_children m) n with
      | Some c => get_submodule c path'
      | None => None
      end
  end.

Definition prefix_paths (n : string) (l : list (list string * module))
  : list (list string * module) :=
  map (fun pm => (n :: fst pm, snd pm)) l.

(** [module.named_modules()]: the module itself, then its descendants,
    depth first, parents before children, children in registration order.
    A full name is kept as the list of its dot-separated parts. *)
Fixpoint named_modules (m : module) : list (list string * module) :=
  ([], m) ::
  match m with
  | mOther _ children =>
      flat_map (fun nc => prefix_paths (fst nc) (named_modules (snd nc))) children
  | _ => map (fun nc => ([fst nc], snd nc)) (named_children m)
  end.

(** [*path, name = fullname.split(".")]; the full name of the module the
    walk starts from is the empty string. *)
Definition split_fullname (full : list string) : list string * string :=
  match full with
  | [] => ([], "")
  | _ => (removelast full, List.last full "")
  end.

(** The default of [exclude_children_of]. *)
Definition default_exclude : list layer_class :=
  [cLoraInjectedLinear; cLoraInjectedConv2d].

(** [module.__class__.__name__ in ancestor_class] *)
Definition name_in (tags : list string) (m : module) : bool :=
  existsb (String.eqb (class_name m)) tags.

(** The ancestors of [_find_modules_v2], with their paths from the root. *)
Definition ancestors (model : module) (ancestor_class : option (list string))
  : list (list string * module) :=
  match ancestor_class with
  | Some tags => List.filter (fun pm => name_in tags (snd pm)) (named_modules model)
  | None => named_modules model
  end.

(** What one ancestor contributes to [_find_modules_v2]. *)
Definition find_under (exclude_children_of search_class : list layer_class)
    (apath : list string) (ancestor : module)
  : list (list string * string * module) :=
  flat_map (fun fm =>
    if isinstance_any (snd fm) search_class then
      let (path, name) := split_fullname (fst fm) in
      match get_submodule ancestor path with
      | Some parent =>
          if negb (bool_decide (exclude_children_of = []))
             && isinstance_any parent exclude_children_of
          then []
          else [(apath ++ path, name, snd fm)]
      | None => []
      end
    else [])
    (named_modules ancestor).

(** [_find_modules_v2] on a model that is not changed while the generator
    runs: the sequence of [(parent, name, module)] it yields.  A parent is
    given by its path from the root of the model. *)
Definition find_modules_v2 (model : module) (ancestor_class : option (list string))
    (search_class : option (list layer_class))
    (exclude_children_of : option (list layer_class))
  : list (list string * string * module) :=
  let exclude := default default_exclude exclude_children_of in
  let search := default [cLinear] search_class in
  flat_map (fun am => find_under exclude search (fst am) (snd am))
    (ancestors model ancestor_class).

Definition _find_modules := find_modules_v2.

Definition UNET_DEFAULT_TARGET_REPLACE : list string :=
  ["CrossAttention"; "Attention"; "GEGLU"].
Definition UNET_EXTENDED_TARGET_REPLACE : list string :=
  ["ResnetBlock2D"; "CrossAttention"; "Attention"; "GEGLU"].
Definition TEXT_ENCODER_DEFAULT_TARGET_REPLACE : list string := ["CLIPAttention"].
Definition TEXT_ENCODER_EXTENDED_TARGET_REPLACE : list string := ["CLIPAttention"].
Definition DEFAULT_TARGET_REPLACE : list string := UNET_DEFAULT_TARGET_REPLACE.
Definition EMBED_FLAG : string := "<embed>".

(** ** Running a loop body over the generator

    [for _module, name, _child_module in _find_modules(...): body] is a
    generator that is resumed while the body changes the tree it walks.
    The functions below run the generator and the body together, in the
    order Python does:

    - the outer walk ([model.modules()]) yields a module, and only then
      looks at the children the module has at that moment;
    - when the module is an ancestor, the inner walk
      ([ancestor.named_modules()]) runs to its end first; it hands every
      module of [search_class] whose parent is not excluded to the body,
      and goes on below the object it has just yielded.  The modules of
      [search_class] are the plain and the augmented layers: below them
      there is nothing, or only children whose parent (found by name in
      the current tree) is an augmented layer, which are skipped.

    The exclusion list is always the default one: no caller passes
    another.  A body tells whether it has installed a new module at
    [parent._modules[name]] or has kept the object in place. *)

Inductive outcome :=
| Installed (m : module)
| Kept (m : module).

Definition now_at (o : outcome) : module :=
  match o with Installed m => m | Kept m => m end.

Definition lift {A} (r : result A) : M A :=
  fun w => match r with Ok a => Ok (a, w) | Raise e => Raise e end.

Section Traversal.
Context {St : Type}.
Variable ancestor_class : option (list string).
Variable search_class : list layer_class.
Variable body : string -> module -> St -> M (outcome * St).
(** How the run ends once a plain layer that is its own ancestor has been
    registered as a child (named by the empty string) of itself. *)
Variable self_install : exn.

Definition mapM_children (f : string -> module -> St -> M (module * St))
  : list (string * module) -> St -> M (list (string * module) * St) :=
  fix go (l : list (string * module)) (s : St) :=
    match l with
    | [] => ret ([], s)
    | nc :: l' =>
        x <- f (fst nc) (snd nc) s ;;
        y <- go l' (snd x) ;;
        ret ((fst nc, fst x) :: fst y, snd y)
    end.

(** The inner walk at a module other than the ancestor itself, whose
    parent is not excluded. *)
Fixpoint visit (name : string) (m : module) (s : St) : M (module * St) :=
  if isinstance_any m search_class then
    x <- body name m s ;; ret (now_at (fst x), snd x)
  else
    match m with
    | mOther cls children =>
        x <- mapM_children visit children s ;;
        ret (mOther cls (fst x), snd x)
    | _ => ret (m, s)
    end.

(** The inner walk from an ancestor.  The ancestor comes first, under the
    full name [""]: its "parent" is then the ancestor itself. *)
Definition as_ancestor (a : module) (s : St) : M (module * St) :=
  if isinstance_any a search_class then
    if isinstance_any a default_exclude then ret (a, s)
    else
      x <- body "" a s ;;
      match fst x with
      | Installed _ => raise self_install
      | Kept a' => ret (a', snd x)
      end
  else
    match a with
    | mOther cls children =>
        x <- mapM_children visit children s ;;
        ret (mOther cls (fst x), snd x)
    | _ => ret (a, s)
    end.

Definition is_ancestor (m : module) : bool :=
  match ancestor_class with
  | Some tags => name_in tags m
  | None => true
  end.

(** The outer walk.  With [ancestor_class = None] the source first puts
    all modules in a list; its only caller searches for augmented layers,
    and the modules that the list still holds after they were replaced
    contribute nothing, being their own excluded parent.  The children of
    a layer are plain layers, which no body changes in place. *)
Fixpoint walk (fuel : nat) (m : module) (s : St) : M (module * St) :=
  match fuel with
  | 0 => raise RecursionError
  | S fuel' =>
      x <- (if is_ancestor m then as_ancestor m s else ret (m, s)) ;;
      match fst x with
      | mOther cls children =>
          y <- mapM_children (fun _ => walk fuel') children (snd x) ;;
          ret (mOther cls (fst y), snd y)
      | m1 =>
          y <- mapM_children (fun _ => walk fuel') (named_children m1) (snd x) ;;
          ret (m1, snd y)
      end
  end.

End Traversal.

(** Nesting depth, a layer counting as if it were already wrapped;
    [walk] needs one unit of fuel more. *)
Fixpoint depth (m : module) : nat :=
  match m with
  | mOther _ children => S (foldr (fun nc d => Nat.max (depth (snd nc)) d) 0 children)
  | _ => 1
  end.

Definition for_find_modules {St} (ancestor_class : option (list string))
    (search_class : list layer_class)
    (body : string -> module -> St -> M (outcome * St)) (self_install : exn)
    (model : module) (s : St) : M (module * St) :=
  walk ancestor_class search_class body self_install (S (depth model)) model s.

(** ** Injection *)

Definition is_some {A} (o : option A) : bool :=
  match o with Some _ => true | None => false end.

Definition pop0 {A} (l : list A) : M (A * list A) :=
  match l with
  | [] => raise IndexError
  | a :: l' => ret (a, l')
  end.

Definition trainable (p : parameter) : parameter :=
  mkParameter (pid p) (pdata p) true.

Definition LoraLinear_with_linear (t : LoraInjectedLinear.t) (l : Linear.t) :=
  LoraInjectedLinear.Make l (LoraInjectedLinear.lora_down t)
    (LoraInjectedLinear.dropout t) (LoraInjectedLinear.lora_up t)
    (LoraInjectedLinear.scale t).
Definition LoraLinear_with_weights (t : LoraInjectedLinear.t) (up down : parameter) :=
  LoraInjectedLinear.Make (LoraInjectedLinear.linear t)
    (LoraInjectedLinear.set_weight (LoraInjectedLinear.lora_down t) down)
    (LoraInjectedLinear.dropout t)
    (LoraInjectedLinear.set_weight (LoraInjectedLinear.lora_up t) up)
    (LoraInjectedLinear.scale t).

Definition LoraConv2d_with_conv (t : LoraInjectedConv2d.t) (c : Conv2d.t) :=
  LoraInjectedConv2d.Make c (LoraInjectedConv2d.lora_down t)
    (LoraInjectedConv2d.dropout t) (LoraInjectedConv2d.lora_up t)
    (LoraInjectedConv2d.scale t).
Definition LoraConv2d_with_weights (t : LoraInjectedConv2d.t) (up down : parameter) :=
  LoraInjectedConv2d.Make (LoraInjectedConv2d.conv t)
    (LoraInjectedConv2d.set_weight (LoraInjectedConv2d.lora_down t) down)
    (LoraInjectedConv2d.dropout t)
    (LoraInjectedConv2d.set_weight (LoraInjectedConv2d.lora_up t) up)
    (LoraInjectedConv2d.scale t).

(** [_tmp = LoraInjectedLinear(...); _tmp.linear.weight = weight;
     if bias is not None: _tmp.linear.bias = bias] *)
Definition wrap_linear (src : Linear.t) (r : nat) : M LoraInjectedLinear.t :=
  let weight := Linear.weight src in
  let bias := Linear.bias src in
  tmp <- LoraInjectedLinear.init (Linear.in_features src) (Linear.out_features src)
           (is_some (Linear.bias src)) r default_dropout_p ;;
  let l1 := LoraInjectedLinear.set_weight (LoraInjectedLinear.linear tmp) weight in
  let l2 := match bias with
            | Some b => LoraInjectedLinear.set_bias l1 (Some b)
            | None => l1
            end in
  ret (LoraLinear_with_linear tmp l2).

(** [_tmp = LoraInjectedConv2d(...); _tmp.conv.weight = weight;
     if bias is not None: _tmp.conv.bias = bias] *)
Definition wrap_conv (src : Conv2d.t) (r : nat) : M LoraInjectedConv2d.t :=
  let weight := Conv2d.weight src in
  let bias := Conv2d.bias src in
  tmp <- LoraInjectedConv2d.init (Conv2d.in_channels src) (Conv2d.out_channels src)
           (Conv2d.kernel_size src) (Conv2d.stride src) (Conv2d.padding src)
           (Conv2d.dilation src) (Conv2d.groups src)
           (is_some (Conv2d.bias src)) r default_dropout_p ;;
  let c1 := LoraInjectedConv2d.set_weight (LoraInjectedConv2d.conv tmp) weight in
  let c2 := match bias with
            | Some b => LoraInjectedConv2d.set_bias c1 (Some b)
            | None => c1
            end in
  ret (LoraConv2d_with_conv tmp c2).

(** What the loop of the injection functions carries along: the list
    loaded from [loras] (if any), and the two lists that are returned.
    [require_grad_params] collects [lora_up.parameters()] and
    [lora_down.parameters()], read when the caller consumes them. *)
Record inject_state := InjectState {
  i_loras : option (list tensor);
  i_params : list (list parameter);
  i_names : list string }.

(** [if loras is not None:
       ....lora_up.weight = nn.Parameter(loras.pop(0))
       ....lora_down.weight = nn.Parameter(loras.pop(0))] *)
Definition preset_weights (loras : option (list tensor)) (up down : parameter)
  : M (parameter * parameter * option (list tensor)) :=
  match loras with
  | None => ret (up, down, None)
  | Some l =>
      x <- pop0 l ;;
      up' <- nn_Parameter (fst x) ;;
      y <- pop0 (snd x) ;;
      down' <- nn_Parameter (fst y) ;;
      ret (up', down', Some (snd y))
  end.

Definition install_linear (tmp : LoraInjectedLinear.t) (name : string)
    (s : inject_state) : M (outcome * inject_state) :=
  x <- preset_weights (i_loras s)
         (Linear.weight (LoraInjectedLinear.lora_up tmp))
         (Linear.weight (LoraInjectedLinear.lora_down tmp)) ;;
  let up := trainable (fst (fst x)) in
  let down := trainable (snd (fst x)) in
  ret (Installed (mLoraLinear (LoraLinear_with_weights tmp up down)),
       InjectState (snd x) (i_params s ++ [[up]; [down]]) (i_names s ++ [name])).

Definition install_conv (tmp : LoraInjectedConv2d.t) (name : string)
    (s : inject_state) : M (outcome * inject_state) :=
  x <- preset_weights (i_loras s)
         (Conv2d.weight (LoraInjectedConv2d.lora_up tmp))
         (Conv2d.weight (LoraInjectedConv2d.lora_down tmp)) ;;
  let up := trainable (fst (fst x)) in
  let down := trainable (snd (fst x)) in
  ret (Installed (mLoraConv2d (LoraConv2d_with_weights tmp up down)),
       InjectState (snd x) (i_params s ++ [[up]; [down]]) (i_names s ++ [name])).

(** The loop body of [inject_trainable_lora].  A module without
    [in_features] cannot reach it. *)
Definition inject_body (r : nat) (name : string) (child : module)
    (s : inject_state) : M (outcome * inject_state) :=
  match child with
  | mLinear src => tmp <- wrap_linear src r ;; install_linear tmp name s
  | _ => raise AttributeError
  end.

(** The loop body of [inject_trainable_lora_extended]. *)
Definition inject_extended_body (r : nat) (name : string) (child : module)
    (s : inject_state) : M (outcome * inject_state) :=
  match child with
  | mLinear src => tmp <- wrap_linear src r ;; install_linear tmp name s
  | mConv2d src => tmp <- wrap_conv src r ;; install_conv tmp name s
  | _ => raise AttributeError
  end.

(** [inject_trainable_lora(model, target_replace_module, r, loras)]:
    the changed model, [require_grad_params] and [names].  When a plain
    layer is its own ancestor, the layers wrapped around it are
    registered on it while its children are being listed, and the run
    ends with [RuntimeError]. *)
Definition inject_trainable_lora (model : module)
    (target_replace_module : option (list string)) (r : nat)
    (loras : option (list tensor))
  : M (module * (list (list parameter) * list string)) :=
  let target := default DEFAULT_TARGET_REPLACE target_replace_module in
  x <- for_find_modules (Some target) [cLinear] (inject_body r) RuntimeError
         model (InjectState loras [] []) ;;
  ret (fst x, (i_params (snd x), i_names (snd x))).

Definition inject_trainable_lora_extended (model : module)
    (target_replace_module : option (list string)) (r : nat)
    (loras : option (list tensor))
  : M (module * (list (list parameter) * list string)) :=
  let target := default UNET_EXTENDED_TARGET_REPLACE target_replace_module in
  x <- for_find_modules (Some target) [cLinear; cConv2d]
         (inject_extended_body r) RuntimeError model (InjectState loras [] []) ;;
  ret (fst x, (i_params (snd x), i_names (snd x))).

(** ** Extraction and the legacy save *)

Fixpoint mapR {A B} (f : A -> result B) (l : list A) : result (list B) :=
  match l with
  | [] => Ok []
  | a :: l' => b <~ f a ;; bs <~ mapR f l' ;; Ok (b :: bs)
  end.

(** [(_child_module.lora_up, _child_module.lora_down)] *)
Definition lora_up_down (child : module) : result (module * module) :=
  match child with
  | mLoraLinear l =>
      Ok (mLinear (LoraInjectedLinear.lora_up l),
          mLinear (LoraInjectedLinear.lora_down l))
  | mLoraConv2d l =>
      Ok (mConv2d (LoraInjectedConv2d.lora_up l),
          mConv2d (LoraInjectedConv2d.lora_down l))
  | _ => Raise AttributeError
  end.

Definition extract_lora_ups_down (model : module)
    (target_replace_module : option (list string))
  : result (list (module * module)) :=
  let target := default DEFAULT_TARGET_REPLACE target_replace_module in
  loras <~ mapR (fun pnm => lora_up_down (snd pnm))
             (_find_modules model (Some target)
                (Some [cLoraInjectedLinear; cLoraInjectedConv2d]) None) ;;
  if length loras =? 0 then Raise (ValueError NoLoraInjected) else Ok loras.

(** [layer.weight] *)
Definition weight_of (layer : module) : result parameter :=
  match layer with
  | mLinear l => Ok (Linear.weight l)
  | mConv2d c => Ok (Conv2d.weight c)
  | _ => Raise AttributeError
  end.

(** [getattr(_down, "out_features")], else [getattr(_down, "out_channels")] *)
Definition rank_of (down : module) : result nat :=
  match down with
  | mLinear l => Ok (Linear.out_features l)
  | mConv2d c => Ok (Conv2d.out_channels c)
  | _ => Raise AttributeError
  end.

(** ** Composition: scale, collapse, replace, remove *)


(** The loop body of [collapse_lora]: the base weight becomes a new
    parameter holding [W + alpha * (up @ down)]. *)
Definition collapse_body (alpha : Z) (name : string) (child : module) (s : unit)
  : M (outcome * unit) :=
  match child with
  | mLoraLinear l =>
      let linear := LoraInjectedLinear.linear l in
      prod <- lift (matmul (pdata (Linear.weight (LoraInjectedLinear.lora_up l)))
                           (pdata (Linear.weight (LoraInjectedLinear.lora_down l)))) ;;
      sum <- lift (tensor_add (pdata (Linear.weight linear)) (scale_tensor alpha prod)) ;;
      w <- nn_Parameter sum ;;
      ret (Kept (mLoraLinear
                   (LoraLinear_with_linear l (LoraInjectedLinear.set_weight linear w))), s)
  | mLoraConv2d l =>
      let conv := LoraInjectedConv2d.conv l in
      fu <- lift (flatten1 (pdata (Conv2d.weight (LoraInjectedConv2d.lora_up l)))) ;;
      fd <- lift (flatten1 (pdata (Conv2d.weight (LoraInjectedConv2d.lora_down l)))) ;;
      prod <- lift (matmul fu fd) ;;
      shaped <- lift (reshape prod (shape (pdata (Conv2d.weight conv)))) ;;
      sum <- lift (tensor_add (pdata (Conv2d.weight conv)) (scale_tensor alpha shaped)) ;;
      w <- nn_Parameter sum ;;
      ret (Kept (mLoraConv2d
                   (LoraConv2d_with_conv l (LoraInjectedConv2d.set_weight conv w))), s)
  | _ => raise AttributeError
  end.

(** [collapse_lora(model, alpha)] *)
Definition collapse_lora (model : module) (alpha : Z) : M module :=
  x <- for_find_modules
         (Some (UNET_EXTENDED_TARGET_REPLACE ++ TEXT_ENCODER_EXTENDED_TARGET_REPLACE))
         [cLoraInjectedLinear; cLoraInjectedConv2d] (collapse_body alpha)
         RuntimeError model tt ;;
  ret (fst x).

(** The loop body of [monkeypatch_remove_lora]. *)
Definition remove_body (name : string) (child : module) (s : unit)
  : M (outcome * unit) :=
  match child with
  | mLoraLinear l =>
      let source := LoraInjectedLinear.linear l in
      let weight := Linear.weight source in
      let bias := Linear.bias source in
      tmp <- nn_Linear (Linear.in_features source) (Linear.out_features source)
               (is_some bias) ;;
      let t1 := LoraInjectedLinear.set_weight tmp weight in
      let t2 := match bias with
                | Some b => LoraInjectedLinear.set_bias t1 (Some b)
                | None => t1
                end in
      ret (Installed (mLinear t2), s)
  | mLoraConv2d l =>
      let source := LoraInjectedConv2d.conv l in
      let weight := Conv2d.weight source in
      let bias := Conv2d.bias source in
      tmp <- nn_Conv2d (Conv2d.in_channels source) (Conv2d.out_channels source)
               (Conv2d.kernel_size source) (Conv2d.stride source)
               (Conv2d.padding source) (Conv2d.dilation source)
               (Conv2d.groups source) (is_some bias) ;;
      let t1 := LoraInjectedConv2d.set_weight tmp weight in
      let t2 := match bias with
                | Some b => LoraInjectedConv2d.set_bias t1 (Some b)
                | None => t1
                end in
      ret (Installed (mConv2d t2), s)
  | _ => raise AttributeError
  end.

(** [monkeypatch_remove_lora(model)] *)
Definition monkeypatch_remove_lora (model : module) : M module :=
  x <- for_find_modules None [cLoraInjectedLinear; cLoraInjectedConv2d]
         remove_body RuntimeError model tt ;;
  ret (fst x).

(** [r: Union[int, List[int]]] and [r.pop(0) if isinstance(r, list) else r] *)
Inductive rank_arg :=
| RankInt (r : nat)
| RankList (l : list nat).

Definition next_rank (r : rank_arg) : M (nat * rank_arg) :=
  match r with
  | RankInt n => ret (n, r)
  | RankList l => x <- pop0 l ;; ret (fst x, RankList (snd x))
  end.

Record replace_state := ReplaceState {
  p_loras : list tensor;
  p_r : rank_arg }.

(** [loras[0]] *)
Definition first {A} (l : list A) : M A :=
  match l with
  | [] => raise IndexError
  | a :: _ => ret a
  end.

(** The loop body of [monkeypatch_or_replace_lora_extended]. *)
Definition replace_extended_body (name : string) (child : module)
    (s : replace_state) : M (outcome * replace_state) :=
  match child with
  | mLinear _ | mLoraLinear _ =>
      t0 <- first (p_loras s) ;;
      if negb (length (shape t0) =? 2) then ret (Kept child, s)
      else
        let source := match child with
                      | mLoraLinear l => LoraInjectedLinear.linear l
                      | mLinear l => l
                      | _ => Linear.Make 0 0 (mkParameter 0 t0 true) None
                      end in
        x <- next_rank (p_r s) ;;
        tmp <- wrap_linear source (fst x) ;;
        up <- pop0 (p_loras s) ;;
        down <- pop0 (snd up) ;;
        upw <- nn_Parameter (fst up) ;;
        downw <- nn_Parameter (fst down) ;;
        ret (Installed (mLoraLinear (LoraLinear_with_weights tmp upw downw)),
             ReplaceState (snd down) (snd x))
  | mConv2d _ | mLoraConv2d _ =>
      t0 <- first (p_loras s) ;;
      if negb (length (shape t0) =? 4) then ret (Kept child, s)
      else
        let source := match child with
                      | mLoraConv2d l => LoraInjectedConv2d.conv l
                      | mConv2d c => c
                      | _ => Conv2d.Make 0 0 (0, 0) (0, 0) (0, 0) (0, 0) 0
                               (mkParameter 0 t0 true) None
                      end in
        x <- next_rank (p_r s) ;;
        tmp <- wrap_conv source (fst x) ;;
        up <- pop0 (p_loras s) ;;
        down <- pop0 (snd up) ;;
        upw <- nn_Parameter (fst up) ;;
        downw <- nn_Parameter (fst down) ;;
        ret (Installed (mLoraConv2d (LoraConv2d_with_weights tmp upw downw)),
             ReplaceState (snd down) (snd x))
  | _ => raise AttributeError
  end.

(** [monkeypatch_or_replace_lora_extended(model, loras,
    target_replace_module, r)]: the changed model and what is left of the
    two lists.  A plain layer that is its own ancestor and is replaced
    takes the run out of the trees modelled here. *)
Definition monkeypatch_or_replace_lora_extended (model : module)
    (loras : list tensor) (target_replace_module : option (list string))
    (r : rank_arg) : M (module * replace_state) :=
  let target := default DEFAULT_TARGET_REPLACE target_replace_module in
  for_find_modules (Some target)
    [cLinear; cLoraInjectedLinear; cConv2d; cLoraInjectedConv2d]
    replace_extended_body OutsideModel model (ReplaceState loras r).

(** ** Forward pass of a model

    What a container computes from its children is its own business:
    [sem cls children] is the forward function of a container of class
    [cls], given the forward functions of its children. *)

Definition layer_fn : Type := tensor -> result tensor.

Fixpoint forward (sem : string -> list (string * layer_fn) -> layer_fn)
    (mask : Q -> nat -> Z) (m : module) : layer_fn :=
  match m with
  | mLinear l => Linear_forward l
  | mConv2d c => Conv2d_forward c
  | mDropout d => fun x => Ok (Dropout_forward mask d x)
  | mLoraLinear l => LoraInjectedLinear_forward mask l
  | mLoraConv2d l => LoraInjectedConv2d_forward mask l
  | mOther cls children =>
      sem cls (map (fun nc => (fst nc, forward sem mask (snd nc))) children)
  end.

(** Evaluation mode: dropout is the identity. *)
Definition eval_mask : Q -> nat -> Z := fun _ _ => 1%Z.

(** ** Strings of the Python side *)

(** [s.split(sep)] for a one-character separator. *)
Fixpoint split_char (sep : ascii) (s : string) : list string :=
  match s with
  | EmptyString => [EmptyString]
  | String a s' =>
      if Ascii.eqb a sep then EmptyString :: split_char sep s'
      else
        match split_char sep s' with
        | h :: t => String a h :: t
        | [] => [String a EmptyString]
        end
  end.

(** [c in s] for a character. *)
Fixpoint has_char (c : ascii) (s : string) : bool :=
  match s with
  | EmptyString => false
  | String a s' => Ascii.eqb a c || has_char c s'
  end.

(** [str(z)] for an integer. *)
Definition py_str (z : Z) : string :=
  DecimalString.NilZero.string_of_int (Z.to_int z).

(** [s.replace(old, new)] for a non-empty [old]; [skip] counts the
    characters of a match still to be dropped. *)
Fixpoint replace_from (old new : string) (skip : nat) (s : string) : string :=
  match s with
  | EmptyString => EmptyString
  | String a s' =>
      match skip with
      | S k => replace_from old new k s'
      | 0 =>
          if String.prefix old s
          then new +:+ replace_from old new (String.length old - 1) s'
          else String a (replace_from old new 0 s')
      end
  end.

Definition str_replace (old new s : string) : string := replace_from old new 0 s.

(** [l[i] = v] on a Python list, negative indices counting from the end. *)
Definition py_setitem {A} (l : list A) (i : Z) (v : A) : result (list A) :=
  let n := Z.of_nat (length l) in
  if ((0 <=? i) && (i <? n))%Z then Ok (<[Z.to_nat i := v]> l)
  else if ((- n <=? i) && (i <? 0))%Z then Ok (<[Z.to_nat (n + i) := v]> l)
  else Raise IndexError.

(** The values of [json]. *)
Inductive json :=
| JNull
| JBool (b : bool)
| JNumber (literal : string)
| JString (s : string)
| JArray (items : list json)
| JObject (members : list (string * json)).

(** The library functions whose whole behaviour is not spelled out here:
    [json.dumps] on a list of strings, [json.loads], and [int] on a
    string ([None] stands for the [ValueError] they raise). *)
Record builtins := Builtins {
  json_dumps : list string -> string;
  json_loads : string -> option json;
  int_of_str : string -> option Z }.

(** What is used of them: text written by [json.dumps] starts with a
    bracket and is read back by [json.loads]; [int] reads back what [str]
    prints. *)
Record builtins_ok (py : builtins) : Prop := BuiltinsOk {
  loads_dumps : forall l, json_loads py (json_dumps py l) = Some (JArray (map JString l));
  dumps_bracket : forall l, exists s, json_dumps py l = String "[" s;
  int_str : forall z, int_of_str py (py_str z) = Some z }.

(** ** The self-describing container *)

(** What [safe_save(weights, outpath, metadata)] writes. *)
Record safetensors_file := SafeFile {
  f_path : string;
  f_tensors : gmap string tensor;
  f_metadata : gmap string string }.

(** What [safe_open] gives: [keys()] in the order of the file,
    [get_tensor], and [metadata()], which is [None] for a file without
    metadata. *)
Record safe_handle := SafeHandle {
  h_keys : list string;
  h_tensors : gmap string tensor;
  h_metadata : option (gmap string string) }.

(** [h] is an opened [f]: the same tensors and metadata, the keys in any
    order. *)
Definition opens (f : safetensors_file) (h : safe_handle) : Prop :=
  h_tensors h = f_tensors f
  /\ h_metadata h = Some (f_metadata f)
  /\ h_keys h ≡ₚ map fst (map_to_list (f_tensors f)).

(** The argument [modelmap]: a dictionary
    [{name: (model, target_replace_module)}] in insertion order, or, as
    [save_lora_weight] passes it, a list of tensors. *)
Inductive modelmap_arg :=
| ModelMap (items : list (string * (module * list string)))
| NotAMap (weights : list tensor).

Fixpoint foldR {A B} (f : B -> A -> result B) (l : list A) (b : B) : result B :=
  match l with
  | [] => Ok b
  | a :: l' => b' <~ f b a ;; foldR f l' b'
  end.

Definition lora_key (name : string) (i : Z) (what : string) : string :=
  name +:+ ":" +:+ py_str i +:+ ":" +:+ what.

Section Container.
Variable py : builtins.

(** One turn of the inner loop of [save_safeloras_with_embeds]. *)
Definition save_layer (name : string)
    (wm : gmap string tensor * gmap string string)
    (ix : nat * (module * module))
  : result (gmap string tensor * gmap string string) :=
  let i := Z.of_nat (fst ix) in
  let up := fst (snd ix) in
  let down := snd (snd ix) in
  rank <~ rank_of down ;;
  let metadata := <[lora_key name i "rank" := py_str (Z.of_nat rank)]> (snd wm) in
  upw <~ weight_of up ;;
  downw <~ weight_of down ;;
  Ok (<[lora_key name i "down" := pdata downw]>
        (<[lora_key name i "up" := pdata upw]> (fst wm)),
      metadata).

(** One turn of its outer loop. *)
Definition save_component (wm : gmap string tensor * gmap string string)
    (item : string * (module * list string))
  : result (gmap string tensor * gmap string string) :=
  let name := fst item in
  let model := fst (snd item) in
  let target_replace_module := snd (snd item) in
  let metadata := <[name := json_dumps py target_replace_module]> (snd wm) in
  loras <~ extract_lora_ups_down model (Some target_replace_module) ;;
  foldR (save_layer name) (imap (fun i ud => (i, ud)) loras) (fst wm, metadata).

Definition save_embed (wm : gmap string tensor * gmap string string)
    (item : string * tensor) : gmap string tensor * gmap string string :=
  (<[fst item := snd item]> (fst wm), <[fst item := EMBED_FLAG]> (snd wm)).

(** [save_safeloras_with_embeds(modelmap, embeds, outpath)] *)
Definition save_safeloras_with_embeds (modelmap : option modelmap_arg)
    (embeds : option (list (string * tensor))) (outpath : string)
  : result safetensors_file :=
  let embeds := default [] embeds in
  let modelmap := default (ModelMap []) modelmap in
  match modelmap with
  | NotAMap _ => Raise AttributeError
  | ModelMap items =>
      wm <~ foldR save_component items (∅, ∅) ;;
      let wm' := foldl save_embed wm embeds in
      Ok (SafeFile outpath (fst wm') (snd wm'))
  end.

(** [save_safeloras(modelmap, outpath)] *)
Definition save_safeloras (modelmap : option modelmap_arg) (outpath : string)
  : result safetensors_file :=
  let modelmap := default (ModelMap []) modelmap in
  save_safeloras_with_embeds (Some modelmap) None outpath.

(** What [save_lora_weight] leaves on disk. *)
Inductive written :=
| TorchSave (path : string) (weights : list tensor)
| SafeSave (f : safetensors_file).

(** [save_lora_weight(model, path, target_replace_module, save_safetensors)] *)
Definition save_lora_weight (model : module) (path : string)
    (target_replace_module : option (list string)) (save_safetensors : bool)
  : result written :=
  let target := default DEFAULT_TARGET_REPLACE target_replace_module in
  loras <~ extract_lora_ups_down model (Some target) ;;
  weights <~ foldR (fun weights ud =>
                      up <~ weight_of (fst ud) ;;
                      down <~ weight_of (snd ud) ;;
                      Ok (weights ++ [pdata up; pdata down]))
               loras [] ;;
  if save_safetensors then
    let path := str_replace ".pt" ".safetensors" path in
    f <~ save_safeloras (Some (NotAMap weights)) path ;;
    Ok (SafeSave f)
  else Ok (TorchSave path weights).

(** [get_name = lambda k: k.split(":")[0]] *)
Definition get_name (k : string) : string := hd EmptyString (split_char ":" k).

(** [keys.sort(key=get_name)]: a stable sort. *)
Fixpoint insert_by_name (k : string) (l : list string) : list string :=
  match l with
  | [] => [k]
  | k' :: l' =>
      if String.leb (get_name k) (get_name k') then k :: l
      else k' :: insert_by_name k l'
  end.

Definition sort_by_name (keys : list string) : list string :=
  foldr insert_by_name [] keys.

(** [groupby(keys, get_name)] *)
Fixpoint groupby_name (keys : list string) : list (string * list string) :=
  match keys with
  | [] => []
  | k :: keys' =>
      match groupby_name keys' with
      | (n, g) :: rest =>
          if String.eqb (get_name k) n then (n, k :: g) :: rest
          else (get_name k, [k]) :: (n, g) :: rest
      | [] => [(get_name k, [k])]
      end
  end.

Definition of_option {A} (o : option A) (e : exn) : result A :=
  match o with Some a => Ok a | None => Raise e end.

(** [metadata.get(k)], [metadata[k]] and [safeloras.get_tensor(k)] *)
Definition metadata_get (h : safe_handle) (k : string) : result (option string) :=
  match h_metadata h with
  | Some md => Ok (md !! k)
  | None => Raise AttributeError
  end.

Definition metadata_item (h : safe_handle) (k : string) : result string :=
  match h_metadata h with
  | Some md => of_option (md !! k) KeyError
  | None => Raise AttributeError
  end.

Definition get_tensor (h : safe_handle) (k : string) : result tensor :=
  of_option (h_tensors h !! k) KeyError.

(** One turn of the inner loop of [parse_safeloras]. *)
Definition parse_key (h : safe_handle) (name : string)
    (rw : list Z * list (option tensor)) (key : string)
  : result (list Z * list (option tensor)) :=
  match split_char ":" key with
  | [_; idx; direction] =>
      idx <~ of_option (int_of_str py idx) (ValueError BadInt) ;;
      rank <~ metadata_item h (lora_key name idx "rank") ;;
      rank <~ of_option (int_of_str py rank) (ValueError BadInt) ;;
      ranks <~ py_setitem (fst rw) idx rank ;;
      let idx := (idx * 2 + (if String.eqb direction "down" then 1 else 0))%Z in
      t <~ get_tensor h key ;;
      weights <~ py_setitem (snd rw) idx (Some t) ;;
      Ok (ranks, weights)
  | _ => Raise (ValueError BadUnpack)
  end.

(** One turn of its outer loop. *)
Definition parse_group (h : safe_handle)
    (loras : gmap string (list (option tensor) * list Z * json))
    (group : string * list string)
  : result (gmap string (list (option tensor) * list Z * json)) :=
  let name := fst group in
  let module_keys := snd group in
  info <~ metadata_get h name ;;
  match info with
  | None => Raise (ValueError NoMetadata)
  | Some info =>
      if String.eqb info EmptyString then Raise (ValueError NoMetadata)
      else if String.eqb info EMBED_FLAG then Ok loras
      else
        target <~ of_option (json_loads py info) (ValueError BadJson) ;;
        rw <~ foldR (parse_key h name) module_keys
                (replicate (length module_keys / 2) 4%Z,
                 replicate (length module_keys) None) ;;
        Ok (<[name := (snd rw, fst rw, target)]> loras)
  end.

(** [parse_safeloras(safeloras)]: for every component its weights
    (up, down, up, down, ...), its ranks and its target. *)
Definition parse_safeloras (safeloras : safe_handle)
  : result (gmap string (list (option tensor) * list Z * json)) :=
  foldR (parse_group safeloras)
    (groupby_name (sort_by_name (h_keys safeloras))) ∅.

(** [parse_safeloras_embeds(safeloras)] *)
Definition parse_safeloras_embeds (safeloras : safe_handle)
  : result (gmap string tensor) :=
  foldR (fun embeds key =>
           meta <~ metadata_get safeloras key ;;
           match meta with
           | Some meta =>
               if String.eqb meta EmptyString || negb (String.eqb meta EMBED_FLAG)
               then Ok embeds
               else t <~ get_tensor safeloras key ;; Ok (<[key := t]> embeds)
           | None => Ok embeds
           end)
    (h_keys safeloras) ∅.

End Container.

(** ** An instance of the builtins

    [int] restricted to plain decimal literals, and JSON restricted to
    arrays of strings in which only the quote and the backslash are
    escaped.  They serve where a concrete run is evaluated. *)

Definition int_of_decimal (s : string) : option Z :=
  option_map Z.of_int (DecimalString.NilZero.int_of_string s).

Definition dquote : ascii := ascii_of_nat 34.
Definition backslash : ascii := ascii_of_nat 92.

Fixpoint json_escape (s : string) : string :=
  match s with
  | EmptyString => EmptyString
  | String c s' =>
      if Ascii.eqb c dquote || Ascii.eqb c backslash
      then String backslash (String c (json_escape s'))
      else String c (json_escape s')
  end.

Definition json_quote (s : string) : string :=
  String dquote (json_escape s +:+ String dquote EmptyString).

Fixpoint json_items (l : list string) : string :=
  match l with
  | [] => EmptyString
  | [s] => json_quote s
  | s :: l' => json_quote s +:+ ", " +:+ json_items l'
  end.

Definition dumps_strings (l : list string) : string :=
  String "[" (json_items l +:+ "]").

Inductive jstate :=
| JStart
| JOpen
| JIn (items : list string) (acc : string)
| JEsc (items : list string) (acc : string)
| JAfter (items : list string)
| JComma (items : list string)
| JSpace (items : list string)
| JDone (items : list string)
| JFail.

Definition jstep (st : jstate) (c : ascii) : jstate :=
  match st with
  | JStart => if Ascii.eqb c "[" then JOpen else JFail
  | JOpen =>
      if Ascii.eqb c "]" then JDone []
      else if Ascii.eqb c dquote then JIn [] EmptyString
      else JFail
  | JIn items acc =>
      if Ascii.eqb c dquote then JAfter (items ++ [acc])
      else if Ascii.eqb c backslash then JEsc items acc
      else JIn items (acc +:+ String c EmptyString)
  | JEsc items acc =>
      if Ascii.eqb c dquote || Ascii.eqb c backslash
      then JIn items (acc +:+ String c EmptyString)
      else JFail
  | JAfter items =>
      if Ascii.eqb c "," then JComma items
      else if Ascii.eqb c "]" then JDone items
      else JFail
  | JComma items => if Ascii.eqb c " " then JSpace items else JFail
  | JSpace items => if Ascii.eqb c dquote then JIn items EmptyString else JFail
  | JDone _ => JFail
  | JFail => JFail
  end.

Fixpoint jrun (st : jstate) (s : string) : jstate :=
  match s with
  | EmptyString => st
  | String c s' => jrun (jstep st c) s'
  end.

Definition loads_strings (s : string) : option json :=
  match jrun JStart s with
  | JDone items => Some (JArray (map JString items))
  | _ => None
  end.

Definition plain_builtins : builtins :=
  Builtins dumps_strings loads_strings int_of_decimal.

(** ** A small model on which the definitions are run *)

Definition ex_world : world := World 1000 (fun d i => Z.of_nat (d + i)).

Definition ex_linear (id : nat) : Linear.t :=
  Linear.Make 2 2 (mkParameter id (Tensor [2; 2] [1; 2; 3; 4]%Z) true)
    (Some (mkParameter (S id) (Tensor [2] [5; 6]%Z) true)).

Definition ex_model : module :=
  mOther "UNet"
    [("attn", mOther "Attention"
                [("to_q", mLinear (ex_linear 100));
                 ("drop", mDropout (Dropout.Make default_dropout_p))]);
     ("proj", mLinear (ex_linear 102))].

Definition ex_injected : module :=
  match inject_trainable_lora ex_model None 1 None ex_world with
  | Ok (m, _, _) => m
  | Raise _ => ex_model
  end.

Definition ex_kernel : tensor := Tensor [1; 1; 1; 1] [7%Z].



Definition ex_conv (ci co g id : nat) (weights : list Z) : Conv2d.t :=
  Conv2d.Make ci co (1, 1) (1, 1) (0, 0) (1, 1) g
    (mkParameter id (Tensor [co; ci / g; 1; 1] weights) true) None.

(** A convolutional augmented layer over two groups. *)
Definition ex_lora_conv : LoraInjectedConv2d.t :=
  LoraInjectedConv2d.Make (ex_conv 2 2 2 300 [1; 1]%Z) (ex_conv 2 2 2 301 [1; 1]%Z)
    (Dropout.Make default_dropout_p) (ex_conv 2 2 1 302 [1; 1; 1; 1]%Z) 1%Z.

(** A convolutional augmented layer over one group, of rank one. *)
Definition ex_lora_pointwise : LoraInjectedConv2d.t :=
  LoraInjectedConv2d.Make (ex_conv 2 2 1 310 [1; 2; 3; 4]%Z) (ex_conv 2 1 1 311 [1; 1]%Z)
    (Dropout.Make default_dropout_p) (ex_conv 1 2 1 312 [2; 3]%Z) 1%Z.

Definition ex_image : tensor := Tensor [2; 1; 1] [1; 10]%Z.

(** A block holding that layer. *)
Definition ex_resnet : module :=
  mOther "ResnetBlock2D" [("conv1", mLoraConv2d ex_lora_conv)].

(** The file as [safe_open] gives it when the keys come in the order
    of the dictionary. *)
Definition open_file (f : safetensors_file) : safe_handle :=
  SafeHandle (map fst (map_to_list (f_tensors f))) (f_tensors f)
    (Some (f_metadata f)).

(** A bundle of one component and one embed, and the file written for
    it. *)
Definition ex_items : list (string * (module * list string)) :=
  [("unet", (ex_injected, DEFAULT_TARGET_REPLACE))].

Definition ex_embeds : list (string * tensor) :=
  [("<s1>", Tensor [2] [3; 4]%Z)].

Definition ex_file : safetensors_file :=
  match save_safeloras_with_embeds plain_builtins (Some (ModelMap ex_items))
          (Some ex_embeds) "./lora.safetensors" with
  | Ok f => f
  | Raise _ => SafeFile EmptyString ∅ ∅
  end.

(** The same component under a name with a colon in it. *)
Definition ex_colon_items : list (string * (module * list string)) :=
  [("text:encoder", (ex_injected, DEFAULT_TARGET_REPLACE))].

Definition ex_colon_file : safetensors_file :=
  match save_safeloras_with_embeds plain_builtins (Some (ModelMap ex_colon_items))
          (Some []) "./lora.safetensors" with
  | Ok f => f
  | Raise _ => SafeFile EmptyString ∅ ∅
  end.

(** A file whose tensors of [unet] come without the record of their
    component. *)
Definition ex_orphan : safe_handle :=
  SafeHandle ["text:0:up"; "unet:0:up"; "unet:0:down"; "text:0:down"]
    (<["unet:0:up" := Tensor [2; 1] [2; 3]%Z]>
       (<["unet:0:down" := Tensor [1; 2] [1; 1]%Z]>
          (<["text:0:up" := Tensor [2; 1] [4; 5]%Z]>
             (<["text:0:down" := Tensor [1; 2] [6; 7]%Z]> ∅))))
    (Some (<["unet:0:rank" := "1"]>
             (<["text:0:rank" := "1"]> (<["text" := "[]"]> ∅)))).

Definition value_or {A} (r : result A) (d : A) : A :=
  match r with Ok a => a | Raise _ => d end.

(** ** Vocabulary of the statements *)

(** A pair of plain layers of one kind, as [extract_lora_ups_down]
    returns them. *)
Definition is_plain_pair (ud : module * module) : Prop :=
  (exists u d, ud = (mLinear u, mLinear d)) \/ (exists u d, ud = (mConv2d u, mConv2d d)).

(** [_modules] is a dictionary: the children of a container bear
    different names. *)
Fixpoint unique_names (m : module) : Prop :=
  match m with
  | mOther _ children =>
      NoDup (map fst children)
      /\ (fix all (l : list (string * module)) : Prop :=
            match l with
            | [] => True
            | nc :: l' => unique_names (snd nc) /\ all l'
            end) children
  | _ => True
  end.


Definition conv_wf (c : Conv2d.t) : Prop :=
  shape (pdata (Conv2d.weight c))
  = [Conv2d.out_channels c; Conv2d.in_channels c / Conv2d.groups c;
     fst (Conv2d.kernel_size c); snd (Conv2d.kernel_size c)].


(** An augmented convolutional layer as its constructor builds it and
    training or loaded weights keep it: [lora_down] is a copy of the base
    convolution with [r] output channels and no bias, [lora_up] a
    pointwise convolution from [r] channels without bias. *)
Definition lora_conv_wf (l : LoraInjectedConv2d.t) : Prop :=
  let conv := LoraInjectedConv2d.conv l in
  let up := LoraInjectedConv2d.lora_up l in
  let down := LoraInjectedConv2d.lora_down l in
  exists r,
    conv_wf conv
    /\ tensor_wf (pdata (Conv2d.weight conv))
    /\ shape (pdata (Conv2d.weight down))
       = [r; Conv2d.in_channels conv / Conv2d.groups conv;
          fst (Conv2d.kernel_size conv); snd (Conv2d.kernel_size conv)]
    /\ Conv2d.stride down = Conv2d.stride conv
    /\ Conv2d.padding down = Conv2d.padding conv
    /\ Conv2d.dilation down = Conv2d.dilation conv
    /\ Conv2d.groups down = Conv2d.groups conv
    /\ Conv2d.bias down = None
    /\ shape (pdata (Conv2d.weight up)) = [Conv2d.out_channels conv; r; 1; 1]
    /\ Conv2d.stride up = (1, 1) /\ Conv2d.padding up = (0, 0)
    /\ Conv2d.dilation up = (1, 1) /\ Conv2d.groups up = 1
    /\ Conv2d.bias up = None.


(** [wraps m m']: [m'] is an augmented layer around the plain layer [m],
    holding the very parameters of [m] as its base. *)
Definition wraps (m m' : module) : Prop :=
  match m, m' with
  | mLinear src, mLoraLinear l => LoraInjectedLinear.linear l = src
  | mConv2d src, mLoraConv2d l => LoraInjectedConv2d.conv l = src
  | _, _ => False
  end.

(** The correction of a layer that has just been constructed with rank
    [r] around [src]. *)
Definition fresh_linear (r : nat) (src : Linear.t) (l : LoraInjectedLinear.t) : Prop :=
  pdata (Linear.weight (LoraInjectedLinear.lora_up l))
  = full [Linear.out_features src; r] 0%Z
  /\ shape (pdata (Linear.weight (LoraInjectedLinear.lora_down l)))
     = [r; Linear.in_features src]
  /\ Linear.bias (LoraInjectedLinear.lora_up l) = None
  /\ Linear.bias (LoraInjectedLinear.lora_down l) = None.

Definition fresh_conv (r : nat) (src : Conv2d.t) (l : LoraInjectedConv2d.t) : Prop :=
  let up := LoraInjectedConv2d.lora_up l in
  let down := LoraInjectedConv2d.lora_down l in
  pdata (Conv2d.weight up) = full [Conv2d.out_channels src; r; 1; 1] 0%Z
  /\ Conv2d.stride up = (1, 1) /\ Conv2d.padding up = (0, 0)
  /\ Conv2d.dilation up = (1, 1) /\ Conv2d.groups up = 1
  /\ Conv2d.bias up = None
  /\ shape (pdata (Conv2d.weight down))
     = [r; Conv2d.in_channels src / Conv2d.groups src;
        fst (Conv2d.kernel_size src); snd (Conv2d.kernel_size src)]
  /\ Conv2d.stride down = Conv2d.stride src
  /\ Conv2d.padding down = Conv2d.padding src
  /\ Conv2d.dilation down = Conv2d.dilation src
  /\ Conv2d.groups down = Conv2d.groups src
  /\ Conv2d.bias down = None
  /\ r mod Conv2d.groups src = 0.

Definition wraps_fresh (r : nat) (m m' : module) : Prop :=
  match m, m' with
  | mLinear src, mLoraLinear l =>
      LoraInjectedLinear.linear l = src /\ fresh_linear r src l
  | mConv2d src, mLoraConv2d l =>
      LoraInjectedConv2d.conv l = src /\ fresh_conv r src l
  | _, _ => False
  end.

Section Injected.
Variable ancestor_class : option (list string).
Variable search_class : list layer_class.
Variable Wrap : module -> module -> Prop.

(** Nothing left to wrap: no layer of [search_class] is the child of a
    container. *)
Fixpoint settled (m : module) : bool :=
  if isinstance_any m search_class then false
  else
    match m with
    | mOther _ children => forallb (fun nc => settled (snd nc)) children
    | _ => true
    end.

(** No module that is an ancestor is itself of [search_class]. *)
Definition calm (m : module) : Prop :=
  forall p a, In (p, a) (named_modules m) ->
    is_ancestor ancestor_class a = true -> isinstance_any a search_class = false.

(** [injected under m m']: [m'] is [m] in which the layers of
    [search_class] that lie, through containers only, below an ancestor
    have been wrapped, and nothing else has changed.  [under] tells
    whether [m] itself lies below an ancestor. *)
Inductive injected : bool -> module -> module -> Prop :=
| injected_wrap m m' :
    isinstance_any m search_class = true -> Wrap m m' -> injected true m m'
| injected_same under m :
    (under = true -> isinstance_any m search_class = false) ->
    (forall cls children, m <> mOther cls children) ->
    injected under m m
| injected_container under cls children children' :
    Forall2 (fun nc nc' =>
               fst nc = fst nc'
               /\ injected (under || is_ancestor ancestor_class (mOther cls children))
                    (snd nc) (snd nc'))
      children children' ->
    injected under (mOther cls children) (mOther cls children').


End Injected.

(** What [save_safeloras_with_embeds] takes from one pair of layers: the
    weight of [up], the weight of [down], and the rank. *)
Definition layer_content (ud : module * module) : result (tensor * tensor * nat) :=
  rank <~ rank_of (snd ud) ;;
  upw <~ weight_of (fst ud) ;;
  downw <~ weight_of (snd ud) ;;
  Ok (pdata upw, pdata downw, rank).

(** The layers of one component of a bundle, in the order of
    [extract_lora_ups_down]. *)
Definition component_content (model : module) (target : list string)
  : result (list (tensor * tensor * nat)) :=
  loras <~ extract_lora_ups_down model (Some target) ;;
  mapR layer_content loras.

(** The same component as [parse_safeloras] is to give it back: the
    weights (up, down, up, down, ...), the ranks, the target. *)
Definition read_weights (layers : list (tensor * tensor * nat)) : list (option tensor) :=
  flat_map (fun l => [Some (fst (fst l)); Some (snd (fst l))]) layers.

Definition read_ranks (layers : list (tensor * tensor * nat)) : list Z :=
  map (fun l => Z.of_nat (snd l)) layers.

Definition read_back (target : list string) (layers : list (tensor * tensor * nat))
  : list (option tensor) * list Z * json :=
  (read_weights layers, read_ranks layers, JArray (map JString target)).

(** [c] is the component that [save_safeloras_with_embeds] makes of an
    item of [modelmap]. *)
Definition component_of (item : string * (module * list string))
    (c : string * (list string * list (tensor * tensor * nat))) : Prop :=
  fst c = fst item
  /\ fst (snd c) = snd (snd item)
  /\ component_content (fst (snd item)) (snd (snd item)) = Ok (snd (snd c)).

(** [d[k] = v] for an entry [(k, v)]. *)
Definition put {V} (m : gmap string V) (e : string * V) : gmap string V :=
  <[fst e := snd e]> m.

(** The tensor keys of a component of [n] layers, counted from [i]. *)
Fixpoint layer_keys (name : string) (i n : nat) : list string :=
  match n with
  | 0 => []
  | S n' =>
      lora_key name (Z.of_nat i) "up" :: lora_key name (Z.of_nat i) "down"
      :: layer_keys name (S i) n'
  end.

(** Where [parse_safeloras] puts the tensor of a key: [idx * 2], plus one
    for [down]. *)
Definition slot (i : nat) (direction : string) : nat :=
  2 * i + (if String.eqb direction "down" then 1 else 0).

(** The tensors and the metadata of a file, entry by entry in the order
    they are written, for components given by name, target and layers. *)
Fixpoint tensor_entries (name : string) (i : nat) (layers : list (tensor * tensor * nat))
  : list (string * tensor) :=
  match layers with
  | [] => []
  | l :: layers' =>
      (lora_key name (Z.of_nat i) "up", fst (fst l))
      :: (lora_key name (Z.of_nat i) "down", snd (fst l))
      :: tensor_entries name (S i) layers'
  end.

Fixpoint rank_entries (name : string) (i : nat) (layers : list (tensor * tensor * nat))
  : list (string * string) :=
  match layers with
  | [] => []
  | l :: layers' =>
      (lora_key name (Z.of_nat i) "rank", py_str (Z.of_nat (snd l)))
      :: rank_entries name (S i) layers'
  end.

Definition file_tensors (comps : list (string * (list string * list (tensor * tensor * nat))))
    (embeds : list (string * tensor)) : list (string * tensor) :=
  flat_map (fun c => tensor_entries (fst c) 0 (snd (snd c))) comps ++ embeds.

Definition file_metadata (py : builtins)
    (comps : list (string * (list string * list (tensor * tensor * nat))))
    (embeds : list (string * tensor)) : list (string * string) :=
  flat_map (fun c => (fst c, json_dumps py (fst (snd c)))
                     :: rank_entries (fst c) 0 (snd (snd c))) comps
  ++ map (fun e => (fst e, EMBED_FLAG)) embeds.

(** The order in which [sort(key=get_name)] leaves the keys. *)
Definition name_le (a b : string) : Prop :=
  String.leb (get_name a) (get_name b) = true.



(** An instance: the children are applied one after the other. *)
Fixpoint sequential (fs : list (string * layer_fn)) (x : tensor) : result tensor :=
  match fs with
  | [] => Ok x
  | f :: fs' => y <~ snd f x ;; sequential fs' y
  end.

(** ** Vocabulary of the statements on whole models *)

(** The model without its corrections: every augmented layer gives way
    to its base layer. *)
Fixpoint strip (m : module) : module :=
  match m with
  | mLoraLinear l => mLinear (LoraInjectedLinear.linear l)
  | mLoraConv2d l => mConv2d (LoraInjectedConv2d.conv l)
  | mOther cls children =>
      mOther cls (map (fun nc => (fst nc, strip (snd nc))) children)
  | _ => m
  end.

(** The same below the root only: the root is no entry of a [_modules]
    in which it could give way. *)
Definition strip_children (m : module) : module :=
  match m with
  | mOther cls children =>
      mOther cls (map (fun nc => (fst nc, strip (snd nc))) children)
  | _ => m
  end.

(** The attributes of a convolution are arguments [nn.Conv2d] accepts. *)
Definition conv_args_ok (c : Conv2d.t) : bool :=
  negb (Conv2d.groups c =? 0)
  && (Conv2d.in_channels c mod Conv2d.groups c =? 0)
  && (Conv2d.out_channels c mod Conv2d.groups c =? 0).

(** They are so for the base of every augmented convolution of [m]. *)
Fixpoint bases_ok (m : module) : bool :=
  match m with
  | mLoraConv2d l => conv_args_ok (LoraInjectedConv2d.conv l)
  | mOther _ children => forallb (fun nc => bases_ok (snd nc)) children
  | _ => true
  end.

Definition bases_ok_below (m : module) : bool :=
  match m with
  | mOther _ children => forallb (fun nc => bases_ok (snd nc)) children
  | _ => true
  end.

(** No augmented layer anywhere in [m]. *)
Fixpoint lora_free (m : module) : bool :=
  match m with
  | mLoraLinear _ | mLoraConv2d _ => false
  | mOther _ children => forallb (fun nc => lora_free (snd nc)) children
  | _ => true
  end.




(** What the injection functions keep true of their two lists: twice as
    many entries in [require_grad_params] as in [names], each of them one
    parameter that is to be trained. *)
Definition lists_paired (out : list (list parameter) * list string) : Prop :=
  length (fst out) = 2 * length (snd out)
  /\ Forall (fun ps => exists p, ps = [p] /\ requires_grad p = true) (fst out).

(** ** The paths of the companion files *)

(** The outcome of a function that opens with an [assert]. *)
Inductive asserted (A : Type) :=
| Asserted (a : A)
| AssertionError.
Arguments Asserted {A} a.
Arguments AssertionError {A}.

(** [s.endswith(suffix)] *)
Fixpoint endswith (s suffix : string) : bool :=
  String.eqb s suffix
  || match s with
     | EmptyString => false
     | String _ s' => endswith s' suffix
     end.

(** [_text_lora_path(path)] *)
Definition _text_lora_path (path : string) : asserted string :=
  if endswith path ".pt"
  then Asserted (String.concat "."
                   (removelast (split_char "." path) ++ ["text_encoder"; "pt"]))
  else AssertionError.

(** [_text_lora_path_ui(path)] *)
Definition _text_lora_path_ui (path : string) : asserted string :=
  if endswith path ".pt"
  then Asserted (str_replace ".pt" "_txt.pt" path)
  else AssertionError.

(** [_ti_lora_path(path)] *)
Definition _ti_lora_path (path : string) : asserted string :=
  if endswith path ".pt"
  then Asserted (String.concat "."
                   (removelast (split_char "." path) ++ ["ti"; "pt"]))
  else AssertionError.

(** ** Conversion of legacy files into a container *)

Section Convert.
Variable py : builtins.
(** [torch.load(path)] on a file that holds a list of tensors, as
    [save_lora_weight] writes it with [torch.save]. *)
Variable torch_load : string -> result (list tensor).

(** One turn of the inner loop of
    [convert_loras_to_safeloras_with_embeds]: [is_up = i % 2 == 0] and
    [i = i // 2]. *)
Definition convert_weight (name : string) (r : nat)
    (wm : gmap string tensor * gmap string string) (iw : nat * tensor)
  : gmap string tensor * gmap string string :=
  let is_up := fst iw mod 2 =? 0 in
  let i := Z.of_nat (fst iw / 2) in
  if is_up then
    (<[lora_key name i "up" := snd iw]> (fst wm),
     <[lora_key name i "rank" := py_str (Z.of_nat r)]> (snd wm))
  else (<[lora_key name i "down" := snd iw]> (fst wm), snd wm).

(** One turn of its outer loop, for an item
    [name: (path, target_replace_module, r)]. *)
Definition convert_component (wm : gmap string tensor * gmap string string)
    (item : string * (string * list string * nat))
  : result (gmap string tensor * gmap string string) :=
  let name := fst item in
  let path := fst (fst (snd item)) in
  let target_replace_module := snd (fst (snd item)) in
  let r := snd (snd item) in
  let metadata := <[name := json_dumps py target_replace_module]> (snd wm) in
  lora <~ torch_load path ;;
  Ok (foldl (convert_weight name r) (fst wm, metadata)
        (imap (fun i weight => (i, weight)) lora)).

(** [convert_loras_to_safeloras_with_embeds(modelmap, embeds, outpath)] *)
Definition convert_loras_to_safeloras_with_embeds
    (modelmap : option (list (string * (string * list string * nat))))
    (embeds : option (list (string * tensor))) (outpath : string)
  : result safetensors_file :=
  let modelmap := default [] modelmap in
  let embeds := default [] embeds in
  wm <~ foldR convert_component modelmap (∅, ∅) ;;
  let wm' := foldl save_embed wm embeds in
  Ok (SafeFile outpath (fst wm') (snd wm')).

(** [convert_loras_to_safeloras(modelmap, outpath)] *)
Definition convert_loras_to_safeloras
    (modelmap : option (list (string * (string * list string * nat))))
    (outpath : string) : result safetensors_file :=
  let modelmap := default [] modelmap in
  convert_loras_to_safeloras_with_embeds (Some modelmap) None outpath.

End Convert.

(** The layers of a legacy list (up, down, up, down, ...), each with the
    rank [r]. *)
Fixpoint pair_up (r : nat) (lora : list tensor) : list (tensor * tensor * nat) :=
  match lora with
  | up :: down :: lora' => (up, down, r) :: pair_up r lora'
  | _ => []
  end.

(** [c] is the component that [convert_loras_to_safeloras_with_embeds]
    makes of an item of [modelmap] whose file holds [lora]. *)
Definition converted_of (torch_load : string -> result (list tensor))
    (item : string * (string * list string * nat))
    (c : string * (list string * list (tensor * tensor * nat))) : Prop :=
  fst c = fst item
  /\ fst (snd c) = snd (fst (snd item))
  /\ exists lora,
       torch_load (fst (fst (snd item))) = Ok lora
       /\ snd (snd c) = pair_up (snd (snd item)) lora.

(** A legacy list that can be converted: pairs of tensors, at least one. *)
Definition paired (lora : list tensor) : bool :=
  Nat.even (length lora) && negb (length lora =? 0).

(** A legacy file of one pair of tensors, and the container made of it. *)
Definition ex_torch_load (path : string) : result (list tensor) :=
  if String.eqb path "./lora.pt"
  then Ok [Tensor [2; 1] [2; 3]%Z; Tensor [1; 2] [1; 1]%Z]
  else Raise RuntimeError.

Definition ex_legacy_items : list (string * (string * list string * nat)) :=
  [("unet", ("./lora.pt", DEFAULT_TARGET_REPLACE, 1))].

Definition ex_converted : safetensors_file :=
  match convert_loras_to_safeloras_with_embeds plain_builtins ex_torch_load
          (Some ex_legacy_items) (Some ex_embeds) "./lora.safetensors" with
  | Ok f => f
  | Raise _ => SafeFile EmptyString ∅ ∅
  end.


(** An ancestor under which the inner walk hands nothing to the body:
    an augmented layer that is itself searched for, or a module with
    nothing left to wrap. *)
Definition quiet (search : list layer_class) (a : module) : bool :=
  if isinstance_any a search then isinstance_any a default_exclude
  else settled search a.

(** All ancestors of the model are so. *)
Definition all_quiet (tags : option (list string)) (search : list layer_class)
    (m : module) : bool :=
  forallb (fun pa => negb (is_ancestor tags (snd pa)) || quiet search (snd pa))
    (named_modules m).


(** ** The dense replacement *)





(** ** Vocabulary of the statement on merging *)





(** * Properties *)

(** ** Reasoning in the monad *)

Lemma bind_Ok {A B} (c : M A) (k : A -> M B) (w : world) (r : B * world) :
  bind c k w = Ok r ->
  exists a w', c w = Ok (a, w') /\ k a w' = Ok r.
Proof.
  unfold bind. destruct (c w) as [[a w']|e]; [eauto | discriminate].
Qed.

Lemma bind_Ok_intro {A B} (c : M A) (k : A -> M B) (w w' : world) (a : A) :
  c w = Ok (a, w') -> bind c k w = k a w'.
Proof. unfold bind. now intros ->. Qed.



Lemma lift_Ok {A} (r : result A) (w : world) (x : A * world) :
  lift r w = Ok x -> r = Ok (fst x) /\ snd x = w.
Proof. unfold lift. destruct r; [intros [= <-]; auto | discriminate]. Qed.

Ltac inv_bind H :=
  let a := fresh "a" in
  let w := fresh "w" in
  let Ha := fresh "Hrun" in
  apply bind_Ok in H as (a & w & Ha & H).

Ltac inv_ret H :=
  unfold ret in H; injection H as H; subst.

(** ** Construction (C4) *)

Lemma nn_Linear_ok (i o : nat) (b : bool) (w : world) :
  exists l w', nn_Linear i o b w = Ok (l, w')
    /\ Linear.in_features l = i /\ Linear.out_features l = o
    /\ shape (pdata (Linear.weight l)) = [o; i]
    /\ is_some (Linear.bias l) = b
    /\ next_id w <= next_id w' /\ rng w' = rng w.
Proof.
  destruct b; eexists; eexists; (split; [reflexivity|]); simpl;
    repeat split; lia.
Qed.

Lemma nn_Dropout_ok (p : Q) (w : world) :
  (0 <= p)%Q -> (p <= 1)%Q -> nn_Dropout p w = Ok (Dropout.Make p, w).
Proof.
  intros H0 H1. unfold nn_Dropout.
  apply Qle_bool_iff in H0. apply Qle_bool_iff in H1.
  now rewrite H0, H1.
Qed.

Lemma nn_Conv2d_ok (i o : nat) (k s p d : nat * nat) (g : nat) (b : bool) (w : world) :
  g <> 0 -> i mod g = 0 -> o mod g = 0 ->
  exists c w', nn_Conv2d i o k s p d g b w = Ok (c, w')
    /\ shape (pdata (Conv2d.weight c)) = [o; i / g; fst k; snd k]
    /\ Conv2d.stride c = s /\ Conv2d.padding c = p /\ Conv2d.dilation c = d
    /\ Conv2d.groups c = g /\ is_some (Conv2d.bias c) = b.
Proof.
  intros Hg Hi Ho. unfold nn_Conv2d.
  destruct (Nat.eqb_spec g 0) as [|_]; [contradiction|].
  rewrite Hi, Ho. simpl.
  destruct b; eexists; eexists; (split; [reflexivity|]); simpl; repeat split.
Qed.

Lemma LoraInjectedLinear_rank_too_large (i o : nat) (b : bool) (r : nat) (p : Q)
    (w : world) :
  Nat.min i o < r ->
  LoraInjectedLinear.init i o b r p w = Raise (ValueError RankTooLarge).
Proof.
  intros H. unfold LoraInjectedLinear.init.
  destruct (Nat.ltb_spec (Nat.min i o) r); [reflexivity | lia].
Qed.

Lemma LoraInjectedConv2d_rank_too_large (i o : nat) (k s p d : nat * nat)
    (g : nat) (b : bool) (r : nat) (dp : Q) (w : world) :
  Nat.min i o < r ->
  LoraInjectedConv2d.init i o k s p d g b r dp w = Raise (ValueError RankTooLarge).
Proof.
  intros H. unfold LoraInjectedConv2d.init.
  destruct (Nat.ltb_spec (Nat.min i o) r); [reflexivity | lia].
Qed.

Lemma LoraInjectedLinear_init_ok (i o : nat) (b : bool) (r : nat) (p : Q) (w : world) :
  1 <= r <= Nat.min i o -> (0 <= p)%Q -> (p <= 1)%Q ->
  exists l w', LoraInjectedLinear.init i o b r p w = Ok (l, w').
Proof.
  intros [Hr1 Hr2] Hp0 Hp1. unfold LoraInjectedLinear.init.
  destruct (Nat.ltb_spec (Nat.min i o) r); [lia|].
  destruct (nn_Linear_ok i o b w) as (l1 & w1 & E1 & _).
  rewrite (bind_Ok_intro _ _ _ _ _ E1).
  destruct (nn_Linear_ok i r false w1) as (l2 & w2 & E2 & _).
  rewrite (bind_Ok_intro _ _ _ _ _ E2).
  rewrite (bind_Ok_intro _ _ _ _ _ (nn_Dropout_ok p w2 Hp0 Hp1)).
  destruct (nn_Linear_ok r o false w2) as (l3 & w3 & E3 & _).
  rewrite (bind_Ok_intro _ _ _ _ _ E3).
  destruct r as [|r']; [lia|]. simpl. eauto.
Qed.

Lemma LoraInjectedConv2d_init_ok (i o : nat) (k s p d : nat * nat) (g : nat)
    (b : bool) (r : nat) (dp : Q) (w : world) :
  1 <= r <= Nat.min i o -> (0 <= dp)%Q -> (dp <= 1)%Q ->
  g <> 0 -> i mod g = 0 -> o mod g = 0 -> r mod g = 0 ->
  exists l w', LoraInjectedConv2d.init i o k s p d g b r dp w = Ok (l, w').
Proof.
  intros [Hr1 Hr2] Hp0 Hp1 Hg Hi Ho Hr. unfold LoraInjectedConv2d.init.
  destruct (Nat.ltb_spec (Nat.min i o) r); [lia|].
  destruct (nn_Conv2d_ok i o k s p d g b w Hg Hi Ho) as (c1 & w1 & E1 & _).
  rewrite (bind_Ok_intro _ _ _ _ _ E1).
  destruct (nn_Conv2d_ok i r k s p d g false w1 Hg Hi Hr) as (c2 & w2 & E2 & _).
  rewrite (bind_Ok_intro _ _ _ _ _ E2).
  rewrite (bind_Ok_intro _ _ _ _ _ (nn_Dropout_ok dp w2 Hp0 Hp1)).
  destruct (nn_Conv2d_ok r o (1, 1) (1, 1) (0, 0) (1, 1) 1 false w2) as (c3 & w3 & E3 & _);
    [lia | apply Nat.mod_1_r | apply Nat.mod_1_r |].
  rewrite (bind_Ok_intro _ _ _ _ _ E3).
  destruct r as [|r']; [lia|]. simpl. eauto.
Qed.

(** C4, as the source has it.  A rank above [min(in, out)] -- so
    [min(in, out) + 1] -- is refused at once with the rank [ValueError],
    for both augmented layers.  A rank [r] with [1 <= r <= min(in, out)]
    -- so [min(in, out)] itself when it is positive -- builds the dense
    layer without error, and the convolutional one as well when the
    arguments of the convolution are those of a valid [nn.Conv2d] and
    [groups] divides [r]. *)
Theorem rank_bound_at_construction (i o : nat) (b : bool) (r : nat) (dp : Q)
    (k s p d : nat * nat) (g : nat) (w : world) :
  (0 <= dp)%Q -> (dp <= 1)%Q ->
  (Nat.min i o < r ->
     LoraInjectedLinear.init i o b r dp w = Raise (ValueError RankTooLarge)
     /\ LoraInjectedConv2d.init i o k s p d g b r dp w
        = Raise (ValueError RankTooLarge))
  /\ (1 <= r <= Nat.min i o ->
        (exists l w', LoraInjectedLinear.init i o b r dp w = Ok (l, w'))
        /\ (g <> 0 -> i mod g = 0 -> o mod g = 0 -> r mod g = 0 ->
            exists l w', LoraInjectedConv2d.init i o k s p d g b r dp w = Ok (l, w'))).
Proof.
  intros Hp0 Hp1. split.
  - intros H. split.
    + now apply LoraInjectedLinear_rank_too_large.
    + now apply LoraInjectedConv2d_rank_too_large.
  - intros H. split.
    + now apply LoraInjectedLinear_init_ok.
    + intros. now apply LoraInjectedConv2d_init_ok.
Qed.

Lemma rank_bound_at_construction_witness :
  (LoraInjectedLinear.init 4 6 true 5 default_dropout_p (World 0 (fun _ _ => 1%Z))
     = Raise (ValueError RankTooLarge)
   /\ LoraInjectedConv2d.init 4 6 (3, 3) (1, 1) (1, 1) (1, 1) 2 true 5
        default_dropout_p (World 0 (fun _ _ => 1%Z))
      = Raise (ValueError RankTooLarge))
  /\ (exists l w', LoraInjectedLinear.init 4 6 true 4 default_dropout_p
                     (World 0 (fun _ _ => 1%Z)) = Ok (l, w'))
  /\ (exists l w', LoraInjectedConv2d.init 4 6 (3, 3) (1, 1) (1, 1) (1, 1) 2 true 4
                     default_dropout_p (World 0 (fun _ _ => 1%Z)) = Ok (l, w')).
Proof.
  assert (H0 : (0 <= default_dropout_p)%Q) by (unfold Qle; simpl; lia).
  assert (H1 : (default_dropout_p <= 1)%Q) by (unfold Qle; simpl; lia).
  split; [|split].
  - apply (rank_bound_at_construction 4 6 true 5 default_dropout_p
             (3, 3) (1, 1) (1, 1) (1, 1) 2 (World 0 (fun _ _ => 1%Z)) H0 H1).
    simpl; lia.
  - apply (rank_bound_at_construction 4 6 true 4 default_dropout_p
             (3, 3) (1, 1) (1, 1) (1, 1) 2 (World 0 (fun _ _ => 1%Z)) H0 H1).
    simpl; lia.
  - apply (rank_bound_at_construction 4 6 true 4 default_dropout_p
             (3, 3) (1, 1) (1, 1) (1, 1) 2 (World 0 (fun _ _ => 1%Z)) H0 H1);
      simpl; (lia || reflexivity).
Defined.

(** C4 as written fails: rank 0 does not exceed the bound, and the
    constructor raises when it computes [std = 1 / r]. *)
Lemma rank_zero_raises :
  ~ (forall (i o : nat) (b : bool) (r : nat) (w : world),
       r <= Nat.min i o ->
       exists l w', LoraInjectedLinear.init i o b r default_dropout_p w = Ok (l, w')).
Proof.
  intros H.
  destruct (H 4 4 false 0 (World 0 (fun _ _ => 0%Z))) as (l & w' & E);
    [simpl; lia | discriminate E].
Qed.

(** ** Induction over module trees *)

Lemma module_tree_ind (P : module -> Prop) :
  (forall l, P (mLinear l)) ->
  (forall c, P (mConv2d c)) ->
  (forall d, P (mDropout d)) ->
  (forall l, P (mLoraLinear l)) ->
  (forall l, P (mLoraConv2d l)) ->
  (forall cls children,
      Forall (fun nc => P (snd nc)) children -> P (mOther cls children)) ->
  forall m, P m.
Proof.
  intros HL HC HD HLL HLC HO.
  fix IH 1. intros [l|c|d|l|l|cls children].
  - apply HL.
  - apply HC.
  - apply HD.
  - apply HLL.
  - apply HLC.
  - apply HO. induction children as [|[n c] children IHc].
    + constructor.
    + constructor; [apply IH | apply IHc].
Qed.

(** ** Forward pass and scale (C9) *)







(** ** What the locator yields *)

Lemma find_under_isinstance exclude search apath ancestor x :
  In x (find_under exclude search apath ancestor) ->
  isinstance_any (snd x) search = true.
Proof.
  unfold find_under. rewrite in_flat_map. intros ([full m] & _ & Hx).
  simpl in Hx. destruct (isinstance_any m search) eqn:E; [|contradiction].
  destruct (split_fullname full) as [path name].
  destruct (get_submodule ancestor path); [|contradiction].
  destruct (_ && _); [contradiction|].
  destruct Hx as [<-|[]]. exact E.
Qed.

Lemma find_modules_v2_eq model tags search :
  find_modules_v2 model tags (Some search) None
  = flat_map (fun am => find_under default_exclude search (fst am) (snd am))
      (ancestors model tags).
Proof. reflexivity. Qed.

Lemma find_modules_v2_isinstance model tags search exclude x :
  In x (find_modules_v2 model tags (Some search) exclude) ->
  isinstance_any (snd x) search = true.
Proof.
  unfold find_modules_v2. rewrite in_flat_map. intros (am & _ & Hx).
  eapply find_under_isinstance; eauto.
Qed.

Lemma mapR_Ok {A B} (f : A -> result B) (P : B -> Prop) (l : list A) :
  (forall a, In a l -> exists b, f a = Ok b /\ P b) ->
  exists bs, mapR f l = Ok bs /\ length bs = length l /\ Forall P bs.
Proof.
  induction l as [|a l IH]; intros H; simpl.
  - exists []. auto.
  - destruct (H a) as (b & Eb & Pb); [now left|].
    destruct IH as (bs & Ebs & Hlen & HP); [intros; apply H; now right|].
    rewrite Eb, Ebs. simpl. exists (b :: bs). simpl. auto.
Qed.

Lemma lora_up_down_Ok (m : module) :
  isinstance_any m [cLoraInjectedLinear; cLoraInjectedConv2d] = true ->
  exists ud, lora_up_down m = Ok ud /\ is_plain_pair ud.
Proof.
  destruct m; simpl; try discriminate; intros _; eexists; (split; [reflexivity|]).
  - left. eauto.
  - right. eauto.
Qed.

Lemma extract_lora_ups_down_Ok model target :
  find_modules_v2 model (Some (default DEFAULT_TARGET_REPLACE target))
    (Some [cLoraInjectedLinear; cLoraInjectedConv2d]) None <> [] ->
  exists loras, extract_lora_ups_down model target = Ok loras
    /\ loras <> [] /\ Forall is_plain_pair loras.
Proof.
  intros Hne. unfold extract_lora_ups_down, _find_modules.
  destruct (mapR_Ok (fun pnm => lora_up_down (snd pnm)) is_plain_pair
              (find_modules_v2 model (Some (default DEFAULT_TARGET_REPLACE target))
                 (Some [cLoraInjectedLinear; cLoraInjectedConv2d]) None))
    as (bs & E & Hlen & HP).
  { intros a Ha. apply lora_up_down_Ok.
    eapply find_modules_v2_isinstance; eauto. }
  rewrite E. simpl.
  destruct bs as [|b bs].
  - destruct (find_modules_v2 _ _ _ _); [contradiction | discriminate].
  - simpl. exists (b :: bs). repeat split; [discriminate | exact HP].
Qed.

Lemma legacy_weights_Ok (loras : list (module * module)) (acc : list tensor) :
  Forall is_plain_pair loras ->
  exists weights,
    foldR (fun weights ud =>
             up <~ weight_of (fst ud) ;;
             down <~ weight_of (snd ud) ;;
             Ok (weights ++ [pdata up; pdata down])) loras acc = Ok weights.
Proof.
  intros H. revert acc. induction H as [|ud loras Hud _ IH]; intros acc; simpl.
  - eauto.
  - destruct Hud as [(u & d & ->)|(u & d & ->)]; simpl; apply IH.
Qed.

(** ** The legacy entry point with [save_safetensors=True] (C10) *)

(** C10.  When the model has an augmented layer under the target set,
    [save_lora_weight(..., save_safetensors=True)] raises: the list of
    tensors it has built reaches [modelmap.items()]. *)
Theorem save_lora_weight_safetensors_raises (py : builtins) (model : module)
    (path : string) (target_replace_module : option (list string)) :
  find_modules_v2 model
    (Some (default DEFAULT_TARGET_REPLACE target_replace_module))
    (Some [cLoraInjectedLinear; cLoraInjectedConv2d]) None <> [] ->
  save_lora_weight py model path target_replace_module true = Raise AttributeError.
Proof.
  intros Hne. unfold save_lora_weight.
  destruct (extract_lora_ups_down_Ok model target_replace_module Hne)
    as (loras & E & _ & HP).
  assert (E' : extract_lora_ups_down model
                 (Some (default DEFAULT_TARGET_REPLACE target_replace_module))
               = Ok loras) by exact E.
  rewrite E'. simpl.
  destruct (legacy_weights_Ok loras [] HP) as (weights & ->).
  reflexivity.
Qed.

(** ** Shape classes in the extended replacement (C3) *)

(** C3, as the source has it.  In the loop of
    [monkeypatch_or_replace_lora_extended], when the first tensor left in
    [loras] is not of the shape class of the matched layer (not 2-D for a
    dense one, not 4-D for a convolutional one) the turn ends without an
    exception: the layer stays as it is and nothing is taken from [loras]
    or from the ranks. *)
Theorem shape_class_mismatch_is_skipped (name : string) (child : module)
    (s : replace_state) (t0 : tensor) (rest : list tensor) (w : world) :
  p_loras s = t0 :: rest ->
  (isinstance_any child [cLinear; cLoraInjectedLinear] = true
   /\ length (shape t0) <> 2)
  \/ (isinstance_any child [cConv2d; cLoraInjectedConv2d] = true
      /\ length (shape t0) <> 4) ->
  replace_extended_body name child s w = Ok (Kept child, s, w).
Proof.
  intros Hl [[Hc Hs]|[Hc Hs]];
    destruct child; simpl in Hc; try discriminate;
    unfold replace_extended_body; rewrite Hl; unfold first, bind, ret.
  all: try (destruct (Nat.eqb_spec (length (shape t0)) 2) as [E|_];
            [contradiction | reflexivity]).
  all: destruct (Nat.eqb_spec (length (shape t0)) 4) as [E|_];
         [contradiction | reflexivity].
Qed.

Lemma shape_class_mismatch_is_skipped_witness :
  replace_extended_body "to_q" (mLinear (ex_linear 100))
    (ReplaceState [ex_kernel; ex_kernel] (RankInt 1)) ex_world
  = Ok (Kept (mLinear (ex_linear 100)),
        ReplaceState [ex_kernel; ex_kernel] (RankInt 1), ex_world).
Proof.
  apply (shape_class_mismatch_is_skipped "to_q" (mLinear (ex_linear 100))
           (ReplaceState [ex_kernel; ex_kernel] (RankInt 1)) ex_kernel [ex_kernel]).
  - reflexivity.
  - left. split; [reflexivity | simpl; lia].
Defined.

(** C3 as written fails: 4-D tensors offered where the located layers are
    dense make no call fail; the call returns, with the model and both
    lists as they were. *)
Lemma shape_class_mismatch_not_fatal :
  monkeypatch_or_replace_lora_extended ex_model [ex_kernel; ex_kernel] None
    (RankInt 1) ex_world
  = Ok (ex_model, ReplaceState [ex_kernel; ex_kernel] (RankInt 1), ex_world).
Proof. reflexivity. Qed.

Lemma save_lora_weight_safetensors_raises_witness :
  save_lora_weight plain_builtins ex_injected "./lora.pt" None true
  = Raise AttributeError.
Proof.
  apply (save_lora_weight_safetensors_raises plain_builtins ex_injected
           "./lora.pt" None).
  vm_compute. discriminate.
Defined.


(** ** The walk, whatever the body *)

Lemma visit_eq {St} search (body : string -> module -> St -> M (outcome * St))
    name m s :
  visit search body name m s
  = if isinstance_any m search then
      x <- body name m s ;; ret (now_at (fst x), snd x)
    else
      match m with
      | mOther cls children =>
          x <- mapM_children (visit search body) children s ;;
          ret (mOther cls (fst x), snd x)
      | _ => ret (m, s)
      end.
Proof. destruct m; reflexivity. Qed.

Lemma walk_eq {St} tags search (body : string -> module -> St -> M (outcome * St))
    e fuel m s :
  walk tags search body e (S fuel) m s
  = (x <- (if is_ancestor tags m then as_ancestor search body e m s else ret (m, s)) ;;
     match fst x with
     | mOther cls children =>
         y <- mapM_children (fun _ => walk tags search body e fuel) children (snd x) ;;
         ret (mOther cls (fst y), snd y)
     | m1 =>
         y <- mapM_children (fun _ => walk tags search body e fuel)
                (named_children m1) (snd x) ;;
         ret (m1, snd y)
     end).
Proof. reflexivity. Qed.

Lemma mapM_children_Ok {St} (f : string -> module -> St -> M (module * St))
    (R : module -> module -> Prop) (I : St -> world -> Prop)
    (ch : list (string * module)) :
  forall s w ch' s' w',
    (forall nc, In nc ch -> forall s w c' s' w',
        I s w -> f (fst nc) (snd nc) s w = Ok (c', s', w') ->
        R (snd nc) c' /\ I s' w') ->
    I s w ->
    mapM_children f ch s w = Ok (ch', s', w') ->
    Forall2 (fun nc nc' => fst nc = fst nc' /\ R (snd nc) (snd nc')) ch ch'
    /\ I s' w'.
Proof.
  induction ch as [|[n c] ch IH]; intros s w ch' s' w' Hf HI H; simpl in H.
  - inv_ret H. split; [constructor | assumption].
  - inv_bind H. destruct a as [c1 s1]. simpl in H.
    inv_bind H. destruct a as [ch1 s2]. simpl in H. inv_ret H.
    destruct (Hf (n, c) (or_introl eq_refl) _ _ _ _ _ HI Hrun) as [HR HI1].
    destruct (IH _ _ _ _ _ (fun nc Hin => Hf nc (or_intror Hin)) HI1 Hrun0)
      as [HF HI2].
    split; [constructor; [split; [reflexivity | exact HR] | exact HF] | exact HI2].
Qed.

Lemma Forall2_children_eq (ch ch' : list (string * module)) :
  Forall2 (fun nc nc' => fst nc = fst nc' /\ snd nc = snd nc') ch ch' -> ch' = ch.
Proof.
  induction 1 as [|[n c] [n' c'] ch ch' [Hn Hc] _ IH]; [reflexivity|].
  simpl in *. now subst.
Qed.

Lemma Forall2_children_forallb (R : module -> module -> Prop) (P : module -> bool)
    (ch ch' : list (string * module)) :
  Forall (fun nc => forall m', R (snd nc) m' -> P m' = true) ch ->
  Forall2 (fun nc nc' => fst nc = fst nc' /\ R (snd nc) (snd nc')) ch ch' ->
  forallb (fun nc => P (snd nc)) ch' = true.
Proof.
  intros HP HF. induction HF as [|nc nc' ch ch' [_ HR] _ IH]; [reflexivity|].
  inversion HP; subst. simpl. apply andb_true_intro. split; auto.
Qed.

Lemma Forall2_children_In_l (R : module -> module -> Prop)
    (ch ch' : list (string * module)) (nc : string * module) :
  Forall2 (fun nc nc' => fst nc = fst nc' /\ R (snd nc) (snd nc')) ch ch' ->
  In nc ch -> exists c', In (fst nc, c') ch' /\ R (snd nc) c'.
Proof.
  induction 1 as [|x y l l' [Hn HR] _ IH]; intros Hin; [contradiction|].
  destruct Hin as [<-|Hin].
  - exists (snd y). split; [left; rewrite Hn; now destruct y | exact HR].
  - destruct (IH Hin) as (c' & Hc & HR'). exists c'. split; [now right | exact HR'].
Qed.

Lemma Forall2_children_In_r (R : module -> module -> Prop)
    (ch ch' : list (string * module)) (nc' : string * module) :
  Forall2 (fun nc nc' => fst nc = fst nc' /\ R (snd nc) (snd nc')) ch ch' ->
  In nc' ch' -> exists c, In (fst nc', c) ch /\ R c (snd nc').
Proof.
  induction 1 as [|x y l l' [Hn HR] _ IH]; intros Hin; [contradiction|].
  destruct Hin as [<-|Hin].
  - exists (snd x). split; [left; rewrite <- Hn; now destruct x | exact HR].
  - destruct (IH Hin) as (c & Hc & HR'). exists c. split; [now right | exact HR'].
Qed.

Lemma isinstance_any_container cls children (classes : list layer_class) :
  isinstance_any (mOther cls children) classes = false.
Proof. induction classes as [|a l IH]; simpl; auto. Qed.

Lemma flat_map_nil {A B} (f : A -> list B) (l : list A) :
  (forall a, In a l -> f a = []) -> flat_map f l = [].
Proof.
  induction l as [|a l IH]; intros H; simpl; [reflexivity|].
  rewrite (H a (or_introl eq_refl)), IH; [reflexivity|].
  intros; apply H; now right.
Qed.

Lemma unique_names_children cls children :
  unique_names (mOther cls children) ->
  NoDup (map fst children) /\ forall nc, In nc children -> unique_names (snd nc).
Proof.
  simpl. intros [Hnd Hall]. split; [exact Hnd|]. clear Hnd.
  induction children as [|nc children IH]; intros nc' Hin; [contradiction|].
  destruct Hall as [Hh Ht]. destruct Hin as [<-|Hin]; [exact Hh | now apply IH].
Qed.

Lemma unique_names_intro cls children :
  NoDup (map fst children) ->
  (forall nc, In nc children -> unique_names (snd nc)) ->
  unique_names (mOther cls children).
Proof.
  intros Hnd H. simpl. split; [exact Hnd|]. clear Hnd.
  induction children as [|nc children IH]; [exact I|].
  split; [apply H; now left | apply IH; intros; apply H; now right].
Qed.

Lemma lookup_child_In (ch : list (string * module)) (n : string) (c : module) :
  NoDup (map fst ch) -> In (n, c) ch -> lookup_child ch n = Some c.
Proof.
  induction ch as [|[n' c'] ch IH]; intros Hnd Hin; [contradiction|].
  simpl in Hnd. apply NoDup_cons in Hnd as [Hnotin Hnd]. simpl.
  destruct Hin as [[= -> ->]|Hin].
  - now rewrite String.eqb_refl.
  - destruct (String.eqb_spec n' n) as [->|_]; [|now apply IH].
    exfalso. apply Hnotin, list_elem_of_In, in_map_iff. now exists (n, c).
Qed.

Lemma named_modules_nil_path (m d : module) :
  In ([], d) (named_modules m) -> d = m.
Proof.
  destruct m; simpl; intros [[= <-]|Hin]; try reflexivity; exfalso.
  1-3: contradiction.
  1-2: repeat (destruct Hin as [Hin|Hin]; [discriminate|]); contradiction.
  apply in_flat_map in Hin as (nc & _ & Hin). unfold prefix_paths in Hin.
  apply in_map_iff in Hin as (pm & Hpm & _). discriminate.
Qed.

Lemma Forall2_children_names (R : module -> module -> Prop)
    (ch ch' : list (string * module)) :
  Forall2 (fun nc nc' => fst nc = fst nc' /\ R (snd nc) (snd nc')) ch ch' ->
  map fst ch = map fst ch'.
Proof. induction 1 as [|x y l l' [Hn _] _ IH]; simpl; congruence. Qed.

Lemma calm_child tags search cls children nc :
  calm tags search (mOther cls children) -> In nc children ->
  calm tags search (snd nc).
Proof.
  intros H Hin p a Hpa. apply (H (fst nc :: p)). simpl. right.
  apply in_flat_map. exists nc. split; [exact Hin|].
  unfold prefix_paths. apply in_map_iff. now exists (p, a).
Qed.




Lemma named_modules_get (m : module) :
  unique_names m ->
  forall p a, In (p, a) (named_modules m) ->
    get_submodule m p = Some a /\ unique_names a.
Proof.
  induction m as [l|c|d|l|l|cls children IH] using module_tree_ind;
    intros Hu p a Hin.
  1-5: simpl in Hin;
    repeat (destruct Hin as [[= <- <-]|Hin]; [split; [reflexivity | exact I]|]);
    contradiction.
  simpl in Hin. destruct Hin as [[= <- <-]|Hin]; [split; [reflexivity | exact Hu]|].
  apply in_flat_map in Hin as ([n c] & Hnc & Hin).
  unfold prefix_paths in Hin. simpl in Hin.
  apply in_map_iff in Hin as ([p' a'] & [= <- <-] & Hin).
  destruct (unique_names_children _ _ Hu) as [Hnd Huc].
  rewrite List.Forall_forall in IH.
  destruct (IH (n, c) Hnc (Huc _ Hnc) _ _ Hin) as [Hget Hua].
  split; [|exact Hua].
  cbn [get_submodule named_children]. now rewrite (lookup_child_In _ _ _ Hnd Hnc).
Qed.


Section WalkSpec.
Context {St : Type}.
Variable tags : option (list string).
Variable search : list layer_class.
Variable body : string -> module -> St -> M (outcome * St).
Variable self_install : exn.
Variable Wrap : module -> module -> Prop.
Variable Inv : St -> Prop.

Hypothesis search_plain : forall m,
  isinstance_any m search = true ->
  named_children m = [] /\ isinstance_any m default_exclude = false.
Hypothesis body_installs : forall n m s w o s' w',
  isinstance_any m search = true ->
  body n m s w = Ok (o, s', w') -> exists m', o = Installed m'.
Hypothesis body_wraps : forall n m s w m' s' w',
  isinstance_any m search = true -> Inv s ->
  body n m s w = Ok (Installed m', s', w') -> Wrap m m' /\ Inv s'.
Hypothesis wrap_excluded : forall m m',
  Wrap m m' -> isinstance_any m' default_exclude = true.

Lemma excluded_not_searched m :
  isinstance_any m default_exclude = true -> isinstance_any m search = false.
Proof.
  intros H. destruct (isinstance_any m search) eqn:E; [|reflexivity].
  apply search_plain in E as [_ E]. congruence.
Qed.

Lemma visit_spec m :
  forall n s w m' s' w',
    Inv s -> visit search body n m s w = Ok (m', s', w') ->
    injected tags search Wrap true m m' /\ Inv s'.
Proof.
  induction m as [l|c|d|l|l|cls children IH] using module_tree_ind;
    intros n s w m' s' w' HI H; rewrite visit_eq in H;
    match type of H with
    | context [isinstance_any ?m search] =>
        destruct (isinstance_any m search) eqn:E
    end.
  all: try (inv_bind H; destruct a as [o s1]; simpl in H; inv_ret H;
            destruct (body_installs _ _ _ _ _ _ _ E Hrun) as [m1 ->];
            destruct (body_wraps _ _ _ _ _ _ _ E HI Hrun) as [HW HI'];
            split; [now apply injected_wrap | exact HI']).
  all: try (inv_ret H; split; [apply injected_same; [auto | discriminate] | exact HI]).
  inv_bind H. destruct a as [ch1 s1]. simpl in H. inv_ret H.
  destruct (mapM_children_Ok (visit search body)
              (injected tags search Wrap true) (fun s _ => Inv s)
              children s w ch1 s' w') as [HF HI']; auto.
  { intros nc Hin s0 w0 c' s0' w0' HI0 Hv.
    rewrite List.Forall_forall in IH. eapply (IH nc Hin); eauto. }
  split; [|exact HI'].
  apply injected_container.
  eapply Forall2_impl; [exact HF|]. simpl. intros ? ? [? ?]. split; assumption.
Qed.

Lemma excluded_settled m :
  isinstance_any m default_exclude = true -> settled search m = true.
Proof.
  intros H. pose proof (excluded_not_searched _ H) as E.
  destruct m; simpl in H; try discriminate; simpl; rewrite E; reflexivity.
Qed.

Lemma injected_true_settled m :
  forall m', injected tags search Wrap true m m' -> settled search m' = true.
Proof.
  induction m as [l|c|d|l|l|cls children IH] using module_tree_ind;
    intros m' H; inversion H; subst;
    try (eapply excluded_settled, wrap_excluded; eassumption);
    try match goal with
        | HS : true = true -> isinstance_any ?m search = false
          |- settled search ?m = true =>
            simpl; rewrite (HS eq_refl); reflexivity
        end.
  - exfalso. eapply H1. reflexivity.
  - simpl. rewrite isinstance_any_container.
    match goal with
    | HF : Forall2 _ children _ |- _ =>
        exact (Forall2_children_forallb _ _ _ _ IH HF)
    end.
Qed.

Lemma mapM_children_id (f : string -> module -> St -> M (module * St))
    (ch : list (string * module)) (s : St) (w : world) :
  (forall nc, In nc ch -> f (fst nc) (snd nc) s w = Ok (snd nc, s, w)) ->
  mapM_children f ch s w = Ok (ch, s, w).
Proof.
  induction ch as [|[n c] ch IH]; intros H; simpl; [reflexivity|].
  rewrite (bind_Ok_intro _ _ _ _ _ (H (n, c) (or_introl eq_refl))). simpl.
  rewrite (bind_Ok_intro _ _ _ _ _ (IH (fun nc Hin => H nc (or_intror Hin)))).
  reflexivity.
Qed.

Lemma visit_settled m :
  forall n s w, settled search m = true -> visit search body n m s w = Ok (m, s, w).
Proof.
  induction m as [l|c|d|l|l|cls children IH] using module_tree_ind;
    intros n s w H; rewrite visit_eq; simpl in H;
    match type of H with
    | context [isinstance_any ?m search] =>
        destruct (isinstance_any m search) eqn:E; [discriminate|]
    end; try reflexivity.
  rewrite (bind_Ok_intro _ _ w w (children, s)); [reflexivity|].
  apply mapM_children_id. intros nc Hin.
  rewrite List.Forall_forall in IH. apply IH; [exact Hin|].
  rewrite forallb_forall in H. now apply H.
Qed.

Lemma as_ancestor_settled m s w :
  settled search m = true ->
  as_ancestor search body self_install m s w = Ok (m, s, w).
Proof.
  intros H. unfold as_ancestor.
  assert (E : isinstance_any m search = false).
  { destruct m; simpl in H; destruct (isinstance_any _ search); congruence. }
  rewrite E. destruct m; try reflexivity.
  rewrite (bind_Ok_intro _ _ w w (children, s)); [reflexivity|].
  apply mapM_children_id. intros nc Hin. apply visit_settled.
  simpl in H. rewrite isinstance_any_container in H.
  rewrite forallb_forall in H. now apply H.
Qed.

(** A module without children that the walk passes is kept as it is; it
    is not both an ancestor and of [search_class]. *)
Lemma walk_leaf fuel m s w m' s' w' :
  named_children m = [] ->
  walk tags search body self_install fuel m s w = Ok (m', s', w') ->
  m' = m /\ s' = s /\ w' = w
  /\ (is_ancestor tags m = true -> isinstance_any m search = false).
Proof.
  intros Hleaf H. destruct fuel as [|fuel]; [discriminate|].
  rewrite walk_eq in H. inv_bind H. destruct a as [m1 s1]. simpl in H.
  assert (Hx : m1 = m /\ s1 = s /\ w0 = w
               /\ (is_ancestor tags m = true -> isinstance_any m search = false)).
  { destruct (is_ancestor tags m) eqn:Ea.
    - unfold as_ancestor in Hrun.
      destruct (isinstance_any m search) eqn:E.
      + destruct (search_plain _ E) as [_ Ex]. rewrite Ex in Hrun.
        inv_bind Hrun. destruct a as [o s2].
        destruct (body_installs _ _ _ _ _ _ _ E Hrun0) as [m2 ->].
        discriminate.
      + destruct m; simpl in Hleaf; try discriminate; subst;
          inv_ret Hrun; auto.
    - inv_ret Hrun. repeat split. discriminate. }
  destruct Hx as (-> & -> & -> & Hc).
  destruct m; simpl in Hleaf; try discriminate; subst; simpl in H;
    inv_ret H; auto.
Qed.

Lemma named_modules_layer m :
  (forall cls children, m <> mOther cls children) ->
  named_modules m = ([], m) :: map (fun nc => ([fst nc], snd nc)) (named_children m).
Proof. intros H. destruct m; try reflexivity. exfalso. eapply H. reflexivity. Qed.

Lemma layer_children_leaves m nc :
  (forall cls children, m <> mOther cls children) ->
  In nc (named_children m) -> named_children (snd nc) = [].
Proof.
  intros H Hin. destruct m; simpl in Hin;
    try contradiction; try (exfalso; eapply H; reflexivity);
    repeat (destruct Hin as [<-|Hin]; [reflexivity|]); contradiction.
Qed.

Lemma calm_layer m :
  (forall cls children, m <> mOther cls children) ->
  (is_ancestor tags m = true -> isinstance_any m search = false) ->
  (forall nc, In nc (named_children m) ->
     is_ancestor tags (snd nc) = true -> isinstance_any (snd nc) search = false) ->
  calm tags search m.
Proof.
  intros Hm Hself Hch p a Hin. rewrite (named_modules_layer m Hm) in Hin.
  destruct Hin as [[= <- <-]|Hin]; [exact Hself|].
  apply in_map_iff in Hin as (nc & [= <- <-] & Hin). now apply Hch.
Qed.

Lemma calm_container cls children :
  (forall nc, In nc children -> calm tags search (snd nc)) ->
  calm tags search (mOther cls children).
Proof.
  intros H p a Hin. simpl in Hin. destruct Hin as [[= <- <-]|Hin].
  - intros _. apply isinstance_any_container.
  - apply in_flat_map in Hin as (nc & Hnc & Hin).
    unfold prefix_paths in Hin. apply in_map_iff in Hin as ([p' a'] & [= <- <-] & Hin).
    eapply H; eauto.
Qed.

(** The walk over the children of a layer changes nothing. *)
Lemma walk_layer_children fuel m s w ch' s' w' :
  (forall cls children, m <> mOther cls children) ->
  mapM_children (fun _ => walk tags search body self_install fuel)
    (named_children m) s w = Ok (ch', s', w') ->
  s' = s /\ w' = w
  /\ forall nc, In nc (named_children m) ->
       is_ancestor tags (snd nc) = true -> isinstance_any (snd nc) search = false.
Proof.
  intros Hm H.
  destruct (mapM_children_Ok _
              (fun c c' => is_ancestor tags c = true -> isinstance_any c search = false)
              (fun s0 w0 => s0 = s /\ w0 = w) _ _ _ _ _ _
              (fun nc Hin s0 w0 c' s0' w0' HI Hw =>
                 match HI with
                 | conj Hs0 Hw0 =>
                     match walk_leaf fuel (snd nc) s0 w0 c' s0' w0'
                             (layer_children_leaves m nc Hm Hin) Hw with
                     | conj _ (conj Es (conj Ew Hc)) =>
                         conj Hc (conj (eq_trans Es Hs0) (eq_trans Ew Hw0))
                     end
                 end)
              (conj eq_refl eq_refl) H) as [HF [-> ->]].
  repeat split. intros nc Hin.
  clear H. induction HF as [|x y l l' [_ Hx] _ IH]; [contradiction|].
  destruct Hin as [<-|Hin]; auto.
Qed.

(** Where nothing is left to wrap, the walk changes nothing. *)
Lemma walk_settled fuel :
  forall m s w m' s' w',
    settled search m = true ->
    walk tags search body self_install fuel m s w = Ok (m', s', w') ->
    m' = m /\ s' = s /\ w' = w /\ calm tags search m.
Proof.
  induction fuel as [|fuel IH]; intros m s w m' s' w' Hs H; [discriminate|].
  rewrite walk_eq in H. inv_bind H. destruct a as [m1 s1].
  assert (Hx : m1 = m /\ s1 = s /\ w0 = w).
  { destruct (is_ancestor tags m).
    - rewrite as_ancestor_settled in Hrun by exact Hs. now inv_ret Hrun.
    - now inv_ret Hrun. }
  destruct Hx as (-> & -> & ->). cbn [fst snd] in H.
  assert (E : isinstance_any m search = false).
  { destruct m; simpl in Hs; destruct (isinstance_any _ search); congruence. }
  destruct m as [l|c|d|l|l|cls children].
  6: {
    inv_bind H. destruct a as [ch1 s1]. simpl in H. inv_ret H.
    simpl in Hs. rewrite isinstance_any_container in Hs.
    rewrite forallb_forall in Hs.
    destruct (mapM_children_Ok _
                (fun c c' => c' = c /\ calm tags search c)
                (fun s0 w0 => s0 = s /\ w0 = w) _ _ _ _ _ _
                (fun nc Hin s0 w0 c' s0' w0' HI Hw =>
                   match HI with
                   | conj Hs0 Hw0 =>
                       match IH (snd nc) s0 w0 c' s0' w0' (Hs nc Hin) Hw with
                       | conj Ec (conj Es (conj Ew Hc)) =>
                           conj (conj Ec Hc) (conj (eq_trans Es Hs0) (eq_trans Ew Hw0))
                       end
                   end)
                (conj eq_refl eq_refl) Hrun0) as [HF [-> ->]].
    assert (ch1 = children).
    { apply Forall2_children_eq. eapply Forall2_impl; [exact HF|].
      simpl. intros ? ? [? [? ?]]. auto. }
    subst ch1. repeat split. apply calm_container. intros nc Hin.
    destruct (Forall2_children_In_l (fun c c' => c' = c /\ calm tags search c)
                _ _ _ HF Hin) as (c' & _ & _ & Hc).
    exact Hc. }
  all: inv_bind H; destruct a as [ch1 s1]; simpl in H; inv_ret H;
    match goal with
    | Hc : mapM_children _ (named_children ?m) _ _ = Ok _ |- _ =>
        destruct (walk_layer_children _ m _ _ _ _ _ ltac:(discriminate) Hc)
          as (-> & -> & Hch)
    end;
    repeat split; apply calm_layer; [discriminate | auto | exact Hch].
Qed.

(** What the walk does to a model. *)
Lemma walk_spec fuel :
  forall m s w m' s' w',
    Inv s ->
    walk tags search body self_install fuel m s w = Ok (m', s', w') ->
    injected tags search Wrap false m m' /\ Inv s' /\ calm tags search m'.
Proof.
  induction fuel as [|fuel IH]; intros m s w m' s' w' HI H; [discriminate|].
  rewrite walk_eq in H. inv_bind H. destruct a as [m1 s1]. cbn [fst snd] in H.
  destruct (is_ancestor tags m) eqn:Ea.
  - unfold as_ancestor in Hrun. destruct (isinstance_any m search) eqn:E.
    { destruct (search_plain _ E) as [_ Ex]. rewrite Ex in Hrun.
      inv_bind Hrun. destruct a as [o s2].
      destruct (body_installs _ _ _ _ _ _ _ E Hrun0) as [m2 ->]. discriminate. }
    destruct m as [l|c|d|l|l|cls children].
    6: {
      inv_bind Hrun. destruct a as [ch1 s2]. simpl in Hrun. inv_ret Hrun.
      destruct (mapM_children_Ok (visit search body)
                  (injected tags search Wrap true) (fun s0 _ => Inv s0)
                  children s w ch1 s1 w0) as [HF HI1]; auto.
      { intros nc Hin s0 w1 c' s0' w1' HI0 Hv. eapply visit_spec; eauto. }
      inv_bind H. destruct a as [ch2 s2]. simpl in H. inv_ret H.
      assert (Hset : forall nc, In nc ch1 -> settled search (snd nc) = true).
      { apply forallb_forall.
        eapply (Forall2_children_forallb (injected tags search Wrap true));
          [|exact HF].
        apply List.Forall_forall. intros nc _ m'. apply injected_true_settled. }
      destruct (mapM_children_Ok _
                  (fun c c' => c' = c /\ calm tags search c)
                  (fun s0 w1 => s0 = s1 /\ w1 = w0) _ _ _ _ _ _
                  (fun nc Hin s0 w1 c' s0' w1' HI0 Hw =>
                     match HI0 with
                     | conj Hs0 Hw0 =>
                         match walk_settled fuel (snd nc) s0 w1 c' s0' w1'
                                 (Hset nc Hin) Hw with
                         | conj Ec (conj Es (conj Ew Hc)) =>
                             conj (conj Ec Hc)
                               (conj (eq_trans Es Hs0) (eq_trans Ew Hw0))
                         end
                     end)
                  (conj eq_refl eq_refl) Hrun) as [HF2 [-> ->]].
      assert (ch2 = ch1).
      { apply Forall2_children_eq. eapply Forall2_impl; [exact HF2|].
        simpl. intros ? ? [? [? ?]]. auto. }
      subst ch2. split; [|split; [exact HI1|]].
      - apply injected_container. rewrite Ea. exact HF.
      - apply calm_container. intros nc Hin.
        destruct (Forall2_children_In_l (fun c c' => c' = c /\ calm tags search c)
                    _ _ _ HF2 Hin) as (c' & _ & _ & Hc).
        exact Hc. }
    all: inv_ret Hrun; cbn [fst snd] in H; inv_bind H; destruct a as [ch1 s2];
      simpl in H; inv_ret H;
      match goal with
      | Hc : mapM_children _ (named_children ?m) _ _ = Ok _ |- _ =>
          destruct (walk_layer_children _ m _ _ _ _ _ ltac:(discriminate) Hc)
            as (-> & -> & Hch)
      end;
      (split; [apply injected_same; [discriminate | discriminate]
              | split; [exact HI | apply calm_layer; [discriminate | auto | exact Hch]]]).
  - inv_ret Hrun. destruct m1 as [l|c|d|l|l|cls children].
    6: {
      inv_bind H. destruct a as [ch1 s2]. simpl in H. inv_ret H.
      destruct (mapM_children_Ok _
                  (fun c c' => injected tags search Wrap false c c'
                               /\ calm tags search c')
                  (fun s0 _ => Inv s0) _ _ _ _ _ _
                  (fun nc Hin s0 w1 c' s0' w1' HI0 Hw =>
                     match IH (snd nc) s0 w1 c' s0' w1' HI0 Hw with
                     | conj Hi (conj HI' Hc) => conj (conj Hi Hc) HI'
                     end)
                  HI Hrun) as [HF HI1].
      split; [|split; [exact HI1|]].
      - apply injected_container. rewrite Ea.
        eapply Forall2_impl; [exact HF|]. simpl. intros ? ? [? [? ?]]. auto.
      - apply calm_container. intros nc Hin.
        destruct (Forall2_children_In_r
                    (fun c c' => injected tags search Wrap false c c'
                                 /\ calm tags search c')
                    _ _ _ HF Hin) as (c & _ & _ & Hc).
        exact Hc. }
    all: cbn [fst snd] in H; inv_bind H; destruct a as [ch1 s2];
      simpl in H; inv_ret H;
      match goal with
      | Hc : mapM_children _ (named_children ?m) _ _ = Ok _ |- _ =>
          destruct (walk_layer_children _ m _ _ _ _ _ ltac:(discriminate) Hc)
            as (-> & -> & Hch)
      end;
      (split; [apply injected_same; [discriminate | discriminate]
              | split; [exact HI | apply calm_layer;
                                     [discriminate | congruence | exact Hch]]]).
Qed.

(** *** After the walk the locator finds nothing *)

Lemma settled_parent_excluded a :
  settled search a = true -> unique_names a ->
  forall full d, In (full, d) (named_modules a) ->
    isinstance_any d search = true ->
    exists parent,
      get_submodule a (fst (split_fullname full)) = Some parent
      /\ isinstance_any parent default_exclude = true.
Proof.
  induction a as [l|c|d0|l|l|cls children IH] using module_tree_ind;
    intros Hs Hu full d Hin Hd.
  1-5: simpl in Hs;
    match type of Hs with
    | context [isinstance_any ?m search] =>
        destruct (isinstance_any m search) eqn:E; [discriminate|]
    end;
    simpl in Hin;
    repeat (destruct Hin as [[= <- <-]|Hin];
            [first [congruence | (eexists; split; reflexivity)]|]);
    contradiction.
  simpl in Hs. rewrite isinstance_any_container in Hs.
  rewrite forallb_forall in Hs.
  destruct (unique_names_children _ _ Hu) as [Hnd Huc].
  simpl in Hin. destruct Hin as [[= <- <-]|Hin].
  { rewrite isinstance_any_container in Hd. discriminate. }
  apply in_flat_map in Hin as ([n c] & Hnc & Hin).
  unfold prefix_paths in Hin. simpl in Hin.
  apply in_map_iff in Hin as ([p' d'] & [= <- <-] & Hin).
  destruct p' as [|n' p'].
  { apply named_modules_nil_path in Hin. subst d'.
    specialize (Hs (n, c) Hnc). simpl in Hs.
    destruct c; simpl in Hs; rewrite Hd in Hs; discriminate. }
  rewrite List.Forall_forall in IH.
  destruct (IH (n, c) Hnc (Hs (n, c) Hnc) (Huc (n, c) Hnc) _ _ Hin Hd)
    as (parent & Hget & Hex).
  exists parent. split; [|exact Hex].
  change (fst (split_fullname (n :: n' :: p'))) with (n :: removelast (n' :: p')).
  change (fst (split_fullname (n' :: p'))) with (removelast (n' :: p')) in Hget.
  cbn [get_submodule named_children].
  now rewrite (lookup_child_In _ _ _ Hnd Hnc).
Qed.

Lemma find_under_nil q a :
  (forall full d, In (full, d) (named_modules a) ->
     isinstance_any d search = true ->
     exists parent,
       get_submodule a (fst (split_fullname full)) = Some parent
       /\ isinstance_any parent default_exclude = true) ->
  find_under default_exclude search q a = [].
Proof.
  intros H. unfold find_under. apply flat_map_nil. intros [full d] Hin.
  cbn [fst snd].
  destruct (isinstance_any d search) eqn:E; [|reflexivity].
  destruct (H full d Hin E) as (parent & Hget & Hex).
  destruct (split_fullname full) as [path name]. cbn [fst] in Hget.
  rewrite Hget, Hex. reflexivity.
Qed.

Lemma layer_find_under_nil q a :
  (forall cls children, a <> mOther cls children) ->
  isinstance_any a search = false ->
  find_under default_exclude search q a = [].
Proof.
  intros Ha E. apply find_under_nil. intros full d Hin Hd.
  rewrite (named_modules_layer a Ha) in Hin.
  destruct Hin as [[= <- <-]|Hin]; [congruence|].
  apply in_map_iff in Hin as (nc & [= <- <-] & Hin).
  exists a. split; [reflexivity|].
  destruct a; simpl in Hin; try contradiction; try reflexivity.
  exfalso. eapply Ha. reflexivity.
Qed.

Lemma layer_quiet m :
  (forall cls children, m <> mOther cls children) ->
  calm tags search m ->
  forall p a, In (p, a) (named_modules m) -> is_ancestor tags a = true ->
    forall q, find_under default_exclude search q a = [].
Proof.
  intros Hm Hc p a Hin Ha q.
  apply layer_find_under_nil; [|eapply Hc; eauto].
  rewrite (named_modules_layer m Hm) in Hin.
  destruct Hin as [[= <- <-]|Hin]; [exact Hm|].
  apply in_map_iff in Hin as (nc & [= <- <-] & Hin).
  destruct m; simpl in Hin; try contradiction;
    try (exfalso; eapply Hm; reflexivity);
    repeat (destruct Hin as [<-|Hin]; [discriminate|]); contradiction.
Qed.

Lemma wrap_image_layer m m' :
  Wrap m m' -> forall cls children, m' <> mOther cls children.
Proof.
  intros HW cls children ->. apply wrap_excluded in HW.
  rewrite isinstance_any_container in HW. discriminate.
Qed.

Lemma injected_unique_names m :
  forall u m', injected tags search Wrap u m m' -> unique_names m -> unique_names m'.
Proof.
  induction m as [l|c|d|l|l|cls children IH] using module_tree_ind;
    intros u m' H Hu; inversion H; subst; auto;
    try (match goal with
         | HW : Wrap _ ?m' |- _ =>
             pose proof (wrap_image_layer _ _ HW) as Hlayer;
             destruct m'; try exact I;
             exfalso; eapply Hlayer; reflexivity
         end).
  destruct (unique_names_children _ _ Hu) as [Hnd Huc].
  apply unique_names_intro.
  - match goal with HF : Forall2 _ children _ |- _ =>
      rewrite <- (Forall2_children_names _ _ _ HF) end. exact Hnd.
  - intros nc' Hin.
    match goal with HF : Forall2 _ children _ |- _ =>
      destruct (Forall2_children_In_r
                  (injected tags search Wrap
                     (u || is_ancestor tags (mOther cls children)))
                  _ _ _ HF Hin) as (c & Hc & Hinj) end.
    rewrite List.Forall_forall in IH.
    exact (IH _ Hc _ _ Hinj (Huc _ Hc)).
Qed.

Lemma injected_quiet m :
  forall u m', injected tags search Wrap u m m' -> unique_names m ->
    calm tags search m' ->
    forall p a, In (p, a) (named_modules m') -> is_ancestor tags a = true ->
      forall q, find_under default_exclude search q a = [].
Proof.
  induction m as [l|c|d|l|l|cls children IH] using module_tree_ind;
    intros u m' H Hu Hc; inversion H; subst;
    try (apply layer_quiet; [discriminate | exact Hc]);
    try (apply layer_quiet; [eapply wrap_image_layer; eassumption | exact Hc]).
  - exfalso. eapply H1. reflexivity.
  - rename H4 into HF. intros p a Hin Ha q.
    simpl in Hin. destruct Hin as [[= <- <-]|Hin].
    + assert (Ea : is_ancestor tags (mOther cls children) = true)
        by (destruct tags; exact Ha).
      rewrite Ea, orb_true_r in HF.
      apply find_under_nil. apply settled_parent_excluded.
      * simpl. rewrite isinstance_any_container.
        eapply (Forall2_children_forallb (injected tags search Wrap true));
          [|exact HF].
        apply List.Forall_forall. intros nc _ m'. apply injected_true_settled.
      * apply (injected_unique_names (mOther cls children) true); [|exact Hu].
        apply injected_container. exact HF.
    + apply in_flat_map in Hin as ([n c'] & Hnc & Hin).
      unfold prefix_paths in Hin. simpl in Hin.
      apply in_map_iff in Hin as ([p' a'] & [= <- <-] & Hin).
      destruct (Forall2_children_In_r
                  (injected tags search Wrap
                     (u || is_ancestor tags (mOther cls children)))
                  _ _ _ HF Hnc) as (c & Hcin & Hinj).
      rewrite List.Forall_forall in IH.
      destruct (unique_names_children _ _ Hu) as [_ Huc].
      exact (IH (n, c) Hcin _ _ Hinj (Huc _ Hcin)
               (calm_child _ _ _ _ (n, c') Hc Hnc) p' a' Hin Ha q).
Qed.

(** What the walk leaves, the locator has nothing to yield from. *)
Lemma walk_then_nothing_found fuel m s w m' s' w' :
  Inv s -> unique_names m ->
  walk tags search body self_install fuel m s w = Ok (m', s', w') ->
  find_modules_v2 m' tags (Some search) None = [].
Proof.
  intros HI Hu H. destruct (walk_spec _ _ _ _ _ _ _ HI H) as (Hinj & _ & Hc).
  rewrite find_modules_v2_eq. apply flat_map_nil. intros [p a] Hin.
  cbn [fst snd].
  eapply injected_quiet; eauto.
  - unfold ancestors in Hin. destruct tags as [t|]; [|exact Hin].
    apply filter_In in Hin. exact (proj1 Hin).
  - unfold ancestors in Hin. destruct tags as [t|]; [|reflexivity].
    apply filter_In in Hin. exact (proj2 Hin).
Qed.

(** *** Where a located layer ends up *)

Hypothesis wrap_child : forall m m',
  Wrap m m' -> exists n, In (n, m) (named_children m').




End WalkSpec.

(** ** The bodies of the two injection functions *)

Lemma Linear_eta (l : Linear.t) :
  Linear.Make (Linear.in_features l) (Linear.out_features l) (Linear.weight l)
    (Linear.bias l) = l.
Proof. now destruct l. Qed.

Lemma Conv2d_eta (c : Conv2d.t) :
  Conv2d.Make (Conv2d.in_channels c) (Conv2d.out_channels c) (Conv2d.kernel_size c)
    (Conv2d.stride c) (Conv2d.padding c) (Conv2d.dilation c) (Conv2d.groups c)
    (Conv2d.weight c) (Conv2d.bias c) = c.
Proof. now destruct c. Qed.

Lemma wrap_linear_spec (src : Linear.t) (r : nat) (w w' : world)
    (tmp : LoraInjectedLinear.t) :
  wrap_linear src r w = Ok (tmp, w') ->
  LoraInjectedLinear.linear tmp = src /\ fresh_linear r src tmp
  /\ LoraInjectedLinear.scale tmp = 1%Z /\ 1 <= r <= Nat.min (Linear.in_features src) (Linear.out_features src).
Proof.
  unfold wrap_linear, LoraInjectedLinear.init. intros H.
  destruct (Nat.ltb_spec (Nat.min (Linear.in_features src) (Linear.out_features src)) r);
    [discriminate|].
  destruct r as [|r]; [destruct (Linear.bias src); discriminate|].
  destruct src as [i o wt [b|]]; simpl in *; inv_ret H;
    repeat split; simpl; lia.
Qed.

Lemma wrap_conv_spec (src : Conv2d.t) (r : nat) (w w' : world)
    (tmp : LoraInjectedConv2d.t) :
  wrap_conv src r w = Ok (tmp, w') ->
  LoraInjectedConv2d.conv tmp = src /\ fresh_conv r src tmp
  /\ LoraInjectedConv2d.scale tmp = 1%Z.
Proof.
  unfold wrap_conv, LoraInjectedConv2d.init. intros H.
  destruct (Nat.ltb_spec (Nat.min (Conv2d.in_channels src) (Conv2d.out_channels src)) r);
    [discriminate|].
  inv_bind H. inv_ret H. repeat inv_bind Hrun.
  unfold nn_Conv2d in *.
  destruct (Conv2d.groups src =? 0) eqn:Eg; [discriminate|].
  destruct (Conv2d.in_channels src mod Conv2d.groups src =? 0) eqn:Ei; [|discriminate].
  destruct (Conv2d.out_channels src mod Conv2d.groups src =? 0) eqn:Eo; [|discriminate].
  destruct (Nat.eqb_spec (r mod Conv2d.groups src) 0) as [Er|]; [|discriminate].
  change (1 =? 0) with false in *.
  rewrite ?Nat.mod_1_r, ?Nat.div_1_r in *.
  destruct r as [|r]; [discriminate|].
  destruct src as [ci co ks st pd dl g wt [b|]]; simpl in *;
    inv_ret Hrun0; inv_ret Hrun1; inv_ret Hrun2; inv_ret Hrun3; inv_ret Hrun4;
    inv_ret Hrun5; inv_ret Hrun;
    simpl; repeat split; try reflexivity; exact Er.
Qed.

(** ** A correction with zero up-projection contributes nothing *)







Lemma length_flat_map_const {A B} (k : nat) (f : A -> list B) (l : list A) :
  (forall a, length (f a) = k) -> length (flat_map f l) = length l * k.
Proof.
  intros H. induction l as [|a l IH]; simpl; [reflexivity|].
  rewrite length_app, H, IH. reflexivity.
Qed.




















(** ** The two injection functions *)

Lemma search_plain_linear m :
  isinstance_any m [cLinear] = true ->
  named_children m = [] /\ isinstance_any m default_exclude = false.
Proof. destruct m; simpl; intros H; try discriminate; auto. Qed.

Lemma search_plain_extended m :
  isinstance_any m [cLinear; cConv2d] = true ->
  named_children m = [] /\ isinstance_any m default_exclude = false.
Proof. destruct m; simpl; intros H; try discriminate; auto. Qed.

Lemma wraps_excluded m m' : wraps m m' -> isinstance_any m' default_exclude = true.
Proof. destruct m, m'; simpl; intros H; try contradiction; reflexivity. Qed.




Lemma preset_weights_None up down w x w' :
  preset_weights None up down w = Ok (x, w') -> x = (up, down, None).
Proof. intros H. now inv_ret H. Qed.

Lemma install_linear_Ok tmp name s w o s' w' :
  install_linear tmp name s w = Ok (o, s', w') ->
  exists up down,
    o = Installed (mLoraLinear (LoraLinear_with_weights tmp up down))
    /\ (i_loras s = None ->
        pdata up = pdata (Linear.weight (LoraInjectedLinear.lora_up tmp))
        /\ pdata down = pdata (Linear.weight (LoraInjectedLinear.lora_down tmp))
        /\ i_loras s' = None).
Proof.
  unfold install_linear. intros H. inv_bind H. inv_ret H.
  eexists. eexists. split; [reflexivity|]. intros E. rewrite E in Hrun.
  apply preset_weights_None in Hrun. subst a. simpl. auto.
Qed.

Lemma install_conv_Ok tmp name s w o s' w' :
  install_conv tmp name s w = Ok (o, s', w') ->
  exists up down,
    o = Installed (mLoraConv2d (LoraConv2d_with_weights tmp up down))
    /\ (i_loras s = None ->
        pdata up = pdata (Conv2d.weight (LoraInjectedConv2d.lora_up tmp))
        /\ pdata down = pdata (Conv2d.weight (LoraInjectedConv2d.lora_down tmp))
        /\ i_loras s' = None).
Proof.
  unfold install_conv. intros H. inv_bind H. inv_ret H.
  eexists. eexists. split; [reflexivity|]. intros E. rewrite E in Hrun.
  apply preset_weights_None in Hrun. subst a. simpl. auto.
Qed.

Lemma inject_extended_body_Ok r name m s w o s' w' :
  inject_extended_body r name m s w = Ok (o, s', w') ->
  exists m', o = Installed m' /\ wraps m m'
             /\ (i_loras s = None -> wraps_fresh r m m' /\ i_loras s' = None).
Proof.
  destruct m as [src|src| | | |]; try discriminate; simpl; intros H; inv_bind H.
  - destruct (wrap_linear_spec _ _ _ _ _ Hrun) as (Hl & Hf & _).
    destruct (install_linear_Ok _ _ _ _ _ _ _ H) as (up & down & -> & Hn).
    eexists. split; [reflexivity|]. split; [exact Hl|].
    intros E. destruct (Hn E) as (Eu & Ed & E'). split; [|exact E'].
    split; [exact Hl|]. destruct Hf as (F1 & F2 & F3 & F4).
    unfold fresh_linear. simpl. rewrite Eu, Ed. auto.
  - destruct (wrap_conv_spec _ _ _ _ _ Hrun) as (Hl & Hf & _).
    destruct (install_conv_Ok _ _ _ _ _ _ _ H) as (up & down & -> & Hn).
    eexists. split; [reflexivity|]. split; [exact Hl|].
    intros E. destruct (Hn E) as (Eu & Ed & E'). split; [|exact E'].
    split; [exact Hl|].
    destruct Hf as (F1 & F2 & F3 & F4 & F5 & F6 & F7 & F8 & F9 & F10 & F11 & F12 & F13).
    unfold fresh_conv. simpl. rewrite Eu, Ed. repeat split; assumption.
Qed.

Lemma inject_body_extended r name m s w :
  isinstance_any m [cLinear] = true ->
  inject_body r name m s w = inject_extended_body r name m s w.
Proof. destruct m; simpl; intros H; try discriminate; reflexivity. Qed.

Lemma inject_body_Ok r name m s w o s' w' :
  inject_body r name m s w = Ok (o, s', w') ->
  exists m', o = Installed m' /\ wraps m m'
             /\ (i_loras s = None -> wraps_fresh r m m' /\ i_loras s' = None).
Proof.
  intros H. apply (inject_extended_body_Ok r name m s w o s' w').
  destruct m; try discriminate. exact H.
Qed.




Lemma inject_body_installs r n m s w o s' w' :
  isinstance_any m [cLinear] = true ->
  inject_body r n m s w = Ok (o, s', w') -> exists m', o = Installed m'.
Proof.
  intros _ H. destruct (inject_body_Ok _ _ _ _ _ _ _ _ H) as (m' & -> & _). eauto.
Qed.

Lemma inject_body_wraps r n m s w m' s' w' :
  isinstance_any m [cLinear] = true -> True ->
  inject_body r n m s w = Ok (Installed m', s', w') -> wraps m m' /\ True.
Proof.
  intros _ _ H. destruct (inject_body_Ok _ _ _ _ _ _ _ _ H) as (m1 & [= <-] & Hw & _).
  auto.
Qed.


Lemma inject_extended_body_installs r n m s w o s' w' :
  isinstance_any m [cLinear; cConv2d] = true ->
  inject_extended_body r n m s w = Ok (o, s', w') -> exists m', o = Installed m'.
Proof.
  intros _ H. destruct (inject_extended_body_Ok _ _ _ _ _ _ _ _ H) as (m' & -> & _).
  eauto.
Qed.

Lemma inject_extended_body_wraps r n m s w m' s' w' :
  isinstance_any m [cLinear; cConv2d] = true -> True ->
  inject_extended_body r n m s w = Ok (Installed m', s', w') -> wraps m m' /\ True.
Proof.
  intros _ _ H.
  destruct (inject_extended_body_Ok _ _ _ _ _ _ _ _ H) as (m1 & [= <-] & Hw & _).
  auto.
Qed.


Lemma inject_trainable_lora_walk model target r loras w m' out w' :
  inject_trainable_lora model target r loras w = Ok (m', out, w') ->
  exists s',
    walk (Some (default DEFAULT_TARGET_REPLACE target)) [cLinear] (inject_body r)
      RuntimeError (S (depth model)) model (InjectState loras [] []) w
    = Ok (m', s', w').
Proof.
  unfold inject_trainable_lora, for_find_modules. intros H. inv_bind H.
  destruct a as [m1 s1]. inv_ret H. eauto.
Qed.

Lemma inject_trainable_lora_extended_walk model target r loras w m' out w' :
  inject_trainable_lora_extended model target r loras w = Ok (m', out, w') ->
  exists s',
    walk (Some (default UNET_EXTENDED_TARGET_REPLACE target)) [cLinear; cConv2d]
      (inject_extended_body r) RuntimeError (S (depth model)) model
      (InjectState loras [] []) w
    = Ok (m', s', w').
Proof.
  unfold inject_trainable_lora_extended, for_find_modules. intros H. inv_bind H.
  destruct a as [m1 s1]. inv_ret H. eauto.
Qed.

(** ** No double augmentation (C5) *)

(** C5.  After an injection pass has returned, the locator run again on
    the model, with the same target set, the same search classes and the
    default exclusion, yields nothing: a second pass has no layer to
    wrap.  This holds for both injection functions. *)
Theorem second_pass_locates_nothing (model : module)
    (target : option (list string)) (r : nat) (loras : option (list tensor))
    (w w' : world) (m' : module) (out : list (list parameter) * list string) :
  unique_names model ->
  (inject_trainable_lora model target r loras w = Ok (m', out, w') ->
   find_modules_v2 m' (Some (default DEFAULT_TARGET_REPLACE target))
     (Some [cLinear]) None = [])
  /\ (inject_trainable_lora_extended model target r loras w = Ok (m', out, w') ->
      find_modules_v2 m' (Some (default UNET_EXTENDED_TARGET_REPLACE target))
        (Some [cLinear; cConv2d]) None = []).
Proof.
  intros Hu. split; intros H.
  - apply inject_trainable_lora_walk in H as [s' H].
    exact (walk_then_nothing_found _ _ _ _ wraps (fun _ => True)
             search_plain_linear (inject_body_installs r) (inject_body_wraps r)
             wraps_excluded _ _ _ _ _ _ _ I Hu H).
  - apply inject_trainable_lora_extended_walk in H as [s' H].
    exact (walk_then_nothing_found _ _ _ _ wraps (fun _ => True)
             search_plain_extended (inject_extended_body_installs r)
             (inject_extended_body_wraps r)
             wraps_excluded _ _ _ _ _ _ _ I Hu H).
Qed.

(** ** The base parameters are shared (C8) *)


(** ** A fresh injection preserves the output (C1) *)


(** *** The three statements on the small model *)

Lemma ex_model_unique_names : unique_names ex_model.
Proof.
  simpl. repeat split; apply (bool_decide_unpack _); vm_compute; exact I.
Qed.



Lemma second_pass_locates_nothing_witness :
  find_modules_v2 ex_injected (Some DEFAULT_TARGET_REPLACE) (Some [cLinear]) None = [].
Proof.
  eapply (proj1 (second_pass_locates_nothing ex_model None 1 None ex_world _
                   ex_injected _ ex_model_unique_names)).
  vm_compute. reflexivity.
Defined.


(** ** Reading the container: a key without metadata (C7) *)

Lemma foldR_app {A B} (f : B -> A -> result B) l1 l2 b :
  foldR f (l1 ++ l2) b = (b' <~ foldR f l1 b ;; foldR f l2 b').
Proof.
  revert b. induction l1 as [|a l1 IH]; intros b; cbn [foldR app rbind].
  - reflexivity.
  - unfold rbind at 1 3. destruct (f b a); [apply IH | reflexivity].
Qed.

Lemma insert_by_name_perm k l : insert_by_name k l ≡ₚ k :: l.
Proof.
  induction l as [|k' l IH]; cbn [insert_by_name].
  - reflexivity.
  - destruct (String.leb (get_name k) (get_name k')).
    + reflexivity.
    + rewrite IH. apply Permutation_swap.
Qed.

Lemma sort_by_name_perm l : sort_by_name l ≡ₚ l.
Proof.
  induction l as [|k l IH]; cbn [sort_by_name foldr].
  - reflexivity.
  - rewrite insert_by_name_perm. fold (sort_by_name l). now rewrite IH.
Qed.

(** The groups of [groupby] are the list cut into pieces, none empty,
    each of keys of one name. *)
Lemma groupby_name_concat l : concat (map snd (groupby_name l)) = l.
Proof.
  induction l as [|k l IH]; cbn [groupby_name]; [reflexivity|].
  destruct (groupby_name l) as [|[n g] rest].
  - cbn in *. now subst.
  - destruct (String.eqb (get_name k) n); cbn in *; now rewrite IH.
Qed.

Lemma groupby_name_names l :
  Forall (fun g => snd g <> [] /\ Forall (fun k => get_name k = fst g) (snd g))
    (groupby_name l).
Proof.
  induction l as [|k l IH]; cbn [groupby_name]; [constructor|].
  destruct (groupby_name l) as [|[n g] rest].
  - repeat constructor. discriminate.
  - destruct (String.eqb_spec (get_name k) n) as [E|E].
    + inversion IH as [|? ? [_ Hg] Hrest]; subst. constructor; [|assumption].
      split; [discriminate|]. constructor; [reflexivity | assumption].
    + constructor; [|assumption]. split; [discriminate|]. repeat constructor.
Qed.

Lemma groupby_name_In k l :
  In k l -> exists before ks after,
    groupby_name l = before ++ (get_name k, ks) :: after /\ In k ks.
Proof.
  intros Hin. rewrite <- (groupby_name_concat l) in Hin.
  apply in_concat in Hin. destruct Hin as (ks & Hks & Hk).
  apply in_map_iff in Hks. destruct Hks as ([n ks'] & E & Hg). cbn in E. subst ks'.
  pose proof (groupby_name_names l) as Hall.
  rewrite List.Forall_forall in Hall. destruct (Hall _ Hg) as [_ Hn]. cbn in Hn.
  rewrite List.Forall_forall in Hn. rewrite <- (Hn _ Hk) in Hg.
  apply in_split in Hg. destruct Hg as (before & after & E).
  exists before, ks, after. auto.
Qed.

Lemma parse_group_no_metadata py h loras name ks :
  (forall info, metadata_get h name = Ok (Some info) -> info = EmptyString) ->
  parse_group py h loras (name, ks)
  = Raise (match h_metadata h with
           | Some _ => ValueError NoMetadata
           | None => AttributeError
           end).
Proof.
  unfold parse_group, metadata_get. cbn [fst snd].
  destruct (h_metadata h) as [md|]; cbn [rbind]; [|reflexivity].
  intros H. destruct (md !! name) as [info|]; [|reflexivity].
  rewrite (H info eq_refl). reflexivity.
Qed.

(** C7.  A tensor key whose component has no metadata entry (or an empty
    one) makes [parse_safeloras] raise: the groups ahead of that
    component in the sorted order are read, then the exception is raised
    -- [ValueError] (the tensor has no metadata), or [AttributeError]
    where the file has no metadata at all -- and no dictionary is
    returned. *)
Theorem missing_metadata_aborts_load py h k :
  In k (h_keys h) ->
  (forall info, metadata_get h (get_name k) = Ok (Some info) -> info = EmptyString) ->
  is_ok (parse_safeloras py h) = false
  /\ exists before ks after,
       groupby_name (sort_by_name (h_keys h)) = before ++ (get_name k, ks) :: after
       /\ parse_safeloras py h
          = (_ <~ foldR (parse_group py h) before ∅ ;;
             Raise (match h_metadata h with
                    | Some _ => ValueError NoMetadata
                    | None => AttributeError
                    end)).
Proof.
  intros Hin Hmeta.
  assert (Hs : In k (sort_by_name (h_keys h))).
  { apply list_elem_of_In. rewrite sort_by_name_perm. now apply list_elem_of_In. }
  destruct (groupby_name_In _ _ Hs) as (before & ks & after & E & _).
  assert (Hrun : parse_safeloras py h
                 = (_ <~ foldR (parse_group py h) before ∅ ;;
                    Raise (match h_metadata h with
                           | Some _ => ValueError NoMetadata
                           | None => AttributeError
                           end))).
  { unfold parse_safeloras. rewrite E, foldR_app. cbn [foldR].
    unfold rbind at 1 3. destruct (foldR (parse_group py h) before ∅); [|reflexivity].
    now rewrite parse_group_no_metadata. }
  split.
  - rewrite Hrun. unfold rbind. now destruct (foldR (parse_group py h) before ∅).
  - eauto.
Qed.

Lemma missing_metadata_aborts_load_witness :
  is_ok (parse_safeloras plain_builtins ex_orphan) = false
  /\ parse_safeloras plain_builtins ex_orphan = Raise (ValueError NoMetadata).
Proof.
  destruct (missing_metadata_aborts_load plain_builtins ex_orphan "unet:0:down")
    as [Hno _].
  - vm_compute. tauto.
  - vm_compute. intros info [=].
  - split; [exact Hno | vm_compute; reflexivity].
Defined.
(** ** The container round trip (C2) *)

(** *** The order of the sort *)

Lemma compare_spec_string a b :
  CompareSpec (a = b) (OrdersEx.String_as_OT.lt a b) (OrdersEx.String_as_OT.lt b a)
    (String.compare a b).
Proof. exact (OrdersEx.String_as_OT.compare_spec a b). Qed.

Lemma leb_trans a b c :
  String.leb a b = true -> String.leb b c = true -> String.leb a c = true.
Proof.
  unfold String.leb.
  destruct (compare_spec_string a b) as [->|Hab|Hab]; [auto | | discriminate].
  destruct (compare_spec_string b c) as [->|Hbc|Hbc]; [| | discriminate]; intros _ _.
  - change (String.compare a c) with (OrdersEx.String_as_OT.compare a c).
    rewrite Hab. reflexivity.
  - assert (H : OrdersEx.String_as_OT.lt a c) by (etransitivity; eauto).
    change (String.compare a c) with (OrdersEx.String_as_OT.compare a c).
    rewrite H. reflexivity.
Qed.

Lemma insert_by_name_sorted k l :
  StronglySorted name_le l -> StronglySorted name_le (insert_by_name k l).
Proof.
  induction 1 as [|k' l Hl IH Hk']; cbn [insert_by_name].
  - repeat constructor.
  - destruct (String.leb (get_name k) (get_name k')) eqn:E.
    + constructor; [now constructor|]. constructor; [exact E|].
      eapply List.Forall_impl; [|exact Hk']. unfold name_le. intros x Hx. eapply leb_trans; eauto.
    + constructor; [exact IH|].
      apply List.Forall_forall. intros x Hx.
      apply list_elem_of_In in Hx. rewrite insert_by_name_perm in Hx.
      apply list_elem_of_In in Hx. destruct Hx as [<-|Hx].
      * destruct (String.leb_total (get_name k) (get_name k')); congruence.
      * rewrite List.Forall_forall in Hk'. auto.
Qed.

Lemma sort_by_name_sorted l : StronglySorted name_le (sort_by_name l).
Proof.
  induction l as [|k l IH]; cbn [sort_by_name foldr].
  - constructor.
  - apply insert_by_name_sorted, IH.
Qed.

Lemma groupby_name_head k l :
  exists g rest, groupby_name (k :: l) = (get_name k, g) :: rest.
Proof.
  cbn [groupby_name]. destruct (groupby_name l) as [|[n g] rest]; [eauto|].
  destruct (String.eqb_spec (get_name k) n) as [->|]; eauto.
Qed.

Lemma groupby_name_group n ks l :
  In (n, ks) (groupby_name l) ->
  ks <> [] /\ forall k, In k ks -> In k l /\ get_name k = n.
Proof.
  intros Hg. pose proof (groupby_name_names l) as Hall.
  rewrite List.Forall_forall in Hall. destruct (Hall _ Hg) as [Hne Hn]. cbn in *.
  split; [exact Hne|]. intros k Hk. rewrite List.Forall_forall in Hn. split; [|auto].
  rewrite <- (groupby_name_concat l). apply in_concat. exists ks. split; [|exact Hk].
  apply in_map_iff. now exists (n, ks).
Qed.

(** After the sort every name heads one group only. *)
Lemma groupby_name_sorted l :
  StronglySorted name_le l -> NoDup (map fst (groupby_name l)).
Proof.
  intros Hs. apply NoDup_ListNoDup.
  induction Hs as [|k l Hl IH Hk]; [constructor|].
  cbn [groupby_name].
  destruct (groupby_name l) as [|[n g] rest] eqn:E.
  { constructor; [intros []|constructor]. }
  destruct (String.eqb_spec (get_name k) n) as [Hn|Hn]; [exact IH|].
  change (List.NoDup (get_name k :: map fst ((n, g) :: rest))). constructor; [|exact IH].
  intros Hin. apply in_map_iff in Hin. destruct Hin as ([n' g'] & En & Hg).
  cbn in En. subst n'. rewrite <- E in Hg.
  destruct (groupby_name_group _ _ _ Hg) as [Hne Hkeys].
  destruct g' as [|x g']; [congruence|]. destruct (Hkeys x (or_introl eq_refl)) as [Hx Hnx].
  destruct l as [|k1 l']; [contradiction|].
  destruct (groupby_name_head k1 l') as (g1 & rest1 & E1).
  rewrite E1 in E. injection E as E2 _ _.
  apply Hn. rewrite <- E2. apply String.leb_antisym.
  - rewrite List.Forall_forall in Hk. apply Hk. now left.
  - rewrite <- Hnx. destruct Hx as [<-|Hx].
    + destruct (String.leb_total (get_name k1) (get_name k1)); assumption.
    + inversion Hl as [|? ? _ Hk1]; subst. rewrite List.Forall_forall in Hk1.
      exact (Hk1 x Hx).
Qed.

Lemma NoDup_fst_functional {A B} (l : list (A * B)) a b b' :
  NoDup (map fst l) -> In (a, b) l -> In (a, b') l -> b = b'.
Proof.
  rewrite NoDup_ListNoDup. induction l as [|[x y] l IH]; cbn; [contradiction|].
  intros Hnd [E|H1] [E'|H2]; inversion Hnd as [|? ? Hx Hl]; subst.
  - congruence.
  - injection E as -> ->. exfalso. apply Hx. apply in_map_iff. now exists (a, b').
  - injection E' as -> ->. exfalso. apply Hx. apply in_map_iff. now exists (a, b).
  - auto.
Qed.

(** The groups that [parse_safeloras] walks: one for every name among
    the keys, holding all the keys of that name. *)
Lemma sorted_groups keys n ks :
  In (n, ks) (groupby_name (sort_by_name keys)) ->
  ks <> [] /\ forall k, In k ks <-> In k keys /\ get_name k = n.
Proof.
  intros Hg. destruct (groupby_name_group _ _ _ Hg) as [Hne Hks].
  split; [exact Hne|]. intros k. split.
  - intros Hk. destruct (Hks k Hk) as [Hin Hn]. split; [|exact Hn].
    apply list_elem_of_In. rewrite <- (sort_by_name_perm keys). now apply list_elem_of_In.
  - intros [Hin Hn]. 
    assert (Hs : In k (sort_by_name keys)).
    { apply list_elem_of_In. rewrite sort_by_name_perm. now apply list_elem_of_In. }
    destruct (groupby_name_In _ _ Hs) as (before & ks' & after & E & Hk).
    assert (Hg' : In (n, ks') (groupby_name (sort_by_name keys))).
    { rewrite E, <- Hn. apply in_elt. }
    now rewrite (NoDup_fst_functional _ _ _ _
                   (groupby_name_sorted _ (sort_by_name_sorted keys)) Hg Hg').
Qed.

Lemma sorted_groups_names keys :
  NoDup (map fst (groupby_name (sort_by_name keys))).
Proof. apply groupby_name_sorted, sort_by_name_sorted. Qed.
(** *** Keys and their parts *)

Lemma split_char_ne c s : split_char c s <> [].
Proof.
  destruct s as [|a s]; cbn [split_char]; [discriminate|].
  destruct (Ascii.eqb a c); [discriminate|].
  destruct (split_char c s); discriminate.
Qed.

Lemma split_char_none c s : has_char c s = false -> split_char c s = [s].
Proof.
  induction s as [|a s IH]; cbn [split_char has_char]; [reflexivity|].
  destruct (Ascii.eqb a c); [discriminate|]. cbn [orb]. intros H.
  now rewrite (IH H).
Qed.

Lemma split_char_app c s1 s2 :
  has_char c s1 = false ->
  split_char c (s1 +:+ String c s2) = s1 :: split_char c s2.
Proof.
  induction s1 as [|a s1 IH].
  - intros _. change (EmptyString +:+ String c s2) with (String c s2).
    cbn [split_char]. now rewrite Ascii.eqb_refl.
  - change (String a s1 +:+ String c s2) with (String a (s1 +:+ String c s2)).
    cbn [split_char has_char].
    destruct (Ascii.eqb a c); [discriminate|]. cbn [orb]. intros H.
    now rewrite (IH H).
Qed.

Lemma has_char_app c s1 s2 :
  has_char c (s1 +:+ s2) = has_char c s1 || has_char c s2.
Proof.
  induction s1 as [|a s1 IH]; [reflexivity|].
  change (String a s1 +:+ s2) with (String a (s1 +:+ s2)).
  cbn [has_char]. now rewrite IH, orb_assoc.
Qed.

Lemma string_of_uint_no_colon u :
  has_char ":" (DecimalString.NilEmpty.string_of_uint u) = false.
Proof. induction u; cbn; auto. Qed.

Lemma py_str_no_colon z : has_char ":" (py_str z) = false.
Proof.
  unfold py_str, DecimalString.NilZero.string_of_int.
  destruct (Z.to_int z) as [u|u]; cbn [has_char];
    unfold DecimalString.NilZero.string_of_uint;
    destruct u; cbn; auto using string_of_uint_no_colon.
Qed.

Lemma split_lora_key name i what :
  has_char ":" name = false -> has_char ":" what = false ->
  split_char ":" (lora_key name i what) = [name; py_str i; what].
Proof.
  intros Hn Hw. unfold lora_key.
  change (":" +:+ py_str i +:+ ":" +:+ what)
    with (String ":" (py_str i +:+ String ":" what)).
  rewrite (split_char_app _ _ _ Hn), (split_char_app _ _ _ (py_str_no_colon i)).
  now rewrite (split_char_none _ _ Hw).
Qed.

Lemma get_name_lora_key name i what :
  has_char ":" name = false -> get_name (lora_key name i what) = name.
Proof.
  intros Hn. unfold get_name, lora_key.
  change (":" +:+ py_str i +:+ ":" +:+ what)
    with (String ":" (py_str i +:+ ":" +:+ what)).
  now rewrite (split_char_app _ _ _ Hn).
Qed.

Lemma get_name_plain s : has_char ":" s = false -> get_name s = s.
Proof. intros H. unfold get_name. now rewrite (split_char_none _ _ H). Qed.

Lemma lora_key_has_colon name i what : has_char ":" (lora_key name i what) = true.
Proof.
  unfold lora_key. rewrite has_char_app. cbn. apply orb_true_r.
Qed.

Lemma py_str_inj py z z' : builtins_ok py -> py_str z = py_str z' -> z = z'.
Proof.
  intros Hpy E. pose proof (int_str py Hpy z) as H. rewrite E, (int_str py Hpy) in H.
  congruence.
Qed.

Lemma lora_key_inj py name name' i i' what what' :
  builtins_ok py ->
  has_char ":" name = false -> has_char ":" name' = false ->
  has_char ":" what = false -> has_char ":" what' = false ->
  lora_key name i what = lora_key name' i' what' ->
  name = name' /\ i = i' /\ what = what'.
Proof.
  intros Hpy Hn Hn' Hw Hw' E.
  pose proof (split_lora_key name i what Hn Hw) as H.
  rewrite E, (split_lora_key name' i' what' Hn' Hw') in H.
  injection H as -> Hi ->. repeat split. symmetry. eapply py_str_inj; eauto.
Qed.
(** *** One component read back *)

Lemma insert_agrees {A} (l e : list A) p v j :
  e !! p = Some v -> p < length l ->
  (j = p \/ l !! j = e !! j) -> <[p := v]> l !! j = e !! j.
Proof.
  intros Hp Hlt H. destruct (decide (j = p)) as [->|Hne].
  - rewrite list_lookup_insert_eq; auto.
  - rewrite list_lookup_insert_ne; [|auto]. destruct H; [contradiction | assumption].
Qed.

Lemma read_ranks_lookup layers i l :
  layers !! i = Some l -> read_ranks layers !! i = Some (Z.of_nat (snd l)).
Proof.
  unfold read_ranks.
  revert i. induction layers as [|l' layers IH]; intros [|i]; cbn; try discriminate.
  - now intros [= ->].
  - apply IH.
Qed.

Lemma read_weights_lookup layers i l :
  layers !! i = Some l ->
  read_weights layers !! (2 * i) = Some (Some (fst (fst l)))
  /\ read_weights layers !! (2 * i + 1) = Some (Some (snd (fst l))).
Proof.
  unfold read_weights. revert i. induction layers as [|l' layers IH]; intros [|i]; cbn [flat_map app];
    try discriminate.
  - intros [= ->]. split; reflexivity.
  - intros H. replace (2 * S i) with (S (S (2 * i))) by lia.
    cbn [Nat.add]. apply (IH i H).
Qed.

Lemma read_weights_length layers : length (read_weights layers) = 2 * length layers.
Proof. unfold read_weights. induction layers; cbn [flat_map app length]; lia. Qed.
Lemma layer_keys_In name k n : forall i,
  In k (layer_keys name i n) <->
  exists j d, i <= j < i + n /\ (d = "up" \/ d = "down")
              /\ k = lora_key name (Z.of_nat j) d.
Proof.
  induction n as [|n IH]; intros i; cbn [layer_keys In].
  - split; [contradiction|]. intros (j & d & H & _). lia.
  - rewrite IH. split.
    + intros [<-|[<-|(j & d & H & Hd & ->)]].
      * exists i, "up". repeat split; auto; lia.
      * exists i, "down". repeat split; auto; lia.
      * exists j, d. repeat split; auto; lia.
    + intros (j & d & H & Hd & ->). destruct (decide (j = i)) as [->|Hne].
      * destruct Hd as [->| ->]; auto.
      * right. right. exists j, d. repeat split; auto; lia.
Qed.

Section ReadGroup.
Variable py : builtins.
Hypothesis Hpy : builtins_ok py.
Variables (h : safe_handle) (md : gmap string string) (name : string).
Variable layers : list (tensor * tensor * nat).
Hypothesis Hmd : h_metadata h = Some md.
Hypothesis Hname : has_char ":" name = false.
Hypothesis Hrank : forall i l, layers !! i = Some l ->
  md !! lora_key name (Z.of_nat i) "rank" = Some (py_str (Z.of_nat (snd l))).
Hypothesis Hup : forall i l, layers !! i = Some l ->
  h_tensors h !! lora_key name (Z.of_nat i) "up" = Some (fst (fst l)).
Hypothesis Hdown : forall i l, layers !! i = Some l ->
  h_tensors h !! lora_key name (Z.of_nat i) "down" = Some (snd (fst l)).

Lemma parse_key_layer st i d l :
  layers !! i = Some l -> d = "up" \/ d = "down" ->
  length (fst st) = length layers -> length (snd st) = 2 * length layers ->
  parse_key py h name st (lora_key name (Z.of_nat i) d)
  = Ok (<[i := Z.of_nat (snd l)]> (fst st),
        <[slot i d := Some (if String.eqb d "down" then snd (fst l) else fst (fst l))]>
          (snd st)).
Proof.
  intros Hl Hd Hr Hw.
  assert (Hi : i < length layers) by (apply lookup_lt_is_Some; eauto).
  assert (Hnc : has_char ":" d = false) by (destruct Hd as [->| ->]; reflexivity).
  unfold parse_key. rewrite (split_lora_key _ _ _ Hname Hnc).
  rewrite (int_str py Hpy). cbn [of_option rbind].
  unfold metadata_item. rewrite Hmd, (Hrank _ _ Hl). cbn [of_option rbind].
  rewrite (int_str py Hpy). cbn [of_option rbind].
  unfold py_setitem at 1. rewrite Hr.
  replace ((0 <=? Z.of_nat i)%Z && (Z.of_nat i <? Z.of_nat (length layers))%Z)
    with true by (symmetry; apply andb_true_iff; split; [apply Z.leb_le | apply Z.ltb_lt]; lia).
  rewrite Nat2Z.id. cbn [rbind].
  unfold get_tensor.
  assert (Ht : h_tensors h !! lora_key name (Z.of_nat i) d
               = Some (if String.eqb d "down" then snd (fst l) else fst (fst l))).
  { destruct Hd as [->| ->]; cbn; eauto. }
  rewrite Ht. cbn [of_option rbind].
  unfold py_setitem. rewrite Hw.
  assert (Hs : (Z.of_nat i * 2 + (if String.eqb d "down" then 1 else 0))%Z
               = Z.of_nat (slot i d)).
  { unfold slot. destruct (String.eqb d "down"); lia. }
  rewrite Hs.
  replace ((0 <=? Z.of_nat (slot i d))%Z
           && (Z.of_nat (slot i d) <? Z.of_nat (2 * length layers))%Z)
    with true.
  - now rewrite Nat2Z.id.
  - symmetry. apply andb_true_iff. split; [apply Z.leb_le | apply Z.ltb_lt]; [lia|].
    unfold slot. destruct (String.eqb d "down"); lia.
Qed.

Lemma slot_agrees i d l :
  layers !! i = Some l -> d = "up" \/ d = "down" ->
  read_weights layers !! slot i d
  = Some (Some (if String.eqb d "down" then snd (fst l) else fst (fst l))).
Proof.
  intros Hl Hd. destruct (read_weights_lookup _ _ _ Hl) as [H0 H1].
  unfold slot. destruct Hd as [->| ->]; cbn [String.eqb Ascii.eqb Bool.eqb]; cbn.
  - now rewrite Nat.add_0_r in *.
  - rewrite <- H1. reflexivity.
Qed.

Lemma parse_keys_layers ks : forall st,
  (forall k, In k ks -> In k (layer_keys name 0 (length layers))) ->
  length (fst st) = length layers -> length (snd st) = 2 * length layers ->
  exists st',
    foldR (parse_key py h name) ks st = Ok st'
    /\ length (fst st') = length layers /\ length (snd st') = 2 * length layers
    /\ forall i d, i < length layers -> d = "up" \/ d = "down" ->
         In (lora_key name (Z.of_nat i) d) ks
         \/ (fst st !! i = read_ranks layers !! i
             /\ snd st !! slot i d = read_weights layers !! slot i d) ->
         fst st' !! i = read_ranks layers !! i
         /\ snd st' !! slot i d = read_weights layers !! slot i d.
Proof.
  induction ks as [|k ks IH]; intros st Hks Hr Hw.
  - exists st. cbn [foldR]. split; [reflexivity|]. split; [exact Hr|]. split; [exact Hw|].
    intros i d _ _ [[]|H]; exact H.
  - destruct (proj1 (layer_keys_In name k _ 0) (Hks k (or_introl eq_refl)))
      as (i0 & d0 & Hi0 & Hd0 & ->).
    destruct (lookup_lt_is_Some_2 layers i0 ltac:(lia)) as [l0 Hl0].
    cbn [foldR]. rewrite (parse_key_layer st i0 d0 l0 Hl0 Hd0 Hr Hw). cbn [rbind].
    destruct (IH (<[i0 := Z.of_nat (snd l0)]> (fst st),
                  <[slot i0 d0 := Some (if String.eqb d0 "down" then snd (fst l0)
                                        else fst (fst l0))]> (snd st)))
      as (st' & Hrun & Hr' & Hw' & Hag).
    + intros k Hk. apply Hks. now right.
    + cbn [fst]. now rewrite length_insert.
    + cbn [snd]. now rewrite length_insert.
    + exists st'. split; [exact Hrun|]. split; [exact Hr'|]. split; [exact Hw'|].
      intros i d Hi Hd Hcase. apply (Hag i d Hi Hd). cbn [fst snd].
      assert (Hslot : slot i0 d0 < length (snd st)).
      { rewrite Hw. unfold slot. destruct (String.eqb d0 "down"); lia. }
      destruct Hcase as [[E|Hin]|[H1 H2]].
      * right.
        assert (Hnc : forall d, d = "up" \/ d = "down" -> has_char ":" d = false)
          by (intros ? [->| ->]; reflexivity).
        destruct (lora_key_inj py _ _ _ _ _ _ Hpy Hname Hname (Hnc _ Hd0) (Hnc _ Hd) E)
          as (_ & Hi' & ->).
        apply Nat2Z.inj in Hi'. subst i0. split.
        -- apply insert_agrees; [now apply read_ranks_lookup | lia | now left].
        -- apply insert_agrees; [now apply slot_agrees | exact Hslot | now left].
      * now left.
      * right. split.
        -- destruct (decide (i = i0)) as [->|Hne].
           ++ apply insert_agrees; [now apply read_ranks_lookup | lia | now left].
           ++ rewrite list_lookup_insert_ne; auto.
        -- destruct (decide (slot i d = slot i0 d0)) as [->|Hne].
           ++ apply insert_agrees; [now apply slot_agrees | exact Hslot | now left].
           ++ rewrite list_lookup_insert_ne; auto.
Qed.

Lemma slot_cases j :
  exists i d, (d = "up" \/ d = "down") /\ j = slot i d /\ i = j / 2.
Proof.
  destruct (Nat.eq_dec (j mod 2) 0) as [E|E].
  - exists (j / 2), "up". split; [now left|]. split; [|reflexivity].
    unfold slot. change (String.eqb "up" "down") with false. cbv iota.
    pose proof (Nat.div_mod_eq j 2). lia.
  - exists (j / 2), "down". split; [now right|]. split; [|reflexivity].
    unfold slot. change (String.eqb "down" "down") with true. cbv iota.
    pose proof (Nat.div_mod_eq j 2). pose proof (Nat.mod_upper_bound j 2). lia.
Qed.

Lemma parse_group_component loras target ks :
  md !! name = Some (json_dumps py target) ->
  (forall k, In k ks <-> In k (layer_keys name 0 (length layers))) ->
  length ks = 2 * length layers ->
  parse_group py h loras (name, ks) = Ok (<[name := read_back target layers]> loras).
Proof.
  intros Hinfo Hks Hlen.
  unfold parse_group, metadata_get. cbn [fst snd]. rewrite Hmd. cbn [rbind].
  rewrite Hinfo, (loads_dumps py Hpy). cbn [of_option rbind].
  destruct (dumps_bracket py Hpy target) as [s ->].
  change (String.eqb (String "[" s) EmptyString) with false.
  change (String.eqb (String "[" s) EMBED_FLAG) with false. cbv iota.
  destruct (parse_keys_layers ks
              (replicate (length ks / 2) 4%Z, replicate (length ks) None))
    as (st' & -> & Hr & Hw & Hag).
  - intros k Hk. now apply Hks.
  - cbn [fst]. rewrite length_replicate, Hlen, Nat.mul_comm. now apply Nat.div_mul.
  - cbn [snd]. now rewrite length_replicate.
  - cbn [rbind]. unfold read_back. do 3 f_equal.
    assert (Hall : forall i d, i < length layers -> d = "up" \/ d = "down" ->
              fst st' !! i = read_ranks layers !! i
              /\ snd st' !! slot i d = read_weights layers !! slot i d).
    { intros i d Hi Hd. apply (Hag i d Hi Hd). left. apply Hks.
      apply layer_keys_In. exists i, d. repeat split; auto; lia. }
    destruct st' as [ranks weights]. cbn [fst snd] in *. f_equal; [f_equal|].
    + apply list_eq. intros j. destruct (decide (j < 2 * length layers)) as [Hj|Hj].
      * destruct (slot_cases j) as (i & d & Hd & -> & _).
        apply (Hall i d); [|exact Hd].
        unfold slot in Hj. destruct (String.eqb d "down"); lia.
      * rewrite !lookup_ge_None_2; auto; rewrite ?read_weights_length; lia.
    + apply list_eq. intros j. destruct (decide (j < length layers)) as [Hj|Hj].
      * apply (Hall j "up"); auto.
      * rewrite !lookup_ge_None_2; auto; unfold read_ranks; rewrite ?length_map; lia.
Qed.

End ReadGroup.
(** *** The entries of a file *)

Lemma tensor_entries_In name layers k v : forall i,
  In (k, v) (tensor_entries name i layers) <->
  exists j l, layers !! j = Some l
    /\ ((k = lora_key name (Z.of_nat (i + j)) "up" /\ v = fst (fst l))
        \/ (k = lora_key name (Z.of_nat (i + j)) "down" /\ v = snd (fst l))).
Proof.
  induction layers as [|l0 layers IH]; intros i; cbn [tensor_entries In].
  - split; [contradiction|]. intros (j & l & H & _). discriminate.
  - rewrite IH. split.
    + intros [[= <- <-]|[[= <- <-]|(j & l & H & Hk)]].
      * exists 0, l0. rewrite Nat.add_0_r. auto.
      * exists 0, l0. rewrite Nat.add_0_r. auto.
      * exists (S j), l. rewrite Nat.add_succ_r. auto.
    + intros ([|j] & l & H & Hk).
      * injection H as ->. rewrite Nat.add_0_r in Hk.
        destruct Hk as [[-> ->]|[-> ->]]; auto.
      * right. right. exists j, l. rewrite Nat.add_succ_r in Hk. auto.
Qed.

Lemma rank_entries_In name layers k v : forall i,
  In (k, v) (rank_entries name i layers) <->
  exists j l, layers !! j = Some l
    /\ k = lora_key name (Z.of_nat (i + j)) "rank" /\ v = py_str (Z.of_nat (snd l)).
Proof.
  induction layers as [|l0 layers IH]; intros i; cbn [rank_entries In].
  - split; [contradiction|]. intros (j & l & H & _). discriminate.
  - rewrite IH. split.
    + intros [[= <- <-]|(j & l & H & Hk)].
      * exists 0, l0. rewrite Nat.add_0_r. auto.
      * exists (S j), l. rewrite Nat.add_succ_r. auto.
    + intros ([|j] & l & H & Hk).
      * injection H as ->. rewrite Nat.add_0_r in Hk. destruct Hk as [-> ->]. auto.
      * right. exists j, l. rewrite Nat.add_succ_r in Hk. auto.
Qed.

Lemma file_tensors_In comps embeds k v :
  In (k, v) (file_tensors comps embeds) <->
  (exists c j l, In c comps /\ snd (snd c) !! j = Some l
     /\ ((k = lora_key (fst c) (Z.of_nat j) "up" /\ v = fst (fst l))
         \/ (k = lora_key (fst c) (Z.of_nat j) "down" /\ v = snd (fst l))))
  \/ In (k, v) embeds.
Proof.
  unfold file_tensors. rewrite in_app_iff, in_flat_map.
  split; (intros [H|H]; [left|now right]).
  - destruct H as (c & Hc & H). apply tensor_entries_In in H.
    destruct H as (j & l & Hl & H). exists c, j, l. auto.
  - destruct H as (c & j & l & Hc & Hl & H). exists c. split; [exact Hc|].
    apply tensor_entries_In. exists j, l. auto.
Qed.

Lemma file_metadata_In py comps embeds k v :
  In (k, v) (file_metadata py comps embeds) <->
  (exists c, In c comps
     /\ ((k = fst c /\ v = json_dumps py (fst (snd c)))
         \/ exists j l, snd (snd c) !! j = Some l
              /\ k = lora_key (fst c) (Z.of_nat j) "rank"
              /\ v = py_str (Z.of_nat (snd l))))
  \/ (exists t, In (k, t) embeds /\ v = EMBED_FLAG).
Proof.
  unfold file_metadata. rewrite in_app_iff, in_flat_map, in_map_iff.
  split; (intros [H|H]; [left|right]).
  - destruct H as (c & Hc & [[= <- <-]|H]); exists c; split; auto.
    apply rank_entries_In in H. destruct H as (j & l & Hl & H). right. eauto.
  - destruct H as ([k' t] & [= <- <-] & He). eauto.
  - destruct H as (c & Hc & [[-> ->]|(j & l & Hl & H)]); exists c; split; auto.
    + now left.
    + right. apply rank_entries_In. exists j, l. auto.
  - destruct H as (t & He & ->). now exists (k, t).
Qed.

Lemma layer_keys_NoDup py name n :
  builtins_ok py -> has_char ":" name = false ->
  forall i, NoDup (layer_keys name i n).
Proof.
  intros Hpy Hname.
  induction n as [|n IH]; intros i; apply NoDup_ListNoDup; cbn [layer_keys]; constructor.
  - intros [E|H].
    + apply (lora_key_inj py) in E; auto. destruct E as (_ & _ & [=]).
    + apply layer_keys_In in H. destruct H as (j & d & Hj & Hd & E).
      apply (lora_key_inj py) in E; auto; [|destruct Hd as [->| ->]; reflexivity].
      destruct E as (_ & E & _). lia.
  - constructor; [|apply NoDup_ListNoDup, IH].
    intros H. apply layer_keys_In in H. destruct H as (j & d & Hj & Hd & E).
    apply (lora_key_inj py) in E; auto; [|destruct Hd as [->| ->]; reflexivity].
    destruct E as (_ & E & _). lia.
Qed.
(** *** A whole file read back *)

Lemma layer_keys_length name n : forall i, length (layer_keys name i n) = 2 * n.
Proof.
  induction n as [|n IH]; intros i; cbn [layer_keys length]; [reflexivity|].
  rewrite IH. lia.
Qed.

Section ReadFile.
Variable py : builtins.
Hypothesis Hpy : builtins_ok py.
Variable comps : list (string * (list string * list (tensor * tensor * nat))).
Variable embeds : list (string * tensor).
Variables (h : safe_handle) (md : gmap string string).
Hypothesis Hmd : h_metadata h = Some md.
Hypothesis Hnames : NoDup (map fst comps).
Hypothesis Hcolon : forall c, In c comps -> has_char ":" (fst c) = false.
Hypothesis Hlayers : forall c, In c comps -> snd (snd c) <> [].
Hypothesis Htokens : NoDup (map fst embeds).
Hypothesis Htcolon : forall e, In e embeds -> has_char ":" (fst e) = false.
Hypothesis Hapart : forall c e, In c comps -> In e embeds -> fst c <> fst e.
Hypothesis HW : forall k v,
  h_tensors h !! k = Some v <-> In (k, v) (file_tensors comps embeds).
Hypothesis HM : forall k v,
  md !! k = Some v <-> In (k, v) (file_metadata py comps embeds).
Hypothesis Hkeys : forall k, In k (h_keys h) <-> is_Some (h_tensors h !! k).
Hypothesis Hkeys_once : NoDup (h_keys h).

Lemma same_component c c' : In c comps -> In c' comps -> fst c = fst c' -> c = c'.
Proof.
  destruct c as [n x], c' as [n' x']. cbn [fst]. intros Hc Hc' <-.
  f_equal. eapply NoDup_fst_functional; eauto.
Qed.

Lemma key_of_layer c i d :
  In c comps -> i < length (snd (snd c)) -> d = "up" \/ d = "down" ->
  In (lora_key (fst c) (Z.of_nat i) d) (h_keys h).
Proof.
  intros Hc Hi Hd. destruct (lookup_lt_is_Some_2 _ _ Hi) as [l Hl].
  apply Hkeys. exists (if String.eqb d "down" then snd (fst l) else fst (fst l)).
  apply HW, file_tensors_In. left. exists c, i, l. split; [exact Hc|]. split; [exact Hl|].
  destruct Hd as [->| ->]; auto.
Qed.

Lemma key_cases k :
  In k (h_keys h) ->
  (exists c, In c comps /\ In k (layer_keys (fst c) 0 (length (snd (snd c)))))
  \/ (exists t, In (k, t) embeds).
Proof.
  intros Hk. apply Hkeys in Hk. destruct Hk as [v Hv].
  apply HW, file_tensors_In in Hv. destruct Hv as [(c & j & l & Hc & Hl & H)|H].
  - left. exists c. split; [exact Hc|]. apply layer_keys_In.
    assert (j < length (snd (snd c))) by (apply lookup_lt_is_Some; eauto).
    destruct H as [[-> _]|[-> _]]; [exists j, "up" | exists j, "down"];
      repeat split; auto; lia.
  - right. eauto.
Qed.

Lemma layer_key_name c k :
  In c comps -> In k (layer_keys (fst c) 0 (length (snd (snd c)))) ->
  get_name k = fst c.
Proof.
  intros Hc Hk. apply layer_keys_In in Hk. destruct Hk as (j & d & _ & _ & ->).
  apply get_name_lora_key, Hcolon, Hc.
Qed.

Lemma token_name k t : In (k, t) embeds -> get_name k = k.
Proof. intros He. apply get_name_plain, (Htcolon _ He). Qed.

(** The two kinds of groups. *)
Lemma group_cases n ks :
  In (n, ks) (groupby_name (sort_by_name (h_keys h))) ->
  (exists c, In c comps /\ n = fst c
     /\ (forall k, In k ks <-> In k (layer_keys n 0 (length (snd (snd c)))))
     /\ length ks = 2 * length (snd (snd c)))
  \/ (exists t, In (n, t) embeds).
Proof.
  intros Hg. destruct (sorted_groups _ _ _ Hg) as [Hne Hks].
  destruct ks as [|k0 ks0] eqn:Eks; [congruence|]. rewrite <- Eks in *.
  assert (Hk0 : In k0 ks) by (rewrite Eks; now left).
  apply Hks in Hk0. destruct Hk0 as [Hk0 Hn0].
  destruct (key_cases _ Hk0) as [(c & Hc & Hlk)|[t Ht]].
  - left. exists c. rewrite (layer_key_name _ _ Hc Hlk) in Hn0. subst n.
    split; [exact Hc|]. split; [reflexivity|].
    assert (Hiff : forall k, In k ks <-> In k (layer_keys (fst c) 0 (length (snd (snd c))))).
    { intros k. rewrite Hks. split.
      - intros [Hk Hn]. destruct (key_cases _ Hk) as [(c' & Hc' & Hlk')|[t Ht]].
        + rewrite (layer_key_name _ _ Hc' Hlk') in Hn.
          now rewrite <- (same_component _ _ Hc' Hc Hn).
        + rewrite (token_name _ _ Ht) in Hn. subst k.
          destruct (Hapart c (fst c, t) Hc Ht eq_refl).
      - intros Hk. split; [|now apply layer_key_name].
        apply layer_keys_In in Hk. destruct Hk as (j & d & Hj & Hd & ->).
        apply key_of_layer; auto. lia. }
    split; [exact Hiff|].
    assert (Hnd : NoDup ks).
    { apply in_split in Hg. destruct Hg as (before & after & E).
      pose proof (groupby_name_concat (sort_by_name (h_keys h))) as Hc'.
      rewrite E, map_app, concat_app in Hc'. cbn [map concat snd] in Hc'.
      assert (Hs : NoDup (sort_by_name (h_keys h))).
      { rewrite sort_by_name_perm. exact Hkeys_once. }
      rewrite <- Hc' in Hs. apply NoDup_app in Hs. destruct Hs as (_ & _ & Hs).
      apply NoDup_app in Hs. tauto. }
    transitivity (length (layer_keys (fst c) 0 (length (snd (snd c))))).
    + apply Permutation_length, NoDup_Permutation; auto.
      * apply (layer_keys_NoDup py); auto.
      * intros k. rewrite !list_elem_of_In. apply Hiff.
    + apply layer_keys_length.
  - right. exists t. rewrite (token_name _ _ Ht) in Hn0. now subst n.
Qed.

Lemma component_facts c :
  In c comps ->
  md !! fst c = Some (json_dumps py (fst (snd c)))
  /\ (forall i l, snd (snd c) !! i = Some l ->
        md !! lora_key (fst c) (Z.of_nat i) "rank" = Some (py_str (Z.of_nat (snd l))))
  /\ (forall i l, snd (snd c) !! i = Some l ->
        h_tensors h !! lora_key (fst c) (Z.of_nat i) "up" = Some (fst (fst l)))
  /\ (forall i l, snd (snd c) !! i = Some l ->
        h_tensors h !! lora_key (fst c) (Z.of_nat i) "down" = Some (snd (fst l))).
Proof.
  intros Hc. split; [|split; [|split]].
  - apply HM, file_metadata_In. left. exists c. auto.
  - intros i l Hl. apply HM, file_metadata_In. left. exists c. split; [exact Hc|].
    right. eauto.
  - intros i l Hl. apply HW, file_tensors_In. left. exists c, i, l. auto.
  - intros i l Hl. apply HW, file_tensors_In. left. exists c, i, l. auto.
Qed.

Lemma parse_group_token loras n t ks :
  In (n, t) embeds -> parse_group py h loras (n, ks) = Ok loras.
Proof.
  intros He. unfold parse_group, metadata_get. cbn [fst snd]. rewrite Hmd. cbn [rbind].
  assert (Hn : md !! n = Some EMBED_FLAG).
  { apply HM, file_metadata_In. right. eauto. }
  rewrite Hn. reflexivity.
Qed.

Lemma parse_groups_read gs : forall acc,
  (forall g, In g gs -> In g (groupby_name (sort_by_name (h_keys h)))) ->
  (forall n v, acc !! n = Some v ->
     exists c, In c comps /\ fst c = n /\ v = read_back (fst (snd c)) (snd (snd c))) ->
  exists acc',
    foldR (parse_group py h) gs acc = Ok acc'
    /\ (forall n v, acc' !! n = Some v ->
          exists c, In c comps /\ fst c = n /\ v = read_back (fst (snd c)) (snd (snd c)))
    /\ (forall c, In c comps ->
          is_Some (acc !! fst c) \/ (exists ks, In (fst c, ks) gs) ->
          acc' !! fst c = Some (read_back (fst (snd c)) (snd (snd c)))).
Proof.
  induction gs as [|[n ks] gs IH]; intros acc Hgs Hacc.
  - exists acc. split; [reflexivity|]. split; [exact Hacc|].
    intros c Hc [[v Hv]|[ks []]]. rewrite Hv.
    destruct (Hacc _ _ Hv) as (c' & Hc' & Hn & ->).
    now rewrite (same_component _ _ Hc' Hc Hn).
  - cbn [foldR].
    destruct (group_cases n ks (Hgs _ (or_introl eq_refl)))
      as [(c0 & Hc0 & -> & Hks & Hlen)|[t Ht]].
    + destruct (component_facts c0 Hc0) as (Hinfo & Hrank & Hup & Hdown).
      rewrite (parse_group_component py Hpy h md (fst c0) (snd (snd c0)) Hmd
                 (Hcolon _ Hc0) Hrank Hup Hdown acc (fst (snd c0)) ks Hinfo Hks Hlen).
      cbn [rbind].
      destruct (IH (<[fst c0 := read_back (fst (snd c0)) (snd (snd c0))]> acc))
        as (acc' & Hrun & Hinv & Hall).
      * intros g Hg. apply Hgs. now right.
      * intros n v Hv. apply lookup_insert_Some in Hv.
        destruct Hv as [[<- <-]|[_ Hv]]; [eauto | now apply Hacc].
      * exists acc'. split; [exact Hrun|]. split; [exact Hinv|].
        intros c Hc Hcase. apply (Hall c Hc).
        destruct (decide (fst c0 = fst c)) as [E|E].
        -- left. rewrite E, lookup_insert_eq. eauto.
        -- destruct Hcase as [Hs|[ks' [[= E' _]|Hin]]].
           ++ left. now rewrite lookup_insert_ne.
           ++ congruence.
           ++ right. eauto.
    + rewrite (parse_group_token acc n t ks Ht). cbn [rbind].
      destruct (IH acc) as (acc' & Hrun & Hinv & Hall); auto.
      * intros g Hg. apply Hgs. now right.
      * exists acc'. split; [exact Hrun|]. split; [exact Hinv|].
        intros c Hc Hcase. apply (Hall c Hc).
        destruct Hcase as [Hs|[ks' [[= E' _]|Hin]]]; eauto.
        subst n. destruct (Hapart c (fst c, t) Hc Ht eq_refl).
Qed.

(** Every component comes back as it was written, and nothing else
    does. *)
Lemma read_file_loras :
  exists loras,
    parse_safeloras py h = Ok loras
    /\ (forall c, In c comps ->
          loras !! fst c = Some (read_back (fst (snd c)) (snd (snd c))))
    /\ (forall n, is_Some (loras !! n) -> In n (map fst comps)).
Proof.
  destruct (parse_groups_read (groupby_name (sort_by_name (h_keys h))) ∅)
    as (loras & Hrun & Hinv & Hall); auto.
  { intros n v Hv. now rewrite lookup_empty in Hv. }
  exists loras. split; [exact Hrun|]. split.
  - intros c Hc. apply (Hall c Hc). right.
    assert (Hk : In (lora_key (fst c) (Z.of_nat 0) "up") (sort_by_name (h_keys h))).
    { apply list_elem_of_In. rewrite sort_by_name_perm. apply list_elem_of_In.
      apply key_of_layer; auto. specialize (Hlayers c Hc).
      destruct (snd (snd c)); [congruence | cbn; lia]. }
    destruct (groupby_name_In _ _ Hk) as (before & ks & after & E & _).
    exists ks. rewrite E, (get_name_lora_key _ _ _ (Hcolon _ Hc)). apply in_elt.
  - intros n [v Hv]. destruct (Hinv _ _ Hv) as (c & Hc & <- & _). now apply in_map.
Qed.

Lemma layer_key_no_metadata c k :
  In c comps -> In k (layer_keys (fst c) 0 (length (snd (snd c)))) -> md !! k = None.
Proof.
  intros Hc Hk. apply layer_keys_In in Hk. destruct Hk as (j & d & _ & Hd & ->).
  assert (Hnc : has_char ":" d = false) by (destruct Hd as [->| ->]; reflexivity).
  apply eq_None_not_Some. intros [v Hv]. apply HM, file_metadata_In in Hv.
  destruct Hv as [(c' & Hc' & [[E _]|(j' & l & _ & E & _)])|(t & Ht & _)].
  - pose proof (Hcolon _ Hc') as H. rewrite <- E, lora_key_has_colon in H. discriminate.
  - apply (lora_key_inj py) in E; auto. destruct E as (_ & _ & ->).
    destruct Hd; discriminate.
  - pose proof (Htcolon _ Ht) as H. cbn [fst] in H.
    rewrite lora_key_has_colon in H. discriminate.
Qed.

Lemma same_token k t t' : In (k, t) embeds -> In (k, t') embeds -> t = t'.
Proof. apply NoDup_fst_functional, Htokens. Qed.

Lemma parse_embeds_read ks : forall acc : gmap string tensor,
  (forall k, In k ks -> In k (h_keys h)) ->
  (forall k v, acc !! k = Some v -> In (k, v) embeds) ->
  exists acc',
    foldR (fun embeds key =>
             meta <~ metadata_get h key ;;
             match meta with
             | Some meta =>
                 if String.eqb meta EmptyString || negb (String.eqb meta EMBED_FLAG)
                 then Ok embeds
                 else t <~ get_tensor h key ;; Ok (<[key := t]> embeds)
             | None => Ok embeds
             end) ks acc = Ok acc'
    /\ forall k v, acc' !! k = Some v <->
                   acc !! k = Some v \/ (In k ks /\ In (k, v) embeds).
Proof.
  set (body := fun (embeds : gmap string tensor) key => _).
  induction ks as [|k ks IH]; intros acc Hks Hacc.
  - exists acc. split; [reflexivity|]. intros k v. cbn [In]. tauto.
  - cbn [foldR].
    destruct (key_cases k (Hks k (or_introl eq_refl))) as [(c & Hc & Hlk)|[t Ht]].
    + assert (Hstep : body acc k = Ok acc).
      { unfold body, metadata_get. rewrite Hmd. cbn [rbind].
        now rewrite (layer_key_no_metadata c k Hc Hlk). }
      rewrite Hstep. cbn [rbind].
      destruct (IH acc) as (acc' & Hrun & Hiff); auto.
      { intros k' Hk'. apply Hks. now right. }
      exists acc'. split; [exact Hrun|]. intros k' v. rewrite Hiff. cbn [In].
      split; [tauto|]. intros [H|[[<-|H] He]]; auto.
      exfalso. pose proof (Htcolon _ He) as Hno. cbn [fst] in Hno.
      apply layer_keys_In in Hlk. destruct Hlk as (j & d & _ & _ & ->).
      rewrite lora_key_has_colon in Hno. discriminate.
    + assert (Hstep : body acc k = Ok (<[k := t]> acc)).
      { assert (Hn : md !! k = Some EMBED_FLAG).
        { apply HM, file_metadata_In. right. eauto. }
        assert (Ht' : h_tensors h !! k = Some t).
        { apply HW, file_tensors_In. now right. }
        unfold body, metadata_get, get_tensor. rewrite Hmd. cbn [rbind].
        rewrite Hn, Ht'. reflexivity. }
      rewrite Hstep. cbn [rbind].
      destruct (IH (<[k := t]> acc)) as (acc' & Hrun & Hiff).
      { intros k' Hk'. apply Hks. now right. }
      { intros k' v Hv. apply lookup_insert_Some in Hv.
        destruct Hv as [[<- <-]|[_ Hv]]; auto. }
      exists acc'. split; [exact Hrun|]. intros k' v. rewrite Hiff, lookup_insert_Some.
      cbn [In]. split.
      * intros [[[<- <-]|[_ H]]|[H He]]; auto.
      * intros [H|[[<-|H] He]]; auto.
        -- destruct (decide (k = k')) as [<-|Hne]; auto.
           left. left. split; [reflexivity|]. apply (same_token k); auto.
        -- left. left. split; [reflexivity|]. apply (same_token k); auto.
Qed.

(** The embeds come back, each under its token, and nothing else does. *)
Lemma read_file_embeds : parse_safeloras_embeds h = Ok (list_to_map embeds).
Proof.
  unfold parse_safeloras_embeds.
  destruct (parse_embeds_read (h_keys h) ∅) as (res & -> & Hiff); auto.
  { intros k v Hv. now rewrite lookup_empty in Hv. }
  f_equal. apply map_eq. intros k. apply option_eq. intros v.
  rewrite Hiff, lookup_empty, <- elem_of_list_to_map, list_elem_of_In.
  - split; [intros [[=]|[_ H]]; exact H|]. intros He. right. split; [|exact He].
    apply Hkeys. exists v. apply HW, file_tensors_In. now right.
  - exact Htokens.
Qed.

End ReadFile.
(** *** What the writer writes *)

Lemma put_all_lookup {V} (l : list (string * V)) k v :
  (forall k v v', In (k, v) l -> In (k, v') l -> v = v') ->
  foldl put ∅ l !! k = Some v <-> In (k, v) l.
Proof.
  revert k v. induction l as [|e l IH] using rev_ind; intros k v Hfun.
  - cbn. rewrite lookup_empty. split; [discriminate | contradiction].
  - rewrite foldl_app. cbn [foldl]. unfold put at 1. rewrite lookup_insert_Some.
    rewrite in_app_iff. cbn [In]. rewrite IH.
    + split.
      * intros [[<- <-]|[_ H]]; [right; left; now destruct e | now left].
      * intros [H|[E|[]]]; [|subst e; now left].
        destruct (decide (fst e = k)) as [<-|Hne]; [|now right].
        left. split; [reflexivity|]. apply (Hfun (fst e)).
        -- apply in_app_iff. right. left. now destruct e.
        -- apply in_app_iff. now left.
    + intros k' v1 v2 H1 H2. apply (Hfun k'); apply in_app_iff; now left.
Qed.

Section Writer.
Variable py : builtins.

Lemma save_layers_entries name loras : forall i0 wm wm',
  foldR (save_layer name) (imap (fun i ud => (i0 + i, ud)) loras) wm = Ok wm' ->
  exists ls,
    mapR layer_content loras = Ok ls
    /\ fst wm' = foldl put (fst wm) (tensor_entries name i0 ls)
    /\ snd wm' = foldl put (snd wm) (rank_entries name i0 ls).
Proof.
  induction loras as [|ud loras IH]; intros i0 wm wm'; cbn [imap foldR mapR].
  - intros [= <-]. exists []. auto.
  - unfold save_layer at 1, layer_content at 1. cbn [fst snd].
    destruct (rank_of (snd ud)) as [rank|]; cbn [rbind]; [|discriminate].
    destruct (weight_of (fst ud)) as [upw|]; cbn [rbind]; [|discriminate].
    destruct (weight_of (snd ud)) as [downw|]; cbn [rbind]; [|discriminate].
    rewrite (imap_ext _ (fun i ud => (S i0 + i, ud))); [|intros; cbn; f_equal; lia].
    intros H. apply IH in H. destruct H as (ls & -> & Hw & Hm). cbn [fst snd] in *.
    exists ((pdata upw, pdata downw, rank) :: ls). split; [reflexivity|].
    rewrite Hw, Hm, Nat.add_0_r. split; reflexivity.
Qed.

Lemma mapR_length {A B} (f : A -> result B) l : forall bs,
  mapR f l = Ok bs -> length bs = length l.
Proof.
  induction l as [|a l IH]; intros bs; cbn [mapR].
  - now intros [= <-].
  - destruct (f a); cbn [rbind]; [|discriminate].
    destruct (mapR f l) as [bs'|]; cbn [rbind]; [|discriminate].
    intros [= <-]. cbn. now rewrite (IH _ eq_refl).
Qed.

Lemma save_component_entries wm item wm' :
  save_component py wm item = Ok wm' ->
  exists ls,
    component_content (fst (snd item)) (snd (snd item)) = Ok ls
    /\ ls <> []
    /\ fst wm' = foldl put (fst wm) (tensor_entries (fst item) 0 ls)
    /\ snd wm' = foldl put (snd wm)
                   ((fst item, json_dumps py (snd (snd item)))
                    :: rank_entries (fst item) 0 ls).
Proof.
  unfold save_component, component_content.
  destruct (extract_lora_ups_down _ _) as [loras|] eqn:E; cbn [rbind]; [|discriminate].
  intros H. apply (save_layers_entries _ _ 0) in H.
  destruct H as (ls & Hls & Hw & Hm). exists ls. split; [exact Hls|].
  split; [|split; assumption].
  intros ->. apply mapR_length in Hls.
  unfold extract_lora_ups_down in E.
  destruct (mapR _ _) as [loras'|]; cbn [rbind] in E; [|discriminate].
  destruct (length loras' =? 0) eqn:El; [discriminate|].
  injection E as ->. apply Nat.eqb_neq in El. cbn in Hls. congruence.
Qed.

Lemma save_components_entries items : forall wm wm',
  foldR (save_component py) items wm = Ok wm' ->
  exists comps,
    Forall2 component_of items comps
    /\ (forall c, In c comps -> snd (snd c) <> [])
    /\ fst wm' = foldl put (fst wm)
                   (flat_map (fun c => tensor_entries (fst c) 0 (snd (snd c))) comps)
    /\ snd wm' = foldl put (snd wm)
                   (flat_map (fun c => (fst c, json_dumps py (fst (snd c)))
                                       :: rank_entries (fst c) 0 (snd (snd c))) comps).
Proof.
  induction items as [|item items IH]; intros wm wm'; cbn [foldR].
  - intros [= <-]. exists []. split; [constructor|]. split; [intros c []|].
    split; reflexivity.
  - destruct (save_component py wm item) as [wm1|] eqn:E; cbn [rbind]; [|discriminate].
    apply save_component_entries in E. destruct E as (ls & Hls & Hne & Hw & Hm).
    intros H. apply IH in H. destruct H as (comps & Hall & Hnes & Hw' & Hm').
    exists ((fst item, (snd (snd item), ls)) :: comps).
    split; [constructor; [repeat split; auto | exact Hall]|].
    split; [intros c [<-|Hc]; auto|].
    cbn [flat_map fst snd]. rewrite !foldl_app, <- Hw, Hw'. split; [reflexivity|].
    rewrite Hm', Hm. reflexivity.
Qed.

Lemma save_embeds_entries embeds : forall wm,
  foldl save_embed wm embeds
  = (foldl put (fst wm) embeds,
     foldl put (snd wm) (map (fun e => (fst e, EMBED_FLAG)) embeds)).
Proof.
  induction embeds as [|e embeds IH]; intros wm; cbn [foldl map].
  - now destruct wm.
  - rewrite IH. reflexivity.
Qed.

(** The file is the entries of its components and embeds, written one
    after the other into empty dictionaries. *)
Lemma save_entries items embeds path f :
  save_safeloras_with_embeds py (Some (ModelMap items)) (Some embeds) path = Ok f ->
  exists comps,
    Forall2 component_of items comps
    /\ (forall c, In c comps -> snd (snd c) <> [])
    /\ f_tensors f = foldl put ∅ (file_tensors comps embeds)
    /\ f_metadata f = foldl put ∅ (file_metadata py comps embeds).
Proof.
  unfold save_safeloras_with_embeds, default, from_option, id.
  destruct (foldR (save_component py) items (∅, ∅)) as [wm|] eqn:E;
    cbn [rbind]; [|discriminate].
  intros [= <-]. cbn [f_tensors f_metadata].
  apply save_components_entries in E. destruct E as (comps & Hall & Hne & Hw & Hm).
  exists comps. split; [exact Hall|]. split; [exact Hne|].
  rewrite save_embeds_entries. cbn [fst snd] in *.
  unfold file_tensors, file_metadata. rewrite !foldl_app, Hw, Hm. split; reflexivity.
Qed.

End Writer.

(** *** No entry of a file is written twice *)

Section Entries.
Variable py : builtins.
Hypothesis Hpy : builtins_ok py.
Variable comps : list (string * (list string * list (tensor * tensor * nat))).
Variable embeds : list (string * tensor).
Hypothesis Hnames : NoDup (map fst comps).
Hypothesis Hcolon : forall c, In c comps -> has_char ":" (fst c) = false.
Hypothesis Htokens : NoDup (map fst embeds).
Hypothesis Htcolon : forall e, In e embeds -> has_char ":" (fst e) = false.
Hypothesis Hapart : forall c e, In c comps -> In e embeds -> fst c <> fst e.

Lemma same_layer c c' j j' d d' :
  In c comps -> In c' comps ->
  has_char ":" d = false -> has_char ":" d' = false ->
  lora_key (fst c) (Z.of_nat j) d = lora_key (fst c') (Z.of_nat j') d' ->
  c = c' /\ j = j' /\ d = d'.
Proof.
  intros Hc Hc' Hd Hd' E. apply (lora_key_inj py) in E; auto.
  destruct E as (En & Ej & Ed). split; [|split; [lia | exact Ed]].
  destruct c as [n x], c' as [n' x']. cbn [fst] in En. subst n'.
  f_equal. eapply NoDup_fst_functional; eauto.
Qed.

Lemma token_not_key c j d t :
  In c comps -> In (lora_key (fst c) j d, t) embeds -> False.
Proof.
  intros Hc He. pose proof (Htcolon _ He) as H. cbn [fst] in H.
  rewrite lora_key_has_colon in H. discriminate.
Qed.

Lemma file_tensors_functional k v v' :
  In (k, v) (file_tensors comps embeds) -> In (k, v') (file_tensors comps embeds) ->
  v = v'.
Proof.
  rewrite !file_tensors_In.
  intros [(c & j & l & Hc & Hl & H)|H] [(c' & j' & l' & Hc' & Hl' & H')|H'].
  - destruct H as [[-> ->]|[-> ->]], H' as [[E ->]|[E ->]];
      apply same_layer in E; auto; destruct E as (<- & <- & E);
      try discriminate; congruence.
  - exfalso. destruct H as [[-> _]|[-> _]]; eapply token_not_key; eauto.
  - exfalso. destruct H' as [[-> _]|[-> _]]; eapply token_not_key; eauto.
  - eapply NoDup_fst_functional; eauto.
Qed.

Lemma file_metadata_functional k v v' :
  In (k, v) (file_metadata py comps embeds) ->
  In (k, v') (file_metadata py comps embeds) -> v = v'.
Proof.
  rewrite !file_metadata_In.
  intros [(c & Hc & [[-> ->]|(j & l & Hl & -> & ->)])|(t & Ht & ->)]
         [(c' & Hc' & [[E ->]|(j' & l' & Hl' & E & ->)])|(t' & Ht' & ->)].
  - destruct c as [n x], c' as [n' x']. cbn [fst] in E. subst n'.
    now rewrite (NoDup_fst_functional _ _ _ _ Hnames Hc Hc').
  - exfalso. pose proof (Hcolon _ Hc) as H. rewrite E, lora_key_has_colon in H.
    discriminate.
  - destruct (Hapart c (fst c, t') Hc Ht' eq_refl).
  - exfalso. pose proof (Hcolon _ Hc') as H. rewrite <- E, lora_key_has_colon in H.
    discriminate.
  - apply same_layer in E; auto. destruct E as (<- & <- & _). congruence.
  - exfalso. eapply token_not_key; eauto.
  - subst k. destruct (Hapart c' (fst c', t) Hc' Ht eq_refl).
  - exfalso. subst k. eapply token_not_key; eauto.
  - reflexivity.
Qed.

End Entries.
(** *** Written, then read *)

Lemma component_of_names items comps :
  Forall2 component_of items comps -> map fst comps = map fst items.
Proof.
  induction 1 as [|item c items comps (Hn & _) _ IH]; cbn [map]; [reflexivity|].
  now rewrite Hn, IH.
Qed.

Lemma component_of_In items comps name model target :
  Forall2 component_of items comps -> In (name, (model, target)) items ->
  exists layers, In (name, (target, layers)) comps
                 /\ component_content model target = Ok layers.
Proof.
  induction 1 as [|item c items comps (Hn & Ht & Hc) _ IH]; cbn [In]; [contradiction|].
  intros [->|Hin].
  - destruct c as [n [t ls]]. cbn [fst snd] in *. subst. exists ls. auto.
  - destruct (IH Hin) as (layers & H1 & H2). eauto.
Qed.

Lemma opens_keys f h :
  opens f h ->
  NoDup (h_keys h) /\ forall k, In k (h_keys h) <-> is_Some (h_tensors h !! k).
Proof.
  intros (Ht & _ & Hk). split.
  - rewrite Hk. apply NoDup_fst_map_to_list.
  - intros k. rewrite <- list_elem_of_In, Hk, Ht, list_elem_of_fmap. split.
    + intros ([k' v] & -> & H). apply elem_of_map_to_list in H. eauto.
    + intros [v Hv]. exists (k, v). split; [reflexivity|].
      now apply elem_of_map_to_list.
Qed.

(** C2.  A bundle whose component names and tokens are free of the colon,
    and whose tokens are not also component names, is read back as it
    was written: for every component [parse_safeloras] returns the
    weights of its layers in the order (up, down, up, down, ...), their
    ranks, and its target list; it returns nothing under any other name;
    and [parse_safeloras_embeds] returns exactly the embeds, each under
    its token. *)
Theorem container_round_trip py items embeds path f h :
  builtins_ok py ->
  NoDup (map fst items) ->
  NoDup (map fst embeds) ->
  (forall name, In name (map fst items ++ map fst embeds) ->
     has_char ":" name = false) ->
  (forall name, In name (map fst items) -> ~ In name (map fst embeds)) ->
  save_safeloras_with_embeds py (Some (ModelMap items)) (Some embeds) path = Ok f ->
  opens f h ->
  exists loras,
    parse_safeloras py h = Ok loras
    /\ (forall name model target, In (name, (model, target)) items ->
          exists layers,
            component_content model target = Ok layers
            /\ loras !! name = Some (read_back target layers))
    /\ (forall name, is_Some (loras !! name) -> In name (map fst items))
    /\ parse_safeloras_embeds h = Ok (list_to_map embeds).
Proof.
  intros Hpy Hnames Htokens Hcolon Hapart Hsave Hopen.
  destruct (save_entries py items embeds path f Hsave)
    as (comps & Hall & Hne & HWf & HMf).
  pose proof (component_of_names _ _ Hall) as Hnm.
  destruct (opens_keys f h Hopen) as [Hkeys_once Hkeys].
  destruct Hopen as (Ht & Hm & _).
  assert (Hnames' : NoDup (map fst comps)) by now rewrite Hnm.
  assert (Hcolon' : forall c, In c comps -> has_char ":" (fst c) = false).
  { intros c Hc. apply Hcolon, in_app_iff. left. rewrite <- Hnm. now apply in_map. }
  assert (Htcolon : forall e, In e embeds -> has_char ":" (fst e) = false).
  { intros e He. apply Hcolon, in_app_iff. right. now apply in_map. }
  assert (Hapart' : forall c e, In c comps -> In e embeds -> fst c <> fst e).
  { intros c e Hc He E. apply (Hapart (fst c)).
    - rewrite <- Hnm. now apply in_map.
    - rewrite E. now apply in_map. }
  assert (HW : forall k v, h_tensors h !! k = Some v
                           <-> In (k, v) (file_tensors comps embeds)).
  { intros k v. rewrite Ht, HWf. apply put_all_lookup.
    apply (file_tensors_functional py Hpy); auto. }
  assert (HM : forall k v, f_metadata f !! k = Some v
                           <-> In (k, v) (file_metadata py comps embeds)).
  { intros k v. rewrite HMf. apply put_all_lookup.
    apply (file_metadata_functional py Hpy); auto. }
  destruct (read_file_loras py Hpy comps embeds h (f_metadata f) Hm Hnames' Hcolon'
              Hne Htcolon Hapart' HW HM Hkeys Hkeys_once)
    as (loras & Hrun & Hall' & Hdom).
  exists loras. split; [exact Hrun|]. split; [|split].
  - intros name model target Hin.
    destruct (component_of_In _ _ _ _ _ Hall Hin) as (layers & Hc & Hcontent).
    exists layers. split; [exact Hcontent|]. exact (Hall' _ Hc).
  - intros name Hs. rewrite <- Hnm. now apply Hdom.
  - eapply read_file_embeds; eauto.
Qed.
(** *** The plain builtins keep the contract *)

Lemma int_of_decimal_py_str z : int_of_decimal (py_str z) = Some z.
Proof.
  unfold int_of_decimal, py_str. rewrite DecimalString.NilZero.isi.
  - cbn [option_map]. now rewrite DecimalZ.of_to.
  - destruct z; cbn; try discriminate.
    intros [= H]. exact (DecimalPos.Unsigned.to_uint_nonnil _ H).
  - destruct z; cbn; try discriminate.
    intros [= H]. exact (DecimalPos.Unsigned.to_uint_nonnil _ H).
Qed.

Lemma append_assoc (a b c : string) : (a +:+ b) +:+ c = a +:+ (b +:+ c).
Proof.
  induction a as [|x a IH]; [reflexivity|].
  change (String x a +:+ b) with (String x (a +:+ b)).
  change (String x (a +:+ b) +:+ c) with (String x ((a +:+ b) +:+ c)).
  now rewrite IH.
Qed.

Lemma jrun_app st s1 s2 : jrun st (s1 +:+ s2) = jrun (jrun st s1) s2.
Proof.
  revert st. induction s1 as [|c s1 IH]; intros st; [reflexivity|].
  change (String c s1 +:+ s2) with (String c (s1 +:+ s2)). cbn [jrun]. apply IH.
Qed.

Ltac jsteps :=
  repeat progress
    (cbn [jrun jstep orb];
     try change (Ascii.eqb backslash dquote) with false;
     try change (Ascii.eqb dquote backslash) with false;
     try change (Ascii.eqb backslash backslash) with true;
     try change (Ascii.eqb dquote dquote) with true;
     try change (Ascii.eqb dquote "]") with false;
     try change (Ascii.eqb "," ",") with true;
     try change (Ascii.eqb " " " ") with true;
     try change (Ascii.eqb "[" "[") with true;
     cbv iota).

Lemma jrun_escape items s : forall acc,
  jrun (JIn items acc) (json_escape s) = JIn items (acc +:+ s).
Proof.
  induction s as [|c s IH]; intros acc; cbn [json_escape jrun].
  - f_equal. induction acc as [|x acc IHa]; [reflexivity|].
    change (String x acc +:+ EmptyString) with (String x (acc +:+ EmptyString)).
    now rewrite <- IHa.
  - destruct (Ascii.eqb c dquote) eqn:Eq; cbn [orb].
    + apply Ascii.eqb_eq in Eq. subst c. jsteps.
      rewrite IH, append_assoc. reflexivity.
    + destruct (Ascii.eqb c backslash) eqn:Eb.
      * apply Ascii.eqb_eq in Eb. subst c. jsteps.
        rewrite IH, append_assoc. reflexivity.
      * cbn [jrun jstep]. rewrite Eq, Eb, IH, append_assoc. reflexivity.
Qed.

Lemma jrun_quote_items items s :
  jrun (JSpace items) (json_quote s) = JAfter (items ++ [s]).
Proof.
  unfold json_quote. jsteps. rewrite jrun_app, jrun_escape. jsteps. reflexivity.
Qed.

Lemma jrun_quote_first s : jrun JOpen (json_quote s) = JAfter [s].
Proof.
  unfold json_quote. jsteps. rewrite jrun_app, jrun_escape. jsteps. reflexivity.
Qed.

Lemma jrun_items l : forall s items,
  jrun (JSpace items) (json_items (s :: l)) = JAfter (items ++ s :: l).
Proof.
  induction l as [|s' l IH]; intros s items.
  - apply jrun_quote_items.
  - change (json_items (s :: s' :: l))
      with (json_quote s +:+ ", " +:+ json_items (s' :: l)).
    rewrite jrun_app, jrun_quote_items, jrun_app. jsteps.
    rewrite IH, <- app_assoc. reflexivity.
Qed.

Lemma jrun_items_first s l : jrun JOpen (json_items (s :: l)) = JAfter (s :: l).
Proof.
  destruct l as [|s' l].
  - apply jrun_quote_first.
  - change (json_items (s :: s' :: l))
      with (json_quote s +:+ ", " +:+ json_items (s' :: l)).
    rewrite jrun_app, jrun_quote_first, jrun_app. jsteps.
    now rewrite jrun_items.
Qed.

Lemma loads_dumps_strings l :
  loads_strings (dumps_strings l) = Some (JArray (map JString l)).
Proof.
  unfold loads_strings, dumps_strings. jsteps. rewrite jrun_app. destruct l as [|s l].
  - reflexivity.
  - rewrite jrun_items_first. reflexivity.
Qed.

Lemma plain_builtins_ok : builtins_ok plain_builtins.
Proof.
  constructor.
  - exact loads_dumps_strings.
  - intros l. eexists. reflexivity.
  - exact int_of_decimal_py_str.
Qed.
Lemma opens_open_file f : opens f (open_file f).
Proof. split; [reflexivity|]. split; reflexivity. Qed.

Lemma container_round_trip_witness :
  exists loras,
    parse_safeloras plain_builtins (open_file ex_file) = Ok loras
    /\ (forall name model target, In (name, (model, target)) ex_items ->
          exists layers,
            component_content model target = Ok layers
            /\ loras !! name = Some (read_back target layers))
    /\ (forall name, is_Some (loras !! name) -> In name (map fst ex_items))
    /\ parse_safeloras_embeds (open_file ex_file) = Ok (list_to_map ex_embeds).
Proof.
  apply (container_round_trip plain_builtins ex_items ex_embeds "./lora.safetensors"
           ex_file (open_file ex_file)).
  - exact plain_builtins_ok.
  - apply (bool_decide_unpack _). vm_compute. exact I.
  - apply (bool_decide_unpack _). vm_compute. exact I.
  - intros name [<-|[<-|[]]]; reflexivity.
  - intros name [<-|[]] [E|[]]. discriminate.
  - vm_compute. reflexivity.
  - apply opens_open_file.
Defined.

(** C2 as written fails: a component named with a colon is written
    without complaint, and the file cannot be read back:
    [parse_safeloras] looks for the metadata of [text], finds none, and
    raises. *)
Lemma round_trip_fails_on_colon_name :
  save_safeloras_with_embeds plain_builtins (Some (ModelMap ex_colon_items))
    (Some []) "./lora.safetensors" = Ok ex_colon_file
  /\ opens ex_colon_file (open_file ex_colon_file)
  /\ parse_safeloras plain_builtins (open_file ex_colon_file)
     = Raise (ValueError NoMetadata).
Proof.
  split; [vm_compute; reflexivity|]. split; [apply opens_open_file|].
  vm_compute. reflexivity.
Qed.
(** ** Collapse, then remove (C6) *)

(** *** Sums and tables *)










Lemma length_table {A} (f : nat -> nat -> A) m N s :
  length (flat_map (fun n => map (fun j => f n j) (seq 0 m)) (seq s N)) = N * m.
Proof.
  rewrite (length_flat_map_const m); [now rewrite length_seq|].
  intros. now rewrite length_map, length_seq.
Qed.






(** *** Dense layers *)



(** *** Convolutions over one group *)






(** The storage of a batch of images: [N] images of [Co] channels of
    [Ho] rows of [Wo] entries. *)
Lemma length_images {A} (f : nat -> nat -> nat -> nat -> A) (N Co Ho Wo : nat) :
  length (flat_map (fun n =>
            flat_map (fun o =>
              flat_map (fun i => map (fun j => f n o i j) (seq 0 Wo)) (seq 0 Ho))
              (seq 0 Co))
            (seq 0 N))
  = N * (Co * (Ho * Wo)).
Proof.
  rewrite (length_flat_map_const (Co * (Ho * Wo))); [now rewrite length_seq|].
  intros n. rewrite (length_flat_map_const (Ho * Wo)); [now rewrite length_seq|].
  intros o. apply length_table.
Qed.













Lemma ex_lora_pointwise_wf :
  lora_conv_wf ex_lora_pointwise
  /\ Conv2d.groups (LoraInjectedConv2d.conv ex_lora_pointwise) = 1.
Proof. split; [exists 1; repeat split | reflexivity]. Qed.

(** *** Convolutions over groups *)

(** C6 fails on the code for a convolution over more than one group
    (it holds for dense layers and for convolutions over one group, see
    [collapse_remove_linear] and [collapse_remove_conv]).
    [LoraInjectedConv2d] hands [groups] to [lora_down], so in the
    augmented layer every output channel of [lora_up] reads all the
    channels of the input; [collapse_lora] adds the product of the
    flattened kernels to the base weight as if [groups] were one, and in
    the collapsed layer every output channel reads the channels of its
    own group only.  On the block [ex_resnet] (two channels, two groups,
    rank two, kernels of size one, all weights one, scale one, dropout
    inactive) and the image [(1, 10)] the augmented layer gives
    [(12, 21)]; after [collapse_lora(model, 1)] and
    [monkeypatch_remove_lora(model)] the plain layer gives [(3, 30)]. *)
Theorem collapse_remove_differs_on_groups :
  forward (fun _ => sequential) eval_mask ex_resnet ex_image
  = Ok (Tensor [2; 1; 1] [12; 21]%Z)
  /\ (x <~ collapse_lora ex_resnet 1 ex_world ;;
      y <~ monkeypatch_remove_lora (fst x) (snd x) ;;
      forward (fun _ => sequential) eval_mask (fst y) ex_image)
     = Ok (Tensor [2; 1; 1] [3; 30]%Z).
Proof. split; vm_compute; reflexivity. Qed.
(** ** The fuel of the traversal

    [for_find_modules] never runs out of fuel: the depth of the tree
    bounds the nesting of [walk], whatever the body does, as long as the
    body returns layers. *)

Lemma bind_not_raise {A B} (c : M A) (k : A -> M B) (w : world) (e : exn) :
  c w <> Raise e -> (forall a w', k a w' <> Raise e) -> bind c k w <> Raise e.
Proof.
  intros Hc Hk. unfold bind. destruct (c w) as [[a w']|e']; [apply Hk | congruence].
Qed.

Lemma bind_not_raise_run {A B} (c : M A) (k : A -> M B) (w : world) (e : exn) :
  c w <> Raise e -> (forall a w', c w = Ok (a, w') -> k a w' <> Raise e) ->
  bind c k w <> Raise e.
Proof.
  intros Hc Hk. unfold bind. destruct (c w) as [[a w']|e']; [now apply Hk | congruence].
Qed.

Lemma depth_pos m : 0 < depth m.
Proof. destruct m; cbn; lia. Qed.

Lemma mapM_children_not_raise {St} (e : exn)
    (f : string -> module -> St -> M (module * St)) (l : list (string * module)) :
  (forall nc, In nc l -> forall s w, f (fst nc) (snd nc) s w <> Raise e) ->
  forall s w, mapM_children f l s w <> Raise e.
Proof.
  induction l as [|nc l IH]; intros Hf s w; cbn [mapM_children].
  - discriminate.
  - apply bind_not_raise; [apply Hf; now left|]. intros x w1.
    apply bind_not_raise; [apply IH; intros; apply Hf; now right|].
    intros y w2. discriminate.
Qed.

Lemma depth_children cls children children' :
  Forall2 (fun nc nc' => fst nc = fst nc' /\ depth (snd nc') = depth (snd nc))
    children children' ->
  depth (mOther cls children') = depth (mOther cls children).
Proof.
  intros H. cbn [depth]. f_equal.
  induction H as [|nc nc' l l' [_ Hd] _ IH]; cbn [foldr]; [reflexivity|].
  now rewrite Hd, IH.
Qed.

Lemma depth_child cls children nc :
  In nc children -> depth (snd nc) < depth (mOther cls children).
Proof.
  cbn [depth]. induction children as [|nc' l IH]; cbn [foldr In]; [contradiction|].
  intros [->|H]; [lia|]. specialize (IH H). lia.
Qed.

Lemma depth_layer m :
  (forall cls children, m <> mOther cls children) -> depth m = 1.
Proof. intros H. destruct m; try reflexivity. now destruct (H cls children). Qed.

Section Fuel.
Context {St : Type}.
Variable tags : option (list string).
Variable search : list layer_class.
Variable body : string -> module -> St -> M (outcome * St).
Variable self_install : exn.

Hypothesis self_install_other : self_install <> RecursionError.
Hypothesis body_other : forall n m s w, body n m s w <> Raise RecursionError.
Hypothesis body_layer : forall n m s w o s' w',
  body n m s w = Ok (o, s', w') ->
  forall cls children, now_at o <> mOther cls children.
Hypothesis body_kept_leaf : forall n m s w m' s' w',
  named_children m = [] -> body n m s w = Ok (Kept m', s', w') ->
  named_children m' = [].

Lemma visit_not_recursion m :
  forall n s w, visit search body n m s w <> Raise RecursionError.
Proof.
  induction m as [l|c|d|l|l|cls children IH] using module_tree_ind;
    intros n s w; rewrite visit_eq;
    match goal with
    | |- context [isinstance_any ?m search] => destruct (isinstance_any m search)
    end;
    try (unfold ret; discriminate);
    try (apply bind_not_raise; [apply body_other | intros; discriminate]).
  apply bind_not_raise; [|intros; discriminate].
  apply mapM_children_not_raise. rewrite List.Forall_forall in IH.
  intros nc Hin s0 w0. now apply IH.
Qed.

Lemma visit_depth m :
  forall n s w m' s' w',
    visit search body n m s w = Ok (m', s', w') -> depth m' = depth m.
Proof.
  induction m as [l|c|d|l|l|cls children IH] using module_tree_ind;
    intros n s w m' s' w' H; rewrite visit_eq in H;
    match type of H with
    | context [isinstance_any ?m search] =>
        destruct (isinstance_any m search) eqn:E
    end;
    try (inv_ret H; reflexivity);
    try (inv_bind H; destruct a as [o s1]; cbn [fst snd] in H; inv_ret H;
         apply depth_layer; eapply body_layer; eassumption).
  - now rewrite isinstance_any_container in E.
  - inv_bind H. destruct a as [ch s1]. cbn [fst snd] in H. inv_ret H.
    apply depth_children.
    destruct (mapM_children_Ok (visit search body) (fun c c' => depth c' = depth c)
                (fun _ _ => True) children s w ch s' w') as [HF _];
      [|exact I|exact Hrun|exact HF].
    intros nc Hin s0 w0 c' s0' w0' _ Hv. split; [|exact I].
    rewrite List.Forall_forall in IH. eapply IH; eauto.
Qed.

Lemma as_ancestor_not_recursion m s w :
  as_ancestor search body self_install m s w <> Raise RecursionError.
Proof.
  unfold as_ancestor. destruct (isinstance_any m search).
  - destruct (isinstance_any m default_exclude); [discriminate|].
    apply bind_not_raise; [apply body_other|].
    intros [[m1|m1] s1] w1; cbn; unfold raise, ret; congruence.
  - destruct m; try discriminate.
    apply bind_not_raise; [|intros; discriminate].
    apply mapM_children_not_raise. intros nc _ s0 w0. apply visit_not_recursion.
Qed.
Lemma as_ancestor_shape m s w m1 s1 w1 :
  as_ancestor search body self_install m s w = Ok (m1, s1, w1) ->
  depth m1 = depth m
  /\ (named_children m = [] -> named_children m1 = []).
Proof.
  unfold as_ancestor. destruct (isinstance_any m search) eqn:E.
  - destruct (isinstance_any m default_exclude).
    + intros H. inv_ret H. auto.
    + intros H. inv_bind H. destruct a as [[m2|m2] s2]; cbn [fst snd] in H;
        [discriminate|]. inv_ret H. split.
      * rewrite (depth_layer m1) by (eapply (body_layer _ _ _ _ (Kept m1)); eauto).
        symmetry. apply depth_layer. intros cls ch ->.
        now rewrite isinstance_any_container in E.
      * intros Hleaf. eapply body_kept_leaf; eauto.
  - destruct m as [l|c|d|l|l|cls children]; try (intros H; inv_ret H; auto).
    intros H. inv_bind H. destruct a as [ch s2]. cbn [fst snd] in H. inv_ret H.
    split.
    + apply depth_children.
      destruct (mapM_children_Ok (visit search body) (fun c c' => depth c' = depth c)
                  (fun _ _ => True) children s w ch s1 w1) as [HF _];
        [|exact I|exact Hrun|exact HF].
      intros nc Hin s0 w0 c' s0' w0' _ Hv. split; [|exact I].
      eapply visit_depth; eauto.
    + cbn [named_children]. intros ->. cbn in Hrun. now inv_ret Hrun.
Qed.

Lemma ancestor_step_shape m s w m1 s1 w1 :
  (if is_ancestor tags m then as_ancestor search body self_install m s else ret (m, s)) w
  = Ok (m1, s1, w1) ->
  depth m1 = depth m /\ (named_children m = [] -> named_children m1 = []).
Proof.
  destruct (is_ancestor tags m); [apply as_ancestor_shape|].
  intros H. inv_ret H. auto.
Qed.

Lemma ancestor_step_not_recursion m s w :
  (if is_ancestor tags m then as_ancestor search body self_install m s else ret (m, s)) w
  <> Raise RecursionError.
Proof.
  destruct (is_ancestor tags m); [apply as_ancestor_not_recursion | discriminate].
Qed.

Lemma walk_leaf_fuel fuel m s w :
  named_children m = [] ->
  walk tags search body self_install (S fuel) m s w <> Raise RecursionError.
Proof.
  intros Hleaf. rewrite walk_eq.
  apply bind_not_raise_run; [apply ancestor_step_not_recursion|].
  intros [m1 s1] w1 Hrun. apply ancestor_step_shape in Hrun.
  destruct Hrun as [_ Hl]. specialize (Hl Hleaf). cbn [fst snd].
  destruct m1; cbn [named_children] in Hl; try rewrite Hl; cbn; discriminate.
Qed.

(** With more fuel than the tree is deep, the walk does not stop for
    want of fuel. *)
Lemma walk_fuel_enough fuel : forall m s w,
  depth m < fuel ->
  walk tags search body self_install fuel m s w <> Raise RecursionError.
Proof.
  induction fuel as [|fuel IH]; intros m s w Hd; [lia|].
  rewrite walk_eq.
  apply bind_not_raise_run; [apply ancestor_step_not_recursion|].
  intros [m1 s1] w1 Hrun. apply ancestor_step_shape in Hrun.
  destruct Hrun as [Hdepth _]. cbn [fst snd].
  assert (Hleaves : forall m1, (forall cls ch, m1 <> mOther cls ch) ->
            forall s w, mapM_children (fun _ => walk tags search body self_install fuel)
                          (named_children m1) s w <> Raise RecursionError).
  { intros m2 Hm2. apply mapM_children_not_raise. intros nc Hin s0 w0.
    pose proof (depth_pos m). destruct fuel as [|fuel']; [lia|].
    apply walk_leaf_fuel. eapply layer_children_leaves; eauto. }
  destruct m1 as [l|c|d|l|l|cls ch1].
  1-5: apply bind_not_raise; [apply Hleaves; discriminate | intros; discriminate].
  apply bind_not_raise; [|intros; discriminate].
  apply mapM_children_not_raise. intros nc Hin s0 w0. apply IH.
  pose proof (depth_child cls ch1 nc Hin). lia.
Qed.

(** So [for_find_modules] does not raise [RecursionError]. *)
Lemma for_find_modules_fuel model s w :
  for_find_modules tags search body self_install model s w <> Raise RecursionError.
Proof. unfold for_find_modules. apply walk_fuel_enough. lia. Qed.

End Fuel.
(** *** The loop bodies keep the conditions of the fuel lemma *)

Lemma lift_not_raise {A} (r : result A) (w : world) (e : exn) :
  r <> Raise e -> lift r w <> Raise e.
Proof. unfold lift. destruct r; [discriminate | congruence]. Qed.

Ltac head_of t :=
  match t with
  | ?f _ => head_of f
  | _ => t
  end.

(** Step through a computation that is built from [bind], [ret], [raise]
    and case distinctions, to see that it raises no [RecursionError]. *)
Ltac no_recursion :=
  repeat
    (cbv beta zeta;
     match goal with
     | |- forall _, _ => intro
     | |- bind _ _ _ <> _ => apply bind_not_raise
     | |- ret _ _ <> _ => unfold ret; discriminate
     | |- raise _ _ <> _ => unfold raise; discriminate
     | |- fresh _ <> _ => unfold fresh; discriminate
     | |- draws _ <> _ => unfold draws; discriminate
     | |- lift _ _ <> _ => apply lift_not_raise
     | |- Ok _ <> _ => discriminate
     | |- Raise _ <> _ => discriminate
     | |- (match ?x with _ => _ end) _ <> _ => destruct x
     | |- (match ?x with _ => _ end) <> _ => destruct x
     | |- ?c <> _ => let h := head_of c in unfold h
     end).

Lemma inject_body_other r n m s w : inject_body r n m s w <> Raise RecursionError.
Proof. no_recursion. Qed.

Lemma inject_extended_body_other r n m s w :
  inject_extended_body r n m s w <> Raise RecursionError.
Proof. no_recursion. Qed.

Lemma collapse_body_other alpha n m s w :
  collapse_body alpha n m s w <> Raise RecursionError.
Proof. no_recursion. Qed.

Lemma remove_body_other n m s w : remove_body n m s w <> Raise RecursionError.
Proof. no_recursion. Qed.

Lemma replace_extended_body_other n m s w :
  replace_extended_body n m s w <> Raise RecursionError.
Proof. no_recursion. Qed.
(** Step through such a computation to see what it returns when it
    returns. *)
Ltac returns :=
  repeat
    (cbv beta zeta;
     match goal with
     | |- bind _ _ _ = Ok _ -> _ =>
         let H := fresh "H" in
         intro H; apply bind_Ok in H as (? & ? & _ & H); revert H
     | |- ret _ _ = Ok _ -> _ =>
         let H := fresh "H" in
         unfold ret; intro H; first [discriminate H | inversion H; subst; clear H]
     | |- raise _ _ = Ok _ -> _ => unfold raise; discriminate
     | |- (match ?x with _ => _ end) _ = Ok _ -> _ => destruct x
     | |- ?c = Ok _ -> _ => let h := head_of c in unfold h
     | |- forall _, _ => intro
     end).

Lemma inject_body_layer r n m s w o s' w' :
  inject_body r n m s w = Ok (o, s', w') ->
  forall cls children, now_at o <> mOther cls children.
Proof. returns; discriminate. Qed.

Lemma inject_extended_body_layer r n m s w o s' w' :
  inject_extended_body r n m s w = Ok (o, s', w') ->
  forall cls children, now_at o <> mOther cls children.
Proof. returns; discriminate. Qed.

Lemma collapse_body_layer alpha n m s w o s' w' :
  collapse_body alpha n m s w = Ok (o, s', w') ->
  forall cls children, now_at o <> mOther cls children.
Proof. returns; discriminate. Qed.

Lemma remove_body_layer n m s w o s' w' :
  remove_body n m s w = Ok (o, s', w') ->
  forall cls children, now_at o <> mOther cls children.
Proof. returns; discriminate. Qed.

Lemma replace_extended_body_layer n m s w o s' w' :
  replace_extended_body n m s w = Ok (o, s', w') ->
  forall cls children, now_at o <> mOther cls children.
Proof. returns; discriminate. Qed.

Lemma inject_body_kept_leaf r n m s w m' s' w' :
  named_children m = [] -> inject_body r n m s w = Ok (Kept m', s', w') ->
  named_children m' = [].
Proof. intros Hleaf. returns. Qed.

Lemma inject_extended_body_kept_leaf r n m s w m' s' w' :
  named_children m = [] -> inject_extended_body r n m s w = Ok (Kept m', s', w') ->
  named_children m' = [].
Proof. intros Hleaf. returns. Qed.

Lemma collapse_body_kept_leaf alpha n m s w m' s' w' :
  named_children m = [] -> collapse_body alpha n m s w = Ok (Kept m', s', w') ->
  named_children m' = [].
Proof. intros Hleaf. returns; discriminate. Qed.

Lemma remove_body_kept_leaf n m s w m' s' w' :
  named_children m = [] -> remove_body n m s w = Ok (Kept m', s', w') ->
  named_children m' = [].
Proof. intros Hleaf. returns. Qed.

Lemma replace_extended_body_kept_leaf n m s w m' s' w' :
  named_children m = [] -> replace_extended_body n m s w = Ok (Kept m', s', w') ->
  named_children m' = [].
Proof. intros Hleaf. returns; try reflexivity; discriminate. Qed.

(** No entry point stops for want of fuel. *)
Lemma entry_points_fuel model w :
  (forall target r loras,
     inject_trainable_lora model target r loras w <> Raise RecursionError)
  /\ (forall target r loras,
        inject_trainable_lora_extended model target r loras w <> Raise RecursionError)
  /\ (forall alpha, collapse_lora model alpha w <> Raise RecursionError)
  /\ monkeypatch_remove_lora model w <> Raise RecursionError
  /\ (forall loras target r,
        monkeypatch_or_replace_lora_extended model loras target r w
        <> Raise RecursionError).
Proof.
  repeat split; intros;
    unfold inject_trainable_lora, inject_trainable_lora_extended, collapse_lora,
      monkeypatch_remove_lora, monkeypatch_or_replace_lora_extended;
    try (apply bind_not_raise; [|intros; unfold ret; discriminate]);
    apply for_find_modules_fuel;
    eauto using inject_body_other, inject_extended_body_other, collapse_body_other,
      remove_body_other, replace_extended_body_other, inject_body_layer,
      inject_extended_body_layer, collapse_body_layer, remove_body_layer,
      replace_extended_body_layer, inject_body_kept_leaf,
      inject_extended_body_kept_leaf, collapse_body_kept_leaf, remove_body_kept_leaf,
      replace_extended_body_kept_leaf;
    discriminate.
Qed.

(** ** The scale of the corrections *)









(** ** Removal of the corrections *)

Lemma remove_body_linear (n : string) (l : LoraInjectedLinear.t) (w : world) :
  exists w',
    remove_body n (mLoraLinear l) tt w
    = Ok (Installed (mLinear (LoraInjectedLinear.linear l)), tt, w').
Proof.
  unfold remove_body, nn_Linear, init_parameter, bind, fresh, draws, ret.
  destruct (LoraInjectedLinear.linear l) as [i o wt [b|]]; simpl;
    eexists; reflexivity.
Qed.

Lemma remove_body_conv (n : string) (l : LoraInjectedConv2d.t) (w : world) :
  if conv_args_ok (LoraInjectedConv2d.conv l)
  then exists w',
         remove_body n (mLoraConv2d l) tt w
         = Ok (Installed (mConv2d (LoraInjectedConv2d.conv l)), tt, w')
  else remove_body n (mLoraConv2d l) tt w = Raise (ValueError BadConvGroups).
Proof.
  unfold remove_body, nn_Conv2d, conv_args_ok.
  destruct (LoraInjectedConv2d.conv l) as [i o k s p d g wt b]; simpl.
  destruct (g =? 0); simpl; [reflexivity|].
  destruct (i mod g =? 0); simpl; [|reflexivity].
  destruct (o mod g =? 0); simpl; [|reflexivity].
  unfold init_parameter, bind, fresh, draws, ret.
  destruct b as [b|]; simpl; eexists; reflexivity.
Qed.

(** A loop over the children in which every turn either gives the image
    of the child and keeps the state, or raises [e]. *)
Lemma mapM_children_image {St} (f : string -> module -> St -> M (module * St))
    (g : module -> module) (ok : module -> bool) (e : exn)
    (ch : list (string * module)) (s : St) :
  (forall nc, In nc ch -> forall w,
     if ok (snd nc)
     then exists w', f (fst nc) (snd nc) s w = Ok (g (snd nc), s, w')
     else f (fst nc) (snd nc) s w = Raise e) ->
  forall w,
    if forallb (fun nc => ok (snd nc)) ch
    then exists w',
           mapM_children f ch s w = Ok (map (fun nc => (fst nc, g (snd nc))) ch, s, w')
    else mapM_children f ch s w = Raise e.
Proof.
  induction ch as [|nc ch IH]; intros H w.
  - simpl. eexists. reflexivity.
  - cbn [forallb mapM_children map].
    pose proof (H nc (or_introl eq_refl) w) as Hnc.
    destruct (ok (snd nc)); cbn [andb].
    + destruct Hnc as [w1 Hnc].
      specialize (IH (fun nc' Hin => H nc' (or_intror Hin)) w1).
      destruct (forallb _ ch).
      * destruct IH as [w2 IH]. exists w2.
        unfold bind. rewrite Hnc. cbn. unfold bind. rewrite IH. reflexivity.
      * unfold bind. rewrite Hnc. cbn. unfold bind. now rewrite IH.
    + unfold bind. now rewrite Hnc.
Qed.

(** The inner walk of [monkeypatch_remove_lora]. *)
Lemma visit_remove (m : module) :
  forall n w,
    if bases_ok m
    then exists w',
           visit [cLoraInjectedLinear; cLoraInjectedConv2d] remove_body n m tt w
           = Ok (strip m, tt, w')
    else visit [cLoraInjectedLinear; cLoraInjectedConv2d] remove_body n m tt w
         = Raise (ValueError BadConvGroups).
Proof.
  induction m as [l|c|d|l|l|cls children IH] using module_tree_ind; intros n w.
  - eexists. reflexivity.
  - eexists. reflexivity.
  - eexists. reflexivity.
  - destruct (remove_body_linear n l w) as [w' H].
    exists w'. rewrite visit_eq. cbn [isinstance_any existsb isinstance orb].
    unfold bind. now rewrite H.
  - pose proof (remove_body_conv n l w) as H.
    rewrite visit_eq. cbn [isinstance_any existsb isinstance orb bases_ok].
    destruct (conv_args_ok _).
    + destruct H as [w' H]. exists w'. unfold bind. now rewrite H.
    + unfold bind. now rewrite H.
  - rewrite visit_eq. cbn [isinstance_any existsb isinstance orb bases_ok strip].
    rewrite List.Forall_forall in IH.
    pose proof (mapM_children_image
                  (visit [cLoraInjectedLinear; cLoraInjectedConv2d] remove_body)
                  strip bases_ok (ValueError BadConvGroups) children tt
                  (fun nc Hin w => IH nc Hin (fst nc) w) w) as H.
    destruct (forallb _ children).
    + destruct H as [w' H]. exists w'. unfold bind. now rewrite H.
    + unfold bind. now rewrite H.
Qed.

Lemma lora_free_children cls children :
  lora_free (mOther cls children) = true ->
  forall nc, In nc children -> lora_free (snd nc) = true.
Proof.
  simpl. rewrite forallb_forall. auto.
Qed.

Lemma lora_free_settled (m : module) :
  lora_free m = true -> settled [cLoraInjectedLinear; cLoraInjectedConv2d] m = true.
Proof.
  induction m as [l|c|d|l|l|cls children IH] using module_tree_ind;
    intros H; try reflexivity; try discriminate.
  cbn [settled isinstance_any existsb isinstance orb].
  apply forallb_forall. intros nc Hin. rewrite List.Forall_forall in IH.
  apply IH; [exact Hin|]. eapply lora_free_children; eauto.
Qed.

Lemma lora_free_strip (m : module) : lora_free (strip m) = true.
Proof.
  induction m as [l|c|d|l|l|cls children IH] using module_tree_ind;
    try reflexivity.
  simpl. apply forallb_forall. intros nc Hin.
  apply in_map_iff in Hin as (nc0 & <- & Hin). simpl.
  rewrite List.Forall_forall in IH. now apply IH.
Qed.


Lemma depth_strip (m : module) : depth (strip m) = depth m.
Proof.
  induction m as [l|c|d|l|l|cls children IH] using module_tree_ind;
    try reflexivity.
  simpl. f_equal.
  induction IH as [|[n c] children Hc _ IHc]; simpl; [reflexivity|].
  simpl in Hc. now rewrite Hc, IHc.
Qed.

(** The outer walk goes through a model without augmented layers and
    leaves it as it is, whatever the body. *)
Lemma walk_lora_free {St} (body : string -> module -> St -> M (outcome * St))
    (e : exn) (fuel : nat) :
  forall m s w,
    lora_free m = true -> depth m < fuel ->
    walk None [cLoraInjectedLinear; cLoraInjectedConv2d] body e fuel m s w
    = Ok (m, s, w).
Proof.
  induction fuel as [|fuel IH]; intros m s w Hfree Hd; [lia|].
  rewrite walk_eq. cbn [is_ancestor].
  unfold bind at 1.
  rewrite (as_ancestor_settled _ _ _ _ _ _ (lora_free_settled _ Hfree)).
  cbn [fst snd].
  destruct m as [l|c|d|l|l|cls children]; try reflexivity; try discriminate.
  unfold bind.
  rewrite (mapM_children_id (fun _ => walk None _ body e fuel) children s w).
  - reflexivity.
  - intros nc Hin. apply IH.
    + eapply lora_free_children; eauto.
    + pose proof (depth_child cls children nc Hin). lia.
Qed.

Lemma monkeypatch_remove_lora_run (model : module) (w : world) :
  if bases_ok_below model
  then exists w', monkeypatch_remove_lora model w = Ok (strip_children model, w')
  else monkeypatch_remove_lora model w = Raise (ValueError BadConvGroups).
Proof.
  unfold monkeypatch_remove_lora, for_find_modules.
  destruct model as [l|c|d|l|l|cls children];
    try (eexists; reflexivity).
  unfold bind at 1. rewrite walk_eq. cbn [is_ancestor].
  unfold as_ancestor. cbn [isinstance_any existsb isinstance orb].
  cbn [bases_ok_below strip_children].
  pose proof (mapM_children_image
                (visit [cLoraInjectedLinear; cLoraInjectedConv2d] remove_body)
                strip bases_ok (ValueError BadConvGroups) children tt
                (fun nc _ w => visit_remove (snd nc) (fst nc) w) w) as H.
  destruct (forallb _ children).
  - destruct H as [w' H]. exists w'.
    unfold bind. rewrite H. unfold ret. cbn [fst snd].
    rewrite (mapM_children_id (fun _ => walk None _ remove_body RuntimeError _)
               _ tt w').
    + reflexivity.
    + intros nc Hin. apply in_map_iff in Hin as (nc0 & <- & Hin). cbn [fst snd].
      apply walk_lora_free; [apply lora_free_strip|].
      rewrite depth_strip. apply (depth_child cls children nc0 Hin).
  - unfold bind. now rewrite H.
Qed.

(** X2.  [monkeypatch_remove_lora] puts, for every augmented layer below
    the root of the model, a plain layer in its place that has the
    attributes of the base layer and holds the very weight and bias
    objects of it; nothing else changes, and an augmented layer that is
    the root itself stays.  The only way to fail is a base convolution
    whose attributes [nn.Conv2d] refuses. *)
Theorem remove_lora_strips_the_model (model : module) (w : world) :
  if bases_ok_below model
  then exists w', monkeypatch_remove_lora model w = Ok (strip_children model, w')
  else monkeypatch_remove_lora model w = Raise (ValueError BadConvGroups).
Proof. apply monkeypatch_remove_lora_run. Qed.

(** *** Injection, then removal *)








(** *** After the removal *)

Lemma lora_free_not_searched (m : module) :
  lora_free m = true ->
  isinstance_any m [cLoraInjectedLinear; cLoraInjectedConv2d] = false.
Proof. destruct m; simpl; intros H; try reflexivity; discriminate. Qed.

Lemma named_modules_lora_free (m : module) :
  lora_free m = true ->
  forall p d, In (p, d) (named_modules m) -> lora_free d = true.
Proof.
  induction m as [l|c|d0|l|l|cls children IH] using module_tree_ind;
    intros Hfree p d Hin; try discriminate;
    try (destruct Hin as [[= <- <-]|[]]; exact Hfree).
  cbn [named_modules] in Hin. destruct Hin as [[= <- <-]|Hin]; [exact Hfree|].
  apply in_flat_map in Hin as (nc & Hnc & Hin).
  unfold prefix_paths in Hin. apply in_map_iff in Hin as ([p' d'] & [= <- <-] & Hin).
  rewrite List.Forall_forall in IH.
  eapply (IH nc Hnc); [|exact Hin]. eapply lora_free_children; eauto.
Qed.

Lemma find_under_lora_free exclude (q : list string) (a : module) :
  lora_free a = true ->
  find_under exclude [cLoraInjectedLinear; cLoraInjectedConv2d] q a = [].
Proof.
  intros Hfree. unfold find_under. apply flat_map_nil. intros [p d] Hin.
  cbn [fst snd].
  now rewrite (lora_free_not_searched d (named_modules_lora_free a Hfree p d Hin)).
Qed.

Lemma ancestors_named_modules model tags pa :
  In pa (ancestors model tags) -> In pa (named_modules model).
Proof.
  destruct tags as [tags|]; simpl; [|auto].
  rewrite filter_In. tauto.
Qed.

Lemma find_modules_lora_free (m : module) (tags : option (list string)) :
  lora_free m = true ->
  find_modules_v2 m tags (Some [cLoraInjectedLinear; cLoraInjectedConv2d]) None = [].
Proof.
  intros Hfree. rewrite find_modules_v2_eq. apply flat_map_nil.
  intros [p a] Hin. apply find_under_lora_free.
  eapply named_modules_lora_free; [exact Hfree|].
  eapply ancestors_named_modules; eauto.
Qed.

Lemma find_modules_strip_children (m : module) (tags : option (list string)) :
  find_modules_v2 (strip_children m) tags
    (Some [cLoraInjectedLinear; cLoraInjectedConv2d]) None = [].
Proof.
  destruct m as [l|c|d|l|l|cls children];
    try (apply find_modules_lora_free; reflexivity).
  - destruct tags as [tags|]; unfold find_modules_v2, ancestors; simpl;
      repeat (destruct (name_in _ _); simpl); reflexivity.
  - destruct tags as [tags|]; unfold find_modules_v2, ancestors; simpl;
      repeat (destruct (name_in _ _); simpl); reflexivity.
  - apply find_modules_lora_free.
    apply (lora_free_strip (mOther cls children)).
Qed.

Lemma extract_nothing model target :
  find_modules_v2 model (Some (default DEFAULT_TARGET_REPLACE target))
    (Some [cLoraInjectedLinear; cLoraInjectedConv2d]) None = [] ->
  extract_lora_ups_down model target = Raise (ValueError NoLoraInjected).
Proof.
  intros H. unfold extract_lora_ups_down, _find_modules. now rewrite H.
Qed.

(** X4.  After [monkeypatch_remove_lora] has returned, the locator finds
    no augmented layer in the model, under whatever target set:
    [extract_lora_ups_down] raises its [ValueError], and with it
    [save_lora_weight], in both of its modes. *)
Theorem nothing_to_extract_after_removal (py : builtins) (model : module)
    (w w' : world) (m' : module) (target : option (list string))
    (path : string) (save_safetensors : bool) :
  monkeypatch_remove_lora model w = Ok (m', w') ->
  extract_lora_ups_down m' target = Raise (ValueError NoLoraInjected)
  /\ save_lora_weight py m' path target save_safetensors
     = Raise (ValueError NoLoraInjected).
Proof.
  intros H. pose proof (monkeypatch_remove_lora_run model w) as Hrun.
  destruct (bases_ok_below model); [|congruence].
  destruct Hrun as [w1 Hrun]. rewrite Hrun in H. injection H as <- <-.
  assert (E : forall t, extract_lora_ups_down (strip_children model) t
                        = Raise (ValueError NoLoraInjected)).
  { intros t. apply extract_nothing, find_modules_strip_children. }
  split; [apply E|]. unfold save_lora_weight. now rewrite E.
Qed.

Lemma nothing_to_extract_after_removal_witness :
  extract_lora_ups_down (value_or (x <~ monkeypatch_remove_lora ex_injected ex_world ;;
                                   Ok (fst x)) ex_injected) None
  = Raise (ValueError NoLoraInjected).
Proof.
  assert (Hrun : monkeypatch_remove_lora ex_injected ex_world
                 = Ok (value_or (x <~ monkeypatch_remove_lora ex_injected ex_world ;;
                                 Ok (fst x)) ex_injected,
                       value_or (x <~ monkeypatch_remove_lora ex_injected ex_world ;;
                                 Ok (snd x)) ex_world))
    by (vm_compute; reflexivity).
  exact (proj1 (nothing_to_extract_after_removal plain_builtins ex_injected
                  ex_world _ _ None "./lora.pt" false Hrun)).
Defined.

(** ** When the container can be written *)





(** ** The two lists of the injection functions *)

Lemma inject_extended_body_paired r n m s w o s' w' :
  inject_extended_body r n m s w = Ok (o, s', w') ->
  lists_paired (i_params s, i_names s) -> lists_paired (i_params s', i_names s').
Proof.
  intros H [Hlen Hall]. simpl in Hlen, Hall.
  assert (E : exists up down,
             i_params s' = i_params s ++ [[trainable up]; [trainable down]]
             /\ i_names s' = i_names s ++ [n]).
  { destruct m as [src|src| | | |]; try discriminate; simpl in H; inv_bind H;
      unfold install_linear, install_conv in H; inv_bind H; inv_ret H;
      simpl; eauto. }
  destruct E as (up & down & Ep & En). unfold lists_paired. simpl.
  rewrite Ep, En, !length_app. simpl. split; [lia|].
  apply Forall_app. split; [exact Hall|].
  repeat constructor; eexists; split; reflexivity.
Qed.

(** X6.  The two lists an injection function returns go together:
    [require_grad_params] has two entries for every entry of [names],
    the up-projection and then the down-projection of the layer, and each
    entry is one parameter with [requires_grad] set. *)
Theorem injection_lists_are_paired (model : module) (target : option (list string))
    (r : nat) (loras : option (list tensor)) (w w' : world) (m' : module)
    (out : list (list parameter) * list string) :
  inject_trainable_lora model target r loras w = Ok (m', out, w')
  \/ inject_trainable_lora_extended model target r loras w = Ok (m', out, w') ->
  lists_paired out.
Proof.
  assert (H0 : lists_paired ([], [])) by (split; [reflexivity | constructor]).
  intros [H|H].
  - unfold inject_trainable_lora in H. inv_bind H. inv_ret H.
    destruct a as [m1 s1]. simpl.
    refine (proj1 (proj2 (walk_spec _ _ _ _ wraps
                     (fun s => lists_paired (i_params s, i_names s))
                     search_plain_linear (inject_body_installs r)
                     _ wraps_excluded _ _ (InjectState loras [] []) _ _ _ _ H0 Hrun))).
    intros n m s w0 m0 s0 w1 Hi Hinv Hb. split.
    + eapply inject_body_wraps; eauto.
    + rewrite inject_body_extended in Hb by exact Hi.
      eapply inject_extended_body_paired; eauto.
  - unfold inject_trainable_lora_extended in H. inv_bind H. inv_ret H.
    destruct a as [m1 s1]. simpl.
    refine (proj1 (proj2 (walk_spec _ _ _ _ wraps
                     (fun s => lists_paired (i_params s, i_names s))
                     search_plain_extended (inject_extended_body_installs r)
                     _ wraps_excluded _ _ (InjectState loras [] []) _ _ _ _ H0 Hrun))).
    intros n m s w0 m0 s0 w1 Hi Hinv Hb. split.
    + eapply inject_extended_body_wraps; eauto.
    + eapply inject_extended_body_paired; eauto.
Qed.

Lemma injection_lists_are_paired_witness :
  lists_paired (value_or (x <~ inject_trainable_lora ex_model None 1 None ex_world ;;
                          Ok (snd (fst x))) ([], [])).
Proof.
  assert (Hrun : inject_trainable_lora ex_model None 1 None ex_world
                 = Ok (ex_injected,
                       value_or (x <~ inject_trainable_lora ex_model None 1 None ex_world ;;
                                 Ok (snd (fst x))) ([], []),
                       value_or (x <~ inject_trainable_lora ex_model None 1 None ex_world ;;
                                 Ok (snd x)) ex_world))
    by (vm_compute; reflexivity).
  exact (injection_lists_are_paired ex_model None 1 None ex_world _ ex_injected _
           (or_introl Hrun)).
Defined.

(** ** The paths of the companion files *)

Lemma append_nil_r (s : string) : s +:+ EmptyString = s.
Proof.
  induction s as [|a s IH]; [reflexivity|].
  change (String a s +:+ EmptyString) with (String a (s +:+ EmptyString)).
  now rewrite IH.
Qed.

Lemma endswith_app (stem suffix : string) : endswith (stem +:+ suffix) suffix = true.
Proof.
  induction stem as [|a stem IH].
  - change (EmptyString +:+ suffix) with suffix.
    destruct suffix; cbn [endswith]; rewrite String.eqb_refl; reflexivity.
  - change (String a stem +:+ suffix) with (String a (stem +:+ suffix)).
    cbn [endswith]. rewrite IH. apply orb_true_r.
Qed.

Lemma endswith_stem (s suffix : string) :
  endswith s suffix = true -> exists stem, s = stem +:+ suffix.
Proof.
  induction s as [|a s IH]; cbn [endswith]; intros H.
  - rewrite orb_false_r in H. apply String.eqb_eq in H as <-. now exists EmptyString.
  - apply orb_true_iff in H as [H|H].
    + apply String.eqb_eq in H as <-. now exists EmptyString.
    + destruct (IH H) as [stem ->]. now exists (String a stem).
Qed.

Lemma endswith_longer (x y suffix : string) :
  endswith y suffix = true -> endswith (x +:+ y) suffix = true.
Proof.
  intros H. apply endswith_stem in H as [stem ->].
  rewrite <- append_assoc. apply endswith_app.
Qed.

(** Splitting at a separator, and joining again. *)
Lemma split_char_app_sep c s1 s2 :
  split_char c (s1 +:+ String c s2) = split_char c s1 ++ split_char c s2.
Proof.
  induction s1 as [|a s1 IH].
  - change (EmptyString +:+ String c s2) with (String c s2).
    cbn [split_char]. now rewrite Ascii.eqb_refl.
  - change (String a s1 +:+ String c s2) with (String a (s1 +:+ String c s2)).
    cbn [split_char]. rewrite IH.
    destruct (Ascii.eqb a c); [reflexivity|].
    pose proof (split_char_ne c s1).
    destruct (split_char c s1); [contradiction | reflexivity].
Qed.

Lemma concat_split_char c s :
  String.concat (String c EmptyString) (split_char c s) = s.
Proof.
  induction s as [|a s IH]; [reflexivity|].
  cbn [split_char]. destruct (Ascii.eqb_spec a c) as [->|Hne].
  - pose proof (split_char_ne c s).
    destruct (split_char c s) as [|h t] eqn:E; [contradiction|].
    cbn [String.concat] in *. now rewrite IH.
  - pose proof (split_char_ne c s).
    destruct (split_char c s) as [|h t] eqn:E; [contradiction|].
    cbn [String.concat] in *. destruct t; cbn; now rewrite <- IH.
Qed.

Lemma concat_app_sep (sep : string) (l1 l2 : list string) :
  l1 <> [] -> l2 <> [] ->
  String.concat sep (l1 ++ l2)
  = String.concat sep l1 +:+ sep +:+ String.concat sep l2.
Proof.
  intros H1 H2. induction l1 as [|x l1 IH]; [contradiction|].
  destruct l1 as [|y l1].
  - destruct l2; [contradiction | reflexivity].
  - change ((x :: y :: l1) ++ l2) with (x :: (y :: l1) ++ l2).
    change (String.concat sep (x :: (y :: l1) ++ l2))
      with (x +:+ sep +:+ String.concat sep ((y :: l1) ++ l2)).
    rewrite IH by discriminate.
    change (String.concat sep (x :: y :: l1))
      with (x +:+ sep +:+ String.concat sep (y :: l1)).
    now rewrite !append_assoc.
Qed.

Lemma tagged_path (stem tag : string) :
  String.concat "." (removelast (split_char "." (stem +:+ ".pt")) ++ [tag; "pt"])
  = stem +:+ "." +:+ tag +:+ ".pt".
Proof.
  change (stem +:+ ".pt") with (stem +:+ String "." "pt").
  rewrite split_char_app_sep.
  change (split_char "." "pt") with ["pt"].
  rewrite removelast_last.
  rewrite concat_app_sep; [|apply split_char_ne | discriminate].
  rewrite concat_split_char. reflexivity.
Qed.

Lemma companion_paths_run (path : string) :
  if endswith path ".pt"
  then exists stem,
         path = stem +:+ ".pt"
         /\ _text_lora_path path = Asserted (stem +:+ ".text_encoder.pt")
         /\ _ti_lora_path path = Asserted (stem +:+ ".ti.pt")
  else _text_lora_path path = AssertionError
       /\ _ti_lora_path path = AssertionError.
Proof.
  unfold _text_lora_path, _ti_lora_path.
  destruct (endswith path ".pt") eqn:E; [|split; reflexivity].
  destruct (endswith_stem _ _ E) as [stem ->]. exists stem.
  split; [reflexivity|]. rewrite !tagged_path. split; reflexivity.
Qed.

(** X7.  On a path [stem.pt] the two helpers give [stem.text_encoder.pt]
    and [stem.ti.pt], whatever dots [stem] has in it; on any other path
    they end in the [AssertionError]. *)
Theorem companion_paths (path : string) :
  if endswith path ".pt"
  then exists stem,
         path = stem +:+ ".pt"
         /\ _text_lora_path path = Asserted (stem +:+ ".text_encoder.pt")
         /\ _ti_lora_path path = Asserted (stem +:+ ".ti.pt")
  else _text_lora_path path = AssertionError
       /\ _ti_lora_path path = AssertionError.
Proof. apply companion_paths_run. Qed.

Lemma prefix_app (p s : string) :
  String.prefix p s = true -> exists rest, s = p +:+ rest.
Proof.
  revert s. induction p as [|a p IH]; intros s H.
  - now exists s.
  - destruct s as [|b s]; [discriminate|]. cbn [String.prefix] in H.
    destruct (ascii_dec a b) as [->|]; [|discriminate].
    destruct (IH s H) as [rest ->]. now exists rest.
Qed.

Lemma eqb_length (x y : string) :
  String.eqb x y = true -> String.length x = String.length y.
Proof. intros H. apply String.eqb_eq in H. now subst. Qed.

Lemma length_append (x y : string) :
  String.length (x +:+ y) = String.length x + String.length y.
Proof.
  induction x as [|a x IH]; [reflexivity|].
  change (String a x +:+ y) with (String a (x +:+ y)). simpl. now rewrite IH.
Qed.

(** [replace] rewrites the extension of a path that ends in [.pt],
    whatever it does before. *)
Lemma replace_pt_ends (n : nat) :
  forall stem, String.length stem <= n ->
    endswith (str_replace ".pt" "_txt.pt" (stem +:+ ".pt")) "_txt.pt" = true.
Proof.
  unfold str_replace.
  induction n as [|n IH]; intros stem Hn.
  - destruct stem; [reflexivity | simpl in Hn; lia].
  - destruct stem as [|a rest]; [reflexivity|].
    change (String a rest +:+ ".pt") with (String a (rest +:+ ".pt")).
    cbn [replace_from].
    destruct (String.prefix ".pt" (String a (rest +:+ ".pt"))) eqn:Ep.
    + apply prefix_app in Ep as [rest' Ep].
      change (".pt" +:+ rest') with (String "." (String "p" (String "t" rest'))) in Ep.
      injection Ep as -> Ep.
      destruct rest as [|b rest2]; [discriminate|].
      change (String b rest2 +:+ ".pt") with (String b (rest2 +:+ ".pt")) in *.
      injection Ep as -> Ep.
      destruct rest2 as [|c rest3]; [discriminate|].
      change (String c rest3 +:+ ".pt") with (String c (rest3 +:+ ".pt")) in *.
      injection Ep as -> Ep.
      cbn [String.length Nat.sub replace_from].
      apply endswith_longer. apply IH. simpl in Hn. lia.
    + cbn [endswith]. rewrite IH; [apply orb_true_r|]. simpl in Hn. lia.
Qed.

Lemma text_encoder_not_txt (stem : string) :
  endswith (stem +:+ ".text_encoder.pt") "_txt.pt" = false.
Proof.
  induction stem as [|a stem IH]; [reflexivity|].
  change (String a stem +:+ ".text_encoder.pt")
    with (String a (stem +:+ ".text_encoder.pt")).
  cbn [endswith]. rewrite IH, orb_false_r.
  destruct (String.eqb _ _) eqn:E; [|reflexivity].
  apply eqb_length in E. cbn [String.length] in E.
  rewrite length_append in E. simpl in E. lia.
Qed.

(** X8.  The two helpers for the file of the text encoder never agree:
    on a path that ends in [.pt], the name that [_text_lora_path_ui]
    gives ends in [_txt.pt], and the name that [_text_lora_path] gives
    does not. *)
Theorem text_encoder_paths_differ (path : string) (ui plain : string) :
  _text_lora_path_ui path = Asserted ui ->
  _text_lora_path path = Asserted plain ->
  endswith ui "_txt.pt" = true /\ endswith plain "_txt.pt" = false /\ ui <> plain.
Proof.
  unfold _text_lora_path_ui. intros Hui Hplain.
  pose proof (companion_paths_run path) as H.
  destruct (endswith path ".pt") eqn:E; [|discriminate].
  destruct H as (stem & -> & Ht & _).
  injection Hui as <-. rewrite Ht in Hplain. injection Hplain as <-.
  assert (H1 := replace_pt_ends _ stem (le_n _)).
  assert (H2 := text_encoder_not_txt stem).
  split; [exact H1|]. split; [exact H2|]. congruence.
Qed.

Lemma text_encoder_paths_differ_witness :
  endswith "./lora_txt.pt" "_txt.pt" = true
  /\ endswith "./lora.text_encoder.pt" "_txt.pt" = false
  /\ "./lora_txt.pt" <> "./lora.text_encoder.pt".
Proof.
  apply (text_encoder_paths_differ "./lora.pt"); reflexivity.
Defined.

(** ** Conversion of legacy files, then reading *)

Lemma list_pair_ind {A} (P : list A -> Prop) :
  P [] -> (forall a, P [a]) -> (forall a b l, P l -> P (a :: b :: l)) ->
  forall l, P l.
Proof.
  intros H0 H1 H2. fix IH 1. intros [|a [|b l]].
  - exact H0.
  - apply H1.
  - apply H2, IH.
Qed.

Lemma read_weights_pair_up (r : nat) (lora : list tensor) :
  Nat.even (length lora) = true ->
  read_weights (pair_up r lora) = map Some lora
  /\ read_ranks (pair_up r lora) = replicate (length lora / 2) (Z.of_nat r).
Proof.
  induction lora as [|a|a b l IH] using list_pair_ind; intros H.
  - split; reflexivity.
  - discriminate.
  - destruct (IH H) as [Hw Hr]. cbn [pair_up read_weights read_ranks flat_map map].
    fold (read_weights (pair_up r l)). fold (read_ranks (pair_up r l)).
    rewrite Hw, Hr. split; [reflexivity|].
    change (length (a :: b :: l)) with (2 + length l).
    replace ((2 + length l) / 2) with (S (length l / 2)); [reflexivity|].
    change 2 with (1 * 2) at 2. rewrite Nat.div_add_l by discriminate. reflexivity.
Qed.

Section ConvertWriter.
Variable py : builtins.
Variable torch_load : string -> result (list tensor).

Lemma convert_weights_entries (name : string) (r : nat) (lora : list tensor) :
  Nat.even (length lora) = true ->
  forall i0 wm,
    foldl (convert_weight name r) wm (imap (fun i weight => (2 * i0 + i, weight)) lora)
    = (foldl put (fst wm) (tensor_entries name i0 (pair_up r lora)),
       foldl put (snd wm) (rank_entries name i0 (pair_up r lora))).
Proof.
  induction lora as [|a|a b l IH] using list_pair_ind; intros H i0 wm.
  - now destruct wm.
  - discriminate.
  - cbn [imap foldl pair_up tensor_entries rank_entries].
    rewrite (imap_ext _ (fun i weight => (2 * S i0 + i, weight)));
      [|intros; cbn; f_equal; lia].
    rewrite (IH H). unfold convert_weight, compose. cbv beta. cbn [fst snd].
    replace (2 * i0 + 0) with (i0 * 2) by lia.
    replace (2 * i0 + 1) with (1 + i0 * 2) by lia.
    rewrite Nat.Div0.mod_mul, Nat.div_mul by discriminate.
    rewrite Nat.Div0.mod_add, Nat.div_add by discriminate.
    cbn [Nat.eqb Nat.modulo Nat.div Nat.divmod fst snd Nat.add].
    reflexivity.
Qed.
End ConvertWriter.

Section ConvertFile.
Variable py : builtins.
Variable torch_load : string -> result (list tensor).

Lemma convert_components_entries
    (items : list (string * (string * list string * nat))) :
  (forall item lora, In item items ->
     torch_load (fst (fst (snd item))) = Ok lora -> paired lora = true) ->
  forall wm wm',
    foldR (convert_component py torch_load) items wm = Ok wm' ->
    exists comps,
      Forall2 (converted_of torch_load) items comps
      /\ (forall c, In c comps -> snd (snd c) <> [])
      /\ fst wm' = foldl put (fst wm)
                     (flat_map (fun c => tensor_entries (fst c) 0 (snd (snd c))) comps)
      /\ snd wm' = foldl put (snd wm)
                     (flat_map (fun c => (fst c, json_dumps py (fst (snd c)))
                                         :: rank_entries (fst c) 0 (snd (snd c))) comps).
Proof.
  induction items as [|item items IH]; intros Hp wm wm'; cbn [foldR].
  - intros [= <-]. exists []. split; [constructor|]. split; [intros c []|].
    split; reflexivity.
  - unfold convert_component at 1.
    destruct (torch_load (fst (fst (snd item)))) as [lora|] eqn:E; cbn [rbind];
      [|discriminate].
    pose proof (Hp item lora (or_introl eq_refl) E) as Hl.
    unfold paired in Hl. apply andb_prop in Hl as [Hev Hne].
    rewrite (convert_weights_entries (fst item) (snd (snd item)) lora Hev 0).
    cbn [fst snd].
    intros H. apply IH in H; [|intros; eapply Hp; eauto; now right].
    destruct H as (comps & Hall & Hnes & Hw & Hm). cbn [fst snd] in *.
    exists ((fst item, (snd (fst (snd item)), pair_up (snd (snd item)) lora)) :: comps).
    split; [constructor; [|exact Hall]|].
    { split; [reflexivity|]. split; [reflexivity|]. exists lora. auto. }
    split.
    { intros c [<-|Hc]; [|auto]. cbn [fst snd].
      destruct lora as [|a [|b l]]; try discriminate. }
    cbn [flat_map fst snd]. rewrite !foldl_app, Hw, Hm. split; reflexivity.
Qed.

Lemma convert_entries items embeds path f :
  (forall item lora, In item items ->
     torch_load (fst (fst (snd item))) = Ok lora -> paired lora = true) ->
  convert_loras_to_safeloras_with_embeds py torch_load (Some items) (Some embeds) path
  = Ok f ->
  exists comps,
    Forall2 (converted_of torch_load) items comps
    /\ (forall c, In c comps -> snd (snd c) <> [])
    /\ f_tensors f = foldl put ∅ (file_tensors comps embeds)
    /\ f_metadata f = foldl put ∅ (file_metadata py comps embeds).
Proof.
  intros Hp. unfold convert_loras_to_safeloras_with_embeds, default, from_option, id.
  destruct (foldR (convert_component py torch_load) items (∅, ∅)) as [wm|] eqn:E;
    cbn [rbind]; [|discriminate].
  intros [= <-]. cbn [f_tensors f_metadata].
  apply convert_components_entries in E; [|exact Hp].
  destruct E as (comps & Hall & Hne & Hw & Hm).
  exists comps. split; [exact Hall|]. split; [exact Hne|].
  rewrite save_embeds_entries. cbn [fst snd] in *.
  unfold file_tensors, file_metadata. rewrite !foldl_app, Hw, Hm. split; reflexivity.
Qed.

Lemma converted_of_names items comps :
  Forall2 (converted_of torch_load) items comps -> map fst comps = map fst items.
Proof.
  induction 1 as [|item c items comps (Hn & _) _ IH]; cbn [map]; [reflexivity|].
  now rewrite Hn, IH.
Qed.

Lemma converted_of_In items comps name path target r :
  Forall2 (converted_of torch_load) items comps ->
  In (name, (path, target, r)) items ->
  exists lora, In (name, (target, pair_up r lora)) comps
               /\ torch_load path = Ok lora.
Proof.
  induction 1 as [|item c items comps (Hn & Ht & lora & Hl & Hc) _ IH]; cbn [In];
    [contradiction|].
  intros [->|Hin].
  - destruct c as [n [t ls]]. cbn [fst snd] in *. subst. exists lora. auto.
  - destruct (IH Hin) as (lora' & H1 & H2). eauto.
Qed.

End ConvertFile.

(** X9.  A container made by [convert_loras_to_safeloras_with_embeds]
    from legacy files reads back as those files: when every file holds a
    list (up, down, up, down, ...) of at least one pair, and names and
    tokens are free of the colon and apart, [parse_safeloras] returns for
    every component the tensors of its file in their order, the rank [r]
    once for every pair, and the target list; nothing under another name;
    and [parse_safeloras_embeds] returns the embeds. *)
Theorem converted_container_reads_back (py : builtins)
    (torch_load : string -> result (list tensor))
    (items : list (string * (string * list string * nat)))
    (embeds : list (string * tensor)) (path : string)
    (f : safetensors_file) (h : safe_handle) :
  builtins_ok py ->
  NoDup (map fst items) ->
  NoDup (map fst embeds) ->
  (forall name, In name (map fst items ++ map fst embeds) ->
     has_char ":" name = false) ->
  (forall name, In name (map fst items) -> ~ In name (map fst embeds)) ->
  (forall item lora, In item items ->
     torch_load (fst (fst (snd item))) = Ok lora -> paired lora = true) ->
  convert_loras_to_safeloras_with_embeds py torch_load (Some items) (Some embeds) path
  = Ok f ->
  opens f h ->
  exists loras,
    parse_safeloras py h = Ok loras
    /\ (forall name file target r, In (name, (file, target, r)) items ->
          exists lora,
            torch_load file = Ok lora
            /\ loras !! name
               = Some (map Some lora, replicate (length lora / 2) (Z.of_nat r),
                       JArray (map JString target)))
    /\ (forall name, is_Some (loras !! name) -> In name (map fst items))
    /\ parse_safeloras_embeds h = Ok (list_to_map embeds).
Proof.
  intros Hpy Hnames Htokens Hcolon Hapart Hpaired Hsave Hopen.
  destruct (convert_entries py torch_load items embeds path f Hpaired Hsave)
    as (comps & Hall & Hne & HWf & HMf).
  pose proof (converted_of_names _ _ _ Hall) as Hnm.
  destruct (opens_keys f h Hopen) as [Hkeys_once Hkeys].
  destruct Hopen as (Ht & Hm & _).
  assert (Hnames' : NoDup (map fst comps)) by now rewrite Hnm.
  assert (Hcolon' : forall c, In c comps -> has_char ":" (fst c) = false).
  { intros c Hc. apply Hcolon, in_app_iff. left. rewrite <- Hnm. now apply in_map. }
  assert (Htcolon : forall e, In e embeds -> has_char ":" (fst e) = false).
  { intros e He. apply Hcolon, in_app_iff. right. now apply in_map. }
  assert (Hapart' : forall c e, In c comps -> In e embeds -> fst c <> fst e).
  { intros c e Hc He E. apply (Hapart (fst c)).
    - rewrite <- Hnm. now apply in_map.
    - rewrite E. now apply in_map. }
  assert (HW : forall k v, h_tensors h !! k = Some v
                           <-> In (k, v) (file_tensors comps embeds)).
  { intros k v. rewrite Ht, HWf. apply put_all_lookup.
    apply (file_tensors_functional py Hpy); auto. }
  assert (HM : forall k v, f_metadata f !! k = Some v
                           <-> In (k, v) (file_metadata py comps embeds)).
  { intros k v. rewrite HMf. apply put_all_lookup.
    apply (file_metadata_functional py Hpy); auto. }
  destruct (read_file_loras py Hpy comps embeds h (f_metadata f) Hm Hnames' Hcolon'
              Hne Htcolon Hapart' HW HM Hkeys Hkeys_once)
    as (loras & Hrun & Hall' & Hdom).
  exists loras. split; [exact Hrun|]. split; [|split].
  - intros name file target r Hin.
    destruct (converted_of_In _ _ _ _ _ _ _ Hall Hin) as (lora & Hc & Hload).
    exists lora. split; [exact Hload|].
    pose proof (Hall' _ Hc) as Hread. cbn [fst snd] in Hread. rewrite Hread.
    unfold read_back.
    pose proof (Hpaired _ _ Hin Hload) as Hp. unfold paired in Hp.
    apply andb_prop in Hp as [Hev _].
    destruct (read_weights_pair_up r lora Hev) as [-> ->]. reflexivity.
  - intros name Hs. rewrite <- Hnm. now apply Hdom.
  - eapply read_file_embeds; eauto.
Qed.

Lemma converted_container_reads_back_witness :
  exists loras,
    parse_safeloras plain_builtins (open_file ex_converted) = Ok loras
    /\ (forall name file target r, In (name, (file, target, r)) ex_legacy_items ->
          exists lora,
            ex_torch_load file = Ok lora
            /\ loras !! name
               = Some (map Some lora, replicate (length lora / 2) (Z.of_nat r),
                       JArray (map JString target)))
    /\ (forall name, is_Some (loras !! name) -> In name (map fst ex_legacy_items))
    /\ parse_safeloras_embeds (open_file ex_converted) = Ok (list_to_map ex_embeds).
Proof.
  apply (converted_container_reads_back plain_builtins ex_torch_load ex_legacy_items
           ex_embeds "./lora.safetensors" ex_converted (open_file ex_converted)).
  - exact plain_builtins_ok.
  - apply (bool_decide_unpack _). vm_compute. exact I.
  - apply (bool_decide_unpack _). vm_compute. exact I.
  - intros name [<-|[<-|[]]]; reflexivity.
  - intros name [<-|[]] [E|[]]. discriminate.
  - intros item lora [<-|[]] [= <-]. reflexivity.
  - vm_compute. reflexivity.
  - apply opens_open_file.
Defined.

(** ** A target set that names no class of the model *)

Lemma named_modules_child (m : module) (nc : string * module) :
  In nc (named_children m) ->
  forall p a, In (p, a) (named_modules (snd nc)) ->
    In (fst nc :: p, a) (named_modules m).
Proof.
  intros Hin p a Ha.
  destruct m as [l|c|d|l|l|cls children]; try contradiction.
  - right. apply in_map_iff. exists nc. split; [|exact Hin].
    cbn in Hin. destruct Hin as [<-|[<-|[<-|[<-|[]]]]];
      destruct Ha as [[= <- <-]|[]]; reflexivity.
  - right. apply in_map_iff. exists nc. split; [|exact Hin].
    cbn in Hin. destruct Hin as [<-|[<-|[<-|[<-|[]]]]];
      destruct Ha as [[= <- <-]|[]]; reflexivity.
  - right. apply in_flat_map. exists nc. split; [exact Hin|].
    unfold prefix_paths. apply in_map_iff. exists (p, a). auto.
Qed.

(** The outer walk passes by every module that is no ancestor. *)
Lemma walk_untagged {St} (tags : option (list string)) (search : list layer_class)
    (body : string -> module -> St -> M (outcome * St)) (e : exn) (fuel : nat) :
  forall m s w,
    (depth m < fuel \/ (named_children m = [] /\ 0 < fuel)) ->
    (forall p a, In (p, a) (named_modules m) -> is_ancestor tags a = false) ->
    walk tags search body e fuel m s w = Ok (m, s, w).
Proof.
  induction fuel as [|fuel IH]; intros m s w Hd Hno; [lia|].
  rewrite walk_eq. rewrite (Hno [] m) by (destruct m; now left).
  unfold bind at 1, ret at 1. cbn [fst snd].
  assert (Hch : mapM_children (fun _ => walk tags search body e fuel)
                  (named_children m) s w = Ok (named_children m, s, w)).
  { apply mapM_children_id. intros nc Hin. apply IH.
    - destruct Hd as [Hd|[Hd _]]; [|rewrite Hd in Hin; contradiction].
      destruct m as [l|c|d|l|l|cls children]; try contradiction.
      + right. split; [|simpl in Hd; lia].
        cbn in Hin. destruct Hin as [<-|[<-|[<-|[<-|[]]]]]; reflexivity.
      + right. split; [|simpl in Hd; lia].
        cbn in Hin. destruct Hin as [<-|[<-|[<-|[<-|[]]]]]; reflexivity.
      + left. pose proof (depth_child cls children nc Hin). lia.
    - intros p a Ha. eapply Hno. eapply named_modules_child; eauto. }
  destruct m as [l|c|d|l|l|cls children]; cbv zeta; unfold bind;
    first [rewrite Hch | cbn [named_children] in Hch; rewrite Hch]; reflexivity.
Qed.

Lemma ancestors_untagged (model : module) (target : list string) :
  (forall p a, In (p, a) (named_modules model) -> name_in target a = false) ->
  ancestors model (Some target) = [].
Proof.
  intros H. unfold ancestors.
  induction (named_modules model) as [|[p a] l IH]; [reflexivity|].
  cbn [List.filter fst snd]. rewrite (H p a) by now left.
  apply IH. intros; eapply H; right; eauto.
Qed.

(** X10.  A target set that names the class of no module of the model
    makes the calls do nothing, without a word: both injection functions
    return the model as it is and two empty lists, the extended
    replacement returns the model and leaves [loras] and the ranks as they
    were; only [extract_lora_ups_down] raises. *)
Theorem unknown_target_does_nothing (model : module) (target : list string)
    (r : nat) (loras : option (list tensor)) (tensors : list tensor)
    (ranks : rank_arg) (w : world) :
  (forall p a, In (p, a) (named_modules model) -> name_in target a = false) ->
  inject_trainable_lora model (Some target) r loras w = Ok (model, ([], []), w)
  /\ inject_trainable_lora_extended model (Some target) r loras w
     = Ok (model, ([], []), w)
  /\ monkeypatch_or_replace_lora_extended model tensors (Some target) ranks w
     = Ok (model, ReplaceState tensors ranks, w)
  /\ extract_lora_ups_down model (Some target) = Raise (ValueError NoLoraInjected).
Proof.
  intros H.
  assert (Hw : forall St search (body : string -> module -> St -> M (outcome * St)) e s,
             for_find_modules (Some target) search body e model s w
             = Ok (model, s, w)).
  { intros. unfold for_find_modules. apply walk_untagged; [left; lia|].
    intros p a Ha. exact (H p a Ha). }
  split; [|split; [|split]].
  - unfold inject_trainable_lora, bind. cbn [default from_option id].
    change (default DEFAULT_TARGET_REPLACE (Some target)) with target.
    now rewrite Hw.
  - unfold inject_trainable_lora_extended, bind.
    change (default UNET_EXTENDED_TARGET_REPLACE (Some target)) with target.
    now rewrite Hw.
  - unfold monkeypatch_or_replace_lora_extended.
    change (default DEFAULT_TARGET_REPLACE (Some target)) with target.
    apply Hw.
  - apply extract_nothing.
    change (default DEFAULT_TARGET_REPLACE (Some target)) with target.
    rewrite find_modules_v2_eq, (ancestors_untagged _ _ H). reflexivity.
Qed.

Lemma unknown_target_does_nothing_witness :
  inject_trainable_lora ex_model (Some TEXT_ENCODER_DEFAULT_TARGET_REPLACE) 1 None
    ex_world
  = Ok (ex_model, ([], []), ex_world).
Proof.
  apply (unknown_target_does_nothing ex_model TEXT_ENCODER_DEFAULT_TARGET_REPLACE 1
           None [] (RankInt 1) ex_world).
  intros p a Hin. vm_compute in Hin.
  repeat (destruct Hin as [[= <- <-]|Hin]; [reflexivity|]). contradiction.
Defined.

(** ** The two injection functions on a model without convolutions *)













(** ** A body that can only raise *)


Lemma forallb_flat_map {A B} (p : B -> bool) (f : A -> list B) (l : list A) :
  forallb p (flat_map f l) = forallb (fun a => forallb p (f a)) l.
Proof.
  induction l as [|a l IH]; [reflexivity|].
  cbn [flat_map forallb]. now rewrite forallb_app, IH.
Qed.

Lemma forallb_map {A B} (p : B -> bool) (f : A -> B) (l : list A) :
  forallb p (map f l) = forallb (fun a => p (f a)) l.
Proof. induction l as [|a l IH]; [reflexivity|]. cbn. now rewrite IH. Qed.

Lemma forallb_same {A} (p q : A -> bool) (l : list A) :
  (forall a, p a = q a) -> forallb p l = forallb q l.
Proof. intros H. induction l as [|a l IH]; [reflexivity|]. cbn. now rewrite H, IH. Qed.

Lemma all_quiet_unfold tags search (m : module) :
  all_quiet tags search m
  = (negb (is_ancestor tags m) || quiet search m)
    && forallb (fun nc => all_quiet tags search (snd nc)) (named_children m).
Proof.
  unfold all_quiet.
  destruct m as [l|c|d|l|l|cls children]; cbn [named_modules forallb fst snd];
    try reflexivity.
  - cbn. now rewrite !andb_true_r.
  - cbn. now rewrite !andb_true_r.
  - f_equal. rewrite forallb_flat_map. cbn [named_children].
    apply forallb_same. intros nc. unfold prefix_paths. now rewrite forallb_map.
Qed.

Section Stuck.
Context {St : Type}.
Variable tags : option (list string).
Variable search : list layer_class.
Variable body : string -> module -> St -> M (outcome * St).
Variable self_install : exn.
Variable s : St.
Variable e : exn.
Hypothesis body_raises : forall n m w,
  isinstance_any m search = true -> body n m s w = Raise e.




End Stuck.

(** *** What the locator finds under an ancestor *)

Lemma excluded_find_under_nil search q a :
  isinstance_any a default_exclude = true ->
  find_under default_exclude search q a = [].
Proof.
  intros Hex. apply find_under_nil. intros full d Hin _.
  exists a. split; [|exact Hex].
  destruct a as [l|c|d0|l|l|cls children]; try discriminate;
    cbn in Hin;
    repeat (destruct Hin as [[= <- <-]|Hin]; [reflexivity|]); contradiction.
Qed.

Lemma quiet_find_under search q a :
  unique_names a -> quiet search a = true ->
  find_under default_exclude search q a = [].
Proof.
  unfold quiet. intros Hu Hq.
  destruct (isinstance_any a search) eqn:E.
  - now apply excluded_find_under_nil.
  - apply find_under_nil. now apply settled_parent_excluded.
Qed.

Lemma forallb_false {A} (p : A -> bool) (l : list A) :
  forallb p l = false -> exists a, In a l /\ p a = false.
Proof.
  induction l as [|a l IH]; cbn; [discriminate|].
  destruct (p a) eqn:E; cbn.
  - intros H. destruct (IH H) as (b & Hb & Eb). exists b. auto.
  - intros _. exists a. auto.
Qed.

Lemma unsettled_located search (a : module) :
  unique_names a -> isinstance_any a search = false -> settled search a = false ->
  exists full d parent,
    In (full, d) (named_modules a)
    /\ isinstance_any d search = true
    /\ full <> []
    /\ get_submodule a (removelast full) = Some parent
    /\ isinstance_any parent default_exclude = false.
Proof.
  induction a as [l|c|d0|l|l|cls children IH] using module_tree_ind;
    intros Hu E Hs; cbn [settled] in Hs; rewrite E in Hs; try discriminate.
  apply forallb_false in Hs as ([n c] & Hnc & Hc). cbn [snd] in Hc.
  destruct (unique_names_children _ _ Hu) as [Hnd Huc].
  destruct (isinstance_any c search) eqn:Ec.
  - exists [n], c, (mOther cls children). split; [|split; [exact Ec|split; [discriminate|]]].
    + cbn [named_modules]. right. apply in_flat_map. exists (n, c).
      split; [exact Hnc|]. unfold prefix_paths. apply in_map_iff.
      exists ([], c). split; [reflexivity|]. destruct c; now left.
    + split; [reflexivity | apply isinstance_any_container].
  - rewrite List.Forall_forall in IH.
    destruct (IH (n, c) Hnc (Huc _ Hnc) Ec Hc)
      as (full & d & parent & Hin & Hd & Hne & Hget & Hex).
    exists (n :: full), d, parent. split; [|split; [exact Hd|split; [discriminate|]]].
    + cbn [named_modules]. right. apply in_flat_map. exists (n, c).
      split; [exact Hnc|]. unfold prefix_paths. apply in_map_iff.
      exists (full, d). auto.
    + split; [|exact Hex].
      destruct full as [|n' full]; [contradiction|].
      change (removelast (n :: n' :: full)) with (n :: removelast (n' :: full)).
      cbn [get_submodule named_children].
      now rewrite (lookup_child_In _ _ _ Hnd Hnc).
Qed.

Lemma find_under_yields search q a full d parent :
  In (full, d) (named_modules a) ->
  isinstance_any d search = true ->
  get_submodule a (fst (split_fullname full)) = Some parent ->
  isinstance_any parent default_exclude = false ->
  find_under default_exclude search q a <> [].
Proof.
  intros Hin Hd Hget Hex E.
  assert (H : In (q ++ fst (split_fullname full), snd (split_fullname full), d)
                (find_under default_exclude search q a)).
  { unfold find_under. apply in_flat_map. exists (full, d). split; [exact Hin|].
    cbn [fst snd]. rewrite Hd.
    destruct (split_fullname full) as [path name]. cbn [fst snd] in *.
    rewrite Hget, Hex. now left. }
  rewrite E in H. contradiction.
Qed.

Lemma not_quiet_find_under search q a :
  unique_names a -> quiet search a = false ->
  find_under default_exclude search q a <> [].
Proof.
  unfold quiet. intros Hu Hq.
  destruct (isinstance_any a search) eqn:E.
  - apply (find_under_yields search q a [] a a); auto.
    destruct a; now left.
  - destruct (unsettled_located search a Hu E Hq)
      as (full & d & parent & Hin & Hd & Hne & Hget & Hex).
    apply (find_under_yields search q a full d parent); auto.
    destruct full; [contradiction | exact Hget].
Qed.

Lemma ancestors_In (model : module) (tags : option (list string)) pa :
  In pa (ancestors model tags)
  <-> In pa (named_modules model) /\ is_ancestor tags (snd pa) = true.
Proof.
  destruct tags as [tags|]; cbn [ancestors is_ancestor].
  - apply filter_In.
  - tauto.
Qed.

(** The locator finds nothing exactly when all ancestors are quiet. *)
Lemma located_all_quiet (tags : option (list string)) (search : list layer_class)
    (m : module) :
  unique_names m ->
  if all_quiet tags search m
  then find_modules_v2 m tags (Some search) None = []
  else find_modules_v2 m tags (Some search) None <> [].
Proof.
  intros Hu. rewrite find_modules_v2_eq. unfold all_quiet.
  destruct (forallb _ (named_modules m)) eqn:E.
  - rewrite forallb_forall in E. apply flat_map_nil. intros [p a] Hin.
    apply ancestors_In in Hin as [Hin Ha]. cbn [fst snd] in *.
    specialize (E _ Hin). cbn [snd] in E. rewrite Ha in E. cbn in E.
    apply quiet_find_under; [|exact E].
    exact (proj2 (named_modules_get m Hu p a Hin)).
  - apply forallb_false in E as ([p a] & Hin & Ha). cbn [snd] in Ha.
    apply orb_false_iff in Ha as [Hanc Hq]. apply negb_false_iff in Hanc.
    intros Hnil.
    assert (Hpa : In (p, a) (ancestors m tags)) by (apply ancestors_In; auto).
    pose proof (not_quiet_find_under search p a
                  (proj2 (named_modules_get m Hu p a Hin)) Hq) as Hne.
    apply Hne. clear -Hnil Hpa.
    induction (ancestors m tags) as [|x l IH]; [contradiction|].
    cbn [flat_map] in Hnil. apply app_eq_nil in Hnil as [H1 H2].
    destruct Hpa as [->|Hpa]; [exact H1 | now apply IH].
Qed.

(** *** The extended replacement without tensors *)




(** ** When the locator finds nothing *)

Lemma as_ancestor_quiet {St} (search : list layer_class)
    (body : string -> module -> St -> M (outcome * St)) (e : exn)
    (a : module) (s : St) (w : world) :
  quiet search a = true -> as_ancestor search body e a s w = Ok (a, s, w).
Proof.
  unfold quiet. destruct (isinstance_any a search) eqn:E; intros H.
  - unfold as_ancestor. now rewrite E, H.
  - now apply as_ancestor_settled.
Qed.

Lemma walk_quiet {St} (tags : option (list string)) (search : list layer_class)
    (body : string -> module -> St -> M (outcome * St)) (e : exn) (fuel : nat) :
  forall m s w,
    (depth m < fuel \/ (named_children m = [] /\ 0 < fuel)) ->
    all_quiet tags search m = true ->
    walk tags search body e fuel m s w = Ok (m, s, w).
Proof.
  induction fuel as [|fuel IH]; intros m s w Hd Hq; [lia|].
  rewrite all_quiet_unfold in Hq. apply andb_prop in Hq as [Hown Hch].
  rewrite forallb_forall in Hch.
  rewrite walk_eq.
  assert (Hfirst : (if is_ancestor tags m
                    then as_ancestor search body e m s
                    else ret (m, s)) w = Ok (m, s, w)).
  { destruct (is_ancestor tags m); [|reflexivity].
    apply as_ancestor_quiet. exact Hown. }
  rewrite (bind_Ok_intro _ _ _ _ _ Hfirst). cbn [fst snd].
  assert (Hrun : mapM_children (fun _ => walk tags search body e fuel)
                   (named_children m) s w = Ok (named_children m, s, w)).
  { apply mapM_children_id. intros nc Hin. apply IH; [|now apply Hch].
    destruct Hd as [Hd|[Hd _]]; [|rewrite Hd in Hin; contradiction].
    destruct m as [l|c|d|l|l|cls children]; try contradiction.
    + right. split; [|simpl in Hd; lia].
      cbn in Hin. destruct Hin as [<-|[<-|[<-|[<-|[]]]]]; reflexivity.
    + right. split; [|simpl in Hd; lia].
      cbn in Hin. destruct Hin as [<-|[<-|[<-|[<-|[]]]]]; reflexivity.
    + left. pose proof (depth_child cls children nc Hin). lia. }
  destruct m as [l|c|d|l|l|cls children]; cbv zeta; unfold bind;
    first [rewrite Hrun | cbn [named_children] in Hrun; rewrite Hrun]; reflexivity.
Qed.

Lemma nothing_located_walk {St} (tags : option (list string))
    (search : list layer_class) (body : string -> module -> St -> M (outcome * St))
    (e : exn) (model : module) (s : St) (w : world) :
  unique_names model ->
  find_modules_v2 model tags (Some search) None = [] ->
  for_find_modules tags search body e model s w = Ok (model, s, w).
Proof.
  intros Hu Hnil. unfold for_find_modules. apply walk_quiet; [left; lia|].
  pose proof (located_all_quiet tags search model Hu) as H.
  destruct (all_quiet tags search model); [reflexivity | contradiction].
Qed.

(** X13.  When the locator finds no layer for a call, the call changes
    nothing: the injection functions return the model as it is and two
    empty lists, the extended replacement leaves [loras] and the ranks
    untouched, [collapse_lora] and [monkeypatch_remove_lora] return the
    model as it is.  Nothing is built, no identity is drawn. *)
Theorem nothing_located_nothing_done (model : module)
    (target : option (list string)) (r : nat) (loras : option (list tensor))
    (tensors : list tensor) (ranks : rank_arg) (alpha : Z) (w : world) :
  unique_names model ->
  (find_modules_v2 model (Some (default DEFAULT_TARGET_REPLACE target))
     (Some [cLinear]) None = [] ->
   inject_trainable_lora model target r loras w = Ok (model, ([], []), w))
  /\ (find_modules_v2 model (Some (default UNET_EXTENDED_TARGET_REPLACE target))
        (Some [cLinear; cConv2d]) None = [] ->
      inject_trainable_lora_extended model target r loras w
      = Ok (model, ([], []), w))
  /\ (find_modules_v2 model (Some (default DEFAULT_TARGET_REPLACE target))
        (Some [cLinear; cLoraInjectedLinear; cConv2d; cLoraInjectedConv2d]) None = [] ->
      monkeypatch_or_replace_lora_extended model tensors target ranks w
      = Ok (model, ReplaceState tensors ranks, w))
  /\ (find_modules_v2 model
        (Some (UNET_EXTENDED_TARGET_REPLACE ++ TEXT_ENCODER_EXTENDED_TARGET_REPLACE))
        (Some [cLoraInjectedLinear; cLoraInjectedConv2d]) None = [] ->
      collapse_lora model alpha w = Ok (model, w))
  /\ (find_modules_v2 model None
        (Some [cLoraInjectedLinear; cLoraInjectedConv2d]) None = [] ->
      monkeypatch_remove_lora model w = Ok (model, w)).
Proof.
  intros Hu. repeat split; intros H.
  - unfold inject_trainable_lora, bind.
    now rewrite (nothing_located_walk _ _ _ _ _ _ _ Hu H).
  - unfold inject_trainable_lora_extended, bind.
    now rewrite (nothing_located_walk _ _ _ _ _ _ _ Hu H).
  - unfold monkeypatch_or_replace_lora_extended.
    now rewrite (nothing_located_walk _ _ _ _ _ _ _ Hu H).
  - unfold collapse_lora, bind.
    now rewrite (nothing_located_walk _ _ _ _ _ _ _ Hu H).
  - unfold monkeypatch_remove_lora, bind.
    now rewrite (nothing_located_walk _ _ _ _ _ _ _ Hu H).
Qed.

(** X14.  A second injection pass changes nothing.  When an injection
    function has returned, calling it again on the result, with the same
    target set and with whatever rank and preset tensors, returns the
    model as it is and two empty lists: no layer is wrapped twice and
    nothing is built. *)
Theorem second_injection_changes_nothing (model : module)
    (target : option (list string)) (r r2 : nat)
    (loras loras2 : option (list tensor)) (w w' : world) (m' : module)
    (out : list (list parameter) * list string) :
  unique_names model ->
  (inject_trainable_lora model target r loras w = Ok (m', out, w') ->
   inject_trainable_lora m' target r2 loras2 w' = Ok (m', ([], []), w'))
  /\ (inject_trainable_lora_extended model target r loras w = Ok (m', out, w') ->
      inject_trainable_lora_extended m' target r2 loras2 w' = Ok (m', ([], []), w')).
Proof.
  intros Hu. split; intros H.
  - apply inject_trainable_lora_walk in H as [s' H].
    pose proof (walk_then_nothing_found _ _ _ _ wraps (fun _ => True)
                  search_plain_linear (inject_body_installs r) (inject_body_wraps r)
                  wraps_excluded _ _ _ _ _ _ _ I Hu H) as Hnil.
    destruct (walk_spec _ _ _ _ wraps (fun _ => True)
                search_plain_linear (inject_body_installs r) (inject_body_wraps r)
                wraps_excluded _ _ _ _ _ _ _ I H) as (Hinj & _ & _).
    pose proof (injected_unique_names _ _ _ wraps_excluded _ _ _ Hinj Hu) as Hu'.
    unfold inject_trainable_lora, bind.
    now rewrite (nothing_located_walk _ _ _ _ _ _ _ Hu' Hnil).
  - apply inject_trainable_lora_extended_walk in H as [s' H].
    pose proof (walk_then_nothing_found _ _ _ _ wraps (fun _ => True)
                  search_plain_extended (inject_extended_body_installs r)
                  (inject_extended_body_wraps r)
                  wraps_excluded _ _ _ _ _ _ _ I Hu H) as Hnil.
    destruct (walk_spec _ _ _ _ wraps (fun _ => True)
                search_plain_extended (inject_extended_body_installs r)
                (inject_extended_body_wraps r)
                wraps_excluded _ _ _ _ _ _ _ I H) as (Hinj & _ & _).
    pose proof (injected_unique_names _ _ _ wraps_excluded _ _ _ Hinj Hu) as Hu'.
    unfold inject_trainable_lora_extended, bind.
    now rewrite (nothing_located_walk _ _ _ _ _ _ _ Hu' Hnil).
Qed.

Lemma second_injection_changes_nothing_witness :
  inject_trainable_lora ex_injected None 4 None
    (value_or (x <~ inject_trainable_lora ex_model None 1 None ex_world ;;
               Ok (snd x)) ex_world)
  = Ok (ex_injected, ([], []),
        value_or (x <~ inject_trainable_lora ex_model None 1 None ex_world ;;
                  Ok (snd x)) ex_world).
Proof.
  eapply (proj1 (second_injection_changes_nothing ex_model None 1 4 None None
                   ex_world _ ex_injected _ ex_model_unique_names)).
  vm_compute. reflexivity.
Defined.

Lemma nothing_located_nothing_done_witness :
  monkeypatch_remove_lora ex_model ex_world = Ok (ex_model, ex_world).
Proof.
  apply (nothing_located_nothing_done ex_model None 1 None [] (RankInt 1) 1%Z
           ex_world ex_model_unique_names).
  vm_compute. reflexivity.
Defined.

(** ** Two runs of the walk, step by step *)

Section Simulation.
Context {St1 St2 : Type}.
Variable tags : option (list string).
Variable search : list layer_class.
Variable body1 : string -> module -> St1 -> M (outcome * St1).
Variable body2 : string -> module -> St2 -> M (outcome * St2).
Variable self_install : exn.
Variable R : St1 -> St2 -> Prop.
Hypothesis body_sim : forall n m s1 s2 w o s1' w',
  R s1 s2 -> isinstance_any m search = true ->
  body1 n m s1 w = Ok (o, s1', w') ->
  exists s2', body2 n m s2 w = Ok (o, s2', w') /\ R s1' s2'.

Lemma mapM_children_sim (f1 : string -> module -> St1 -> M (module * St1))
    (f2 : string -> module -> St2 -> M (module * St2))
    (ch : list (string * module)) :
  (forall nc, In nc ch -> forall s1 s2 w c' s1' w',
     R s1 s2 -> f1 (fst nc) (snd nc) s1 w = Ok (c', s1', w') ->
     exists s2', f2 (fst nc) (snd nc) s2 w = Ok (c', s2', w') /\ R s1' s2') ->
  forall s1 s2 w ch' s1' w',
    R s1 s2 -> mapM_children f1 ch s1 w = Ok (ch', s1', w') ->
    exists s2', mapM_children f2 ch s2 w = Ok (ch', s2', w') /\ R s1' s2'.
Proof.
  induction ch as [|nc ch IH]; intros Hf s1 s2 w ch' s1' w' HR H.
  - inv_ret H. exists s2. split; [reflexivity | exact HR].
  - cbn [mapM_children] in *.
    apply bind_Ok in H as ([c1 t1] & w1 & Hc & H).
    apply bind_Ok in H as ([ch1 t2] & w2 & Hrest & H). inv_ret H.
    destruct (Hf nc (or_introl eq_refl) _ _ _ _ _ _ HR Hc) as (u1 & Hc2 & HR1).
    destruct (IH (fun nc' Hin => Hf nc' (or_intror Hin)) _ _ _ _ _ _ HR1 Hrest)
      as (u2 & Hrest2 & HR2).
    exists u2. split; [|exact HR2].
    unfold bind. rewrite Hc2. cbn [fst snd]. rewrite Hrest2. reflexivity.
Qed.

Lemma visit_sim (m : module) :
  forall n s1 s2 w m' s1' w',
    R s1 s2 -> visit search body1 n m s1 w = Ok (m', s1', w') ->
    exists s2', visit search body2 n m s2 w = Ok (m', s2', w') /\ R s1' s2'.
Proof.
  induction m as [l|c|d|l|l|cls children IH] using module_tree_ind;
    intros n s1 s2 w m' s1' w' HR; rewrite !visit_eq;
    match goal with
    | |- context [isinstance_any ?m search] =>
        destruct (isinstance_any m search) eqn:E
    end;
    try (intros H; apply bind_Ok in H as ([o t] & w1 & Hb & H); inv_ret H;
         destruct (body_sim _ _ _ _ _ _ _ _ HR E Hb) as (u & Hb2 & HR');
         exists u; split; [|exact HR'];
         unfold bind; rewrite Hb2; reflexivity);
    try (intros H; inv_ret H; exists s2; split; [reflexivity | exact HR]).
  intros H. apply bind_Ok in H as ([ch' t] & w1 & Hch & H). inv_ret H.
  rewrite List.Forall_forall in IH.
  destruct (mapM_children_sim (visit search body1) (visit search body2) children
              (fun nc Hin s1 s2 w c' s1' w' => IH nc Hin (fst nc) s1 s2 w c' s1' w')
              _ _ _ _ _ _ HR Hch) as (u & Hch2 & HR').
  exists u. split; [|exact HR']. unfold bind. rewrite Hch2. reflexivity.
Qed.

Lemma as_ancestor_sim (a : module) :
  forall s1 s2 w a' s1' w',
    R s1 s2 -> as_ancestor search body1 self_install a s1 w = Ok (a', s1', w') ->
    exists s2', as_ancestor search body2 self_install a s2 w = Ok (a', s2', w')
                /\ R s1' s2'.
Proof.
  intros s1 s2 w a' s1' w' HR. unfold as_ancestor.
  destruct (isinstance_any a search) eqn:E.
  - destruct (isinstance_any a default_exclude).
    + intros H. inv_ret H. exists s2. split; [reflexivity | exact HR].
    + intros H. apply bind_Ok in H as ([o t] & w1 & Hb & H).
      destruct (body_sim _ _ _ _ _ _ _ _ HR E Hb) as (u & Hb2 & HR').
      destruct o as [m0|m0]; cbn [fst snd] in H; [discriminate|]. inv_ret H.
      exists u. split; [|exact HR']. unfold bind. rewrite Hb2. reflexivity.
  - intros H.
    assert (Hv : visit search body1 EmptyString a s1 w = Ok (a', s1', w'))
      by (rewrite visit_eq, E; exact H).
    destruct (visit_sim a _ _ _ _ _ _ _ HR Hv) as (u & Hv2 & HR').
    rewrite visit_eq, E in Hv2. eauto.
Qed.

Lemma walk_sim (fuel : nat) :
  forall m s1 s2 w m' s1' w',
    R s1 s2 -> walk tags search body1 self_install fuel m s1 w = Ok (m', s1', w') ->
    exists s2', walk tags search body2 self_install fuel m s2 w = Ok (m', s2', w')
                /\ R s1' s2'.
Proof.
  induction fuel as [|fuel IH]; intros m s1 s2 w m' s1' w' HR H; [discriminate|].
  rewrite walk_eq in *.
  apply bind_Ok in H as ([x t1] & w1 & Hfirst & H). cbn [fst snd] in H.
  assert (Hfirst2 : exists t2,
             (if is_ancestor tags m
              then as_ancestor search body2 self_install m s2
              else ret (m, s2)) w = Ok (x, t2, w1) /\ R t1 t2).
  { destruct (is_ancestor tags m).
    - eapply as_ancestor_sim; eauto.
    - inv_ret Hfirst. exists s2. split; [reflexivity | exact HR]. }
  destruct Hfirst2 as (t2 & Hfirst2 & HR1).
  rewrite (bind_Ok_intro _ _ _ _ _ Hfirst2). cbn [fst snd].
  assert (Hch : forall ch' u1 w2,
             mapM_children (fun _ => walk tags search body1 self_install fuel)
               (named_children x) t1 w1 = Ok (ch', u1, w2) ->
             exists u2,
               mapM_children (fun _ => walk tags search body2 self_install fuel)
                 (named_children x) t2 w1 = Ok (ch', u2, w2) /\ R u1 u2).
  { intros ch' u1 w2 Hrun.
    eapply (mapM_children_sim (fun _ => walk tags search body1 self_install fuel)
              (fun _ => walk tags search body2 self_install fuel));
      [|exact HR1 | exact Hrun].
    intros nc _ ? ? ? ? ? ?. apply IH. }
  destruct x as [l|c|d|l|l|cls children]; cbv zeta in *;
    apply bind_Ok in H as ([ch' u1] & w2 & Hrun & H); inv_ret H;
    destruct (Hch _ _ _ Hrun) as (u2 & Hrun2 & HR2);
    exists u2; (split; [|exact HR2]);
    unfold bind; cbn [named_children] in *; rewrite Hrun2; reflexivity.
Qed.

End Simulation.

(** *** Tensors beyond those the layers take *)

Lemma replace_extended_body_surplus (extra : list tensor) n m s1 s2 w o s1' w' :
  (p_loras s2 = p_loras s1 ++ extra /\ p_r s2 = p_r s1) ->
  replace_extended_body n m s1 w = Ok (o, s1', w') ->
  exists s2',
    replace_extended_body n m s2 w = Ok (o, s2', w')
    /\ (p_loras s2' = p_loras s1' ++ extra /\ p_r s2' = p_r s1').
Proof.
  intros [HL Hr] H. destruct s1 as [l1 r1], s2 as [l2 r2]. cbn [p_loras p_r] in *.
  subst l2 r2.
  destruct m as [l|c|d|l|l|cls children]; try discriminate;
    cbn [replace_extended_body p_loras p_r] in *;
    (destruct l1 as [|t0 rest]; [discriminate|]);
    change ((t0 :: rest) ++ extra) with (t0 :: (rest ++ extra));
    cbn [first] in *; unfold bind at 1 in H; unfold bind at 1;
    unfold ret at 1 in H; unfold ret at 1; cbv beta iota in *;
    match goal with
    | |- context [negb ?b] => destruct (negb b)
    end;
    try (inv_ret H; eexists; split; [reflexivity | split; reflexivity]);
    apply bind_Ok in H as ([rk r'] & w1 & Hrk & H);
    apply bind_Ok in H as (tmp & w2 & Hwrap & H);
    cbn [pop0] in *; unfold bind at 1 in H; unfold ret at 1 in H;
    cbv beta iota in H; cbn [fst snd] in H;
    (destruct rest as [|t1 rest']; [discriminate|]);
    change ((t1 :: rest') ++ extra) with (t1 :: (rest' ++ extra));
    cbn [pop0] in H; unfold bind at 1 in H; unfold ret at 1 in H;
    cbv beta iota in H; cbn [fst snd] in H;
    apply bind_Ok in H as (upw & w3 & Hup & H);
    apply bind_Ok in H as (downw & w4 & Hdown & H);
    inv_ret H;
    eexists;
    (split;
     [rewrite (bind_Ok_intro _ _ _ _ _ Hrk);
      rewrite (bind_Ok_intro _ _ _ _ _ Hwrap);
      cbn [pop0]; unfold bind at 1; unfold ret at 1; cbv beta iota; cbn [fst snd];
      cbn [pop0]; unfold bind at 1; unfold ret at 1; cbv beta iota; cbn [fst snd];
      rewrite (bind_Ok_intro _ _ _ _ _ Hup);
      rewrite (bind_Ok_intro _ _ _ _ _ Hdown);
      reflexivity
     | split; reflexivity]).
Qed.

Lemma preset_weights_surplus (extra l : list tensor) (up down : parameter) w x w' :
  preset_weights (Some l) up down w = Ok (x, w') ->
  exists rest,
    snd x = Some rest
    /\ preset_weights (Some (l ++ extra)) up down w
       = Ok ((fst x, Some (rest ++ extra)), w').
Proof.
  cbn [preset_weights]. intros H.
  destruct l as [|t0 [|t1 rest]];
    [discriminate | unfold bind in H; cbn in H; discriminate |].
  apply bind_Ok in H as (x0 & w0 & Hx0 & H). inv_ret Hx0.
  apply bind_Ok in H as (upw & w1 & Hup & H). cbn [fst snd] in *.
  apply bind_Ok in H as (y0 & w2 & Hy0 & H). inv_ret Hy0.
  apply bind_Ok in H as (downw & w3 & Hdown & H). cbn [fst snd] in *. inv_ret H.
  exists rest. split; [reflexivity|].
  change ((t0 :: t1 :: rest) ++ extra) with (t0 :: t1 :: (rest ++ extra)).
  cbn [pop0]. unfold bind at 1, ret at 1. cbv beta iota. cbn [fst snd].
  rewrite (bind_Ok_intro _ _ _ _ _ Hup).
  cbn [pop0]. unfold bind at 1, ret at 1. cbv beta iota. cbn [fst snd].
  rewrite (bind_Ok_intro _ _ _ _ _ Hdown). reflexivity.
Qed.

Lemma inject_extended_body_surplus (extra : list tensor) r n m s1 s2 w o s1' w' :
  (i_params s2 = i_params s1 /\ i_names s2 = i_names s1
   /\ exists l, i_loras s1 = Some l /\ i_loras s2 = Some (l ++ extra)) ->
  inject_extended_body r n m s1 w = Ok (o, s1', w') ->
  exists s2',
    inject_extended_body r n m s2 w = Ok (o, s2', w')
    /\ (i_params s2' = i_params s1' /\ i_names s2' = i_names s1'
        /\ exists l, i_loras s1' = Some l /\ i_loras s2' = Some (l ++ extra)).
Proof.
  intros (Hp & Hn & l & Hl1 & Hl2) H.
  destruct m as [src|src| | | |]; try discriminate;
    cbn [inject_extended_body] in *;
    apply bind_Ok in H as (tmp & w1 & Hwrap & H);
    rewrite (bind_Ok_intro _ _ _ _ _ Hwrap);
    unfold install_linear, install_conv in *;
    apply bind_Ok in H as (x & w2 & Hpre & H); inv_ret H;
    rewrite Hl1 in Hpre;
    destruct (preset_weights_surplus extra _ _ _ _ _ _ Hpre) as (rest & Hx & Hpre2);
    rewrite Hl2, (bind_Ok_intro _ _ _ _ _ Hpre2); cbn [fst snd];
    rewrite Hp, Hn; eexists; (split; [reflexivity|]); cbn [i_params i_names i_loras];
    (split; [reflexivity|]); (split; [reflexivity|]);
    exists rest; (split; [exact Hx | reflexivity]).
Qed.

(** X15.  Tensors beyond those the located layers take are never looked
    at.  A call that returns with a list of tensors returns the same with
    any list that goes on after it: the injection functions give the same
    model and lists, and the extended replacement gives the same model and
    leaves the further tensors behind what it had left.  No call checks
    that the list has been used up. *)
Theorem surplus_tensors_are_ignored (model : module)
    (target : option (list string)) (r : nat) (ranks ranks' : rank_arg)
    (l extra rest : list tensor) (w w' : world) (m' : module)
    (out : list (list parameter) * list string) :
  (inject_trainable_lora model target r (Some l) w = Ok (m', out, w') ->
   inject_trainable_lora model target r (Some (l ++ extra)) w = Ok (m', out, w'))
  /\ (inject_trainable_lora_extended model target r (Some l) w = Ok (m', out, w') ->
      inject_trainable_lora_extended model target r (Some (l ++ extra)) w
      = Ok (m', out, w'))
  /\ (monkeypatch_or_replace_lora_extended model l target ranks w
      = Ok (m', ReplaceState rest ranks', w') ->
      monkeypatch_or_replace_lora_extended model (l ++ extra) target ranks w
      = Ok (m', ReplaceState (rest ++ extra) ranks', w')).
Proof.
  split; [|split]; intros H.
  - unfold inject_trainable_lora in *.
    apply bind_Ok in H as ([m1 s1] & w1 & Hrun & H). inv_ret H.
    unfold for_find_modules in *.
    destruct (walk_sim _ [cLinear] (inject_body r) (inject_body r) RuntimeError
                (fun s1 s2 => i_params s2 = i_params s1 /\ i_names s2 = i_names s1
                   /\ exists l0, i_loras s1 = Some l0
                                 /\ i_loras s2 = Some (l0 ++ extra))
                (fun n m t1 t2 w0 o t1' w0' HR Hi Hb =>
                   ltac:(rewrite inject_body_extended in * by exact Hi;
                         exact (inject_extended_body_surplus extra r n m t1 t2 w0 o
                                  t1' w0' HR Hb)))
                _ _ (InjectState (Some l) [] [])
                (InjectState (Some (l ++ extra)) [] []) _ _ _ _
                (conj eq_refl (conj eq_refl (ex_intro _ l (conj eq_refl eq_refl))))
                Hrun)
      as (s2 & Hrun2 & Hp & Hn & _).
    rewrite (bind_Ok_intro _ _ _ _ _ Hrun2). cbn [fst snd]. now rewrite Hp, Hn.
  - unfold inject_trainable_lora_extended in *.
    apply bind_Ok in H as ([m1 s1] & w1 & Hrun & H). inv_ret H.
    unfold for_find_modules in *.
    destruct (walk_sim _ [cLinear; cConv2d] (inject_extended_body r)
                (inject_extended_body r) RuntimeError
                (fun s1 s2 => i_params s2 = i_params s1 /\ i_names s2 = i_names s1
                   /\ exists l0, i_loras s1 = Some l0
                                 /\ i_loras s2 = Some (l0 ++ extra))
                (fun n m t1 t2 w0 o t1' w0' HR _ Hb =>
                   inject_extended_body_surplus extra r n m t1 t2 w0 o t1' w0' HR Hb)
                _ _ (InjectState (Some l) [] [])
                (InjectState (Some (l ++ extra)) [] []) _ _ _ _
                (conj eq_refl (conj eq_refl (ex_intro _ l (conj eq_refl eq_refl))))
                Hrun)
      as (s2 & Hrun2 & Hp & Hn & _).
    rewrite (bind_Ok_intro _ _ _ _ _ Hrun2). cbn [fst snd]. now rewrite Hp, Hn.
  - unfold monkeypatch_or_replace_lora_extended, for_find_modules in *.
    destruct (walk_sim _ _ replace_extended_body replace_extended_body OutsideModel
                (fun s1 s2 => p_loras s2 = p_loras s1 ++ extra /\ p_r s2 = p_r s1)
                (fun n m t1 t2 w0 o t1' w0' HR _ Hb =>
                   replace_extended_body_surplus extra n m t1 t2 w0 o t1' w0' HR Hb)
                _ _ (ReplaceState l ranks) (ReplaceState (l ++ extra) ranks) _ _ _ _
                (conj eq_refl eq_refl) H)
      as ([l2 r2] & Hrun2 & Hl & Hr).
    cbn [p_loras p_r] in *. subst. exact Hrun2.
Qed.

Lemma surplus_tensors_are_ignored_witness :
  exists res,
    inject_trainable_lora ex_model None 1
      (Some [Tensor [2; 1] [2; 3]%Z; Tensor [1; 2] [1; 1]%Z]) ex_world = Ok res
    /\ inject_trainable_lora ex_model None 1
         (Some ([Tensor [2; 1] [2; 3]%Z; Tensor [1; 2] [1; 1]%Z] ++ [ex_kernel]))
         ex_world = Ok res.
Proof.
  destruct (inject_trainable_lora ex_model None 1
              (Some [Tensor [2; 1] [2; 3]%Z; Tensor [1; 2] [1; 1]%Z]) ex_world)
    as [[[m out] w']|e] eqn:E.
  - exists (m, out, w'). split; [reflexivity|].
    exact (proj1 (surplus_tensors_are_ignored ex_model None 1 (RankInt 1) (RankInt 1)
                    _ [ex_kernel] [] ex_world w' m out) E).
  - vm_compute in E. discriminate E.
Defined.

(** *** The preset tensors, in their order *)





(** ** What a run keeps true of the state and the world *)

Section WalkInvariant.
Context {St : Type}.
Variable tags : option (list string).
Variable search : list layer_class.
Variable body : string -> module -> St -> M (outcome * St).
Variable self_install : exn.
Variable Inv : St -> world -> Prop.
Hypothesis body_keeps : forall n m s w o s' w',
  Inv s w -> body n m s w = Ok (o, s', w') -> Inv s' w'.




End WalkInvariant.

(** *** The identities of the new parameters *)












(** ** Two runs over different search classes *)

Section Simulation2.
Context {St1 St2 : Type}.
Variable tags : option (list string).
Variable search1 search2 : list layer_class.
Variable body1 : string -> module -> St1 -> M (outcome * St1).
Variable body2 : string -> module -> St2 -> M (outcome * St2).
Variable self_install : exn.
Variable R : St1 -> St2 -> Prop.
Variable P : module -> Prop.
Hypothesis same_search : forall m,
  P m -> isinstance_any m search1 = isinstance_any m search2.
Hypothesis body_sim : forall n m s1 s2 w o s1' w',
  P m -> R s1 s2 -> isinstance_any m search1 = true ->
  body1 n m s1 w = Ok (o, s1', w') ->
  exists s2', body2 n m s2 w = Ok (o, s2', w') /\ R s1' s2' /\ P (now_at o).
Hypothesis P_children : forall m nc,
  P m -> In nc (named_children m) -> P (snd nc).
Hypothesis P_container : forall cls ch,
  (forall nc, In nc ch -> P (snd nc)) -> P (mOther cls ch).





End Simulation2.

(** ** The dense replacement and the extended one *)











(** ** Collapse, then remove, on a whole model *)














